(** * Polynomial-optics post-process renderer: a shallow embedding

    Embedding of [polynomialOpticsExample_modified.cpp] (the [main] routine
    and [get_system]) together with the properties its specification states.

    Numbers.  The renderer computes on C [float]s.  Where single precision
    decides what the program does next or which value comes out (the sample
    count of a pixel, the square root and its not-a-number test, the gamut
    floor) the code is embedded on IEEE binary32 itself: module [Binary32],
    on [SpecFloat] with precision 24 and exponent bound 128, with its
    rounding, infinities and not-a-number.  The loop nest, the accumulation
    into the image and the geometry are about the arithmetic the code writes
    down; there a [float] is read as the exact rational it stands for ([Q]),
    and "up to rounding" in the specification becomes equality of rationals
    ([==]).  The sample loop of a pixel comes twice: inside the loop nest on
    the rationals ([Render.pixel_body]), and on its own with the count the
    machine computes ([Pixel.sample_loop]).  The C [int] is kept as a
    bounded machine integer: a conversion [(int)x] whose truncated value
    does not fit has no defined result. *)

From Stdlib Require Import ZArith QArith Qround Qpower Lia Lqa List Bool.
From Stdlib Require Import Floats.SpecFloat.
Import ListNotations.

Local Open Scope Z_scope.
Local Open Scope Q_scope.

(** Linear and non-linear arithmetic over the rationals. *)
Ltac lqa := Lqa.lra.
Ltac nqa := Lqa.nra.

(** ** Machine integers and conversions *)

Module CInt.

Definition INT_MIN : Z := -2147483648.
Definition INT_MAX : Z := 2147483647.

Definition representable (z : Z) : bool :=
  (INT_MIN <=? z)%Z && (z <=? INT_MAX)%Z.

(** [(int)x] on a float: the fractional part is discarded (truncation toward
    zero). *)
Definition Qtrunc (x : Q) : Z := Z.quot (Qnum x) (Zpos (Qden x)).

(** [(int)x], with [None] where the truncated value is not an [int]. *)
Definition int_of_float (x : Q) : option Z :=
  let z := Qtrunc x in
  if representable z then Some z else None.

(** [std::max] on [int]: [(a < b) ? b : a]. *)
Definition max (a b : Z) : Z := if (a <? b)%Z then b else a.

End CInt.

(** [std::max] on [float]: [(a < b) ? b : a]. *)
Definition Qltb (a b : Q) : bool := negb (Qle_bool b a).
Definition fmax (a b : Q) : Q := if Qltb a b then b else a.

(** ** Per-pixel importance sampling (lines 181-186) *)

Module Sampling.

(** [int num_samples = max(1, (int)(L_in * sample_mul));] *)
Definition num_samples (L_in sample_mul : Q) : option Z :=
  option_map (CInt.max 1) (CInt.int_of_float (L_in * sample_mul)).

(** [float sample_weight = L_in / num_samples;] *)
Definition sample_weight (L_in : Q) (n : Z) : Q := L_in / inject_Z n.

(** The compiled-in multiplier, [float sample_mul = 1000]. *)
Definition sample_mul : Q := 1000.

End Sampling.

(** ** Truncated polynomial systems

    The polynomial algebra ([TruncPoly/TruncPolySystem.hh]) is a collaborator
    of [main]; its operations are given here the meaning the specification
    gives them. *)

Module Poly.

(** Modelled from the spec: a polynomial term, a coefficient and one
    exponent per input variable ([PolyTerm]); the library's header is not
    under src/. *)
Record PolyTerm : Type := mkTerm { coefficient : Q; exponents : list nat }.

(** Modelled from the spec: a polynomial is its list of terms, a transform
    one polynomial per output equation ([TruncPoly], [TruncPolySystem]). *)
Definition TruncPoly : Type := list PolyTerm.
Definition TruncPolySystem : Type := list TruncPoly.

Fixpoint qpow (x : Q) (n : nat) : Q :=
  match n with
  | O => 1
  | S k => x * qpow x k
  end.

Fixpoint monomial (es : list nat) (xs : list Q) : Q :=
  match es, xs with
  | e :: es', x :: xs' => qpow x e * monomial es' xs'
  | _, _ => 1
  end.

Definition eval_term (t : PolyTerm) (xs : list Q) : Q :=
  coefficient t * monomial (exponents t) xs.

Fixpoint eval_poly (p : TruncPoly) (xs : list Q) : Q :=
  match p with
  | [] => 0
  | t :: p' => eval_term t xs + eval_poly p' xs
  end.

(** Modelled from the spec: evaluation at a concrete input vector
    ([evaluate]). *)
Definition evaluate (sys : TruncPolySystem) (xs : list Q) : list Q :=
  map (fun p => eval_poly p xs) sys.

(** Total degree of a term. *)
Definition degree_of (t : PolyTerm) : nat := list_sum (exponents t).

(** Modelled from the spec: truncation, "discarding polynomial terms above a
    configured total degree" ([operator%=]). *)
Definition trunc (d : nat) (p : TruncPoly) : TruncPoly :=
  filter (fun t => (degree_of t <=? d)%nat) p.

Definition trunc_system (d : nat) (sys : TruncPolySystem) : TruncPolySystem :=
  map (trunc d) sys.

(** Modelled from the spec: sum and product of two polynomials
    ([operator+], [operator*]); the product is exact, any truncation is the
    explicit [trunc]. *)
Definition poly_add (p q : TruncPoly) : TruncPoly := p ++ q.

Fixpoint add_exponents (es fs : list nat) : list nat :=
  match es, fs with
  | e :: es', f :: fs' => (e + f)%nat :: add_exponents es' fs'
  | _, _ => []
  end.

Definition term_mul (s t : PolyTerm) : PolyTerm :=
  mkTerm (coefficient s * coefficient t)
         (add_exponents (exponents s) (exponents t)).

Definition poly_mul (p q : TruncPoly) : TruncPoly :=
  flat_map (fun s => map (term_mul s) q) p.

(** Equation [k] of a system, read ([sys[k]]) and assigned ([sys[k] = p]). *)
Definition get_equation (k : nat) (sys : TruncPolySystem) : TruncPoly :=
  nth k sys [].

Definition set_equation (k : nat) (p : TruncPoly) (sys : TruncPolySystem)
  : TruncPolySystem :=
  if (k <? length sys)%nat then firstn k sys ++ p :: skipn (S k) sys else sys.

(** Modelled from the spec: "removal of one output equation"
    ([drop_equation]). *)
Definition drop_equation (k : nat) (sys : TruncPolySystem) : TruncPolySystem :=
  firstn k sys ++ skipn (S k) sys.

(** Modelled from the spec: baking, "substituting a concrete numeric value
    for one named input variable of a transform, reducing its input arity by
    one" ([bake_input_variable]). *)
Definition bake_term (k : nat) (v : Q) (t : PolyTerm) : PolyTerm :=
  mkTerm (coefficient t * qpow v (nth k (exponents t) O))
         (firstn k (exponents t) ++ skipn (S k) (exponents t)).

Definition bake_poly (k : nat) (v : Q) (p : TruncPoly) : TruncPoly :=
  map (bake_term k v) p.

Definition bake_input_variable (k : nat) (v : Q) (sys : TruncPolySystem)
  : TruncPolySystem :=
  map (bake_poly k v) sys.

(** Modelled from the spec: "linear interpolation between two transforms of
    matching shape parameterized by a scalar control value", the control
    value being one more input variable, placed last ([lerp_with]):
    [this * (pos_rhs - t) / (pos_rhs - pos_this)
     + rhs * (t - pos_this) / (pos_rhs - pos_this)]. *)
Definition lift_term (c : Q) (e : nat) (t : PolyTerm) : PolyTerm :=
  mkTerm (c * coefficient t) (exponents t ++ [e]).

Definition lerp_poly (this rhs : TruncPoly) (pos_this pos_rhs : Q) : TruncPoly :=
  let w := / (pos_rhs - pos_this) in
  map (lift_term (pos_rhs * w) 0) this ++ map (lift_term (- w) 1) this ++
  map (lift_term (- pos_this * w) 0) rhs ++ map (lift_term w 1) rhs.

Fixpoint lerp_with (this rhs : TruncPolySystem) (pos_this pos_rhs : Q)
  : TruncPolySystem :=
  match this, rhs with
  | p :: this', q :: rhs' =>
      lerp_poly p q pos_this pos_rhs :: lerp_with this' rhs' pos_this pos_rhs
  | _, _ => []
  end.

(** Every term of the polynomial has one exponent per input variable. *)
Definition well_formed (num_vars : nat) (p : TruncPoly) : Prop :=
  Forall (fun t => length (exponents t) = num_vars) p.

Definition well_formed_system (num_vars : nat) (sys : TruncPolySystem) : Prop :=
  Forall (well_formed num_vars) sys.

End Poly.

(** ** The lens and the spectral compositor (lines 39-69, 100-144) *)

Module Optics.

Import Poly.

Section Lens.

(** The optical elements, the material table and the focus solver are
    collaborators ([OpticalElements/]); [compose] is [operator>>]. *)
Variable two_plane_5 : Q -> nat -> TruncPolySystem.
Variable refract_spherical_5 : Q -> Q -> Q -> nat -> TruncPolySystem.
Variable propagate_5 : Q -> nat -> TruncPolySystem.
Variable compose : TruncPolySystem -> TruncPolySystem -> TruncPolySystem.
Variable glass1_index glass2_index : Q -> Q.
Variable find_focus_X : TruncPolySystem -> Q.
Variable get_magnification_X : TruncPolySystem -> Q.
(** The degree [propagate_5] takes when the call names none. *)
Variable propagate_default_degree : nat.

Local Notation "a >> b" := (compose a b) (at level 50, left associativity).

(** [Transform4f get_system(float lambda, int degree = 3)] *)
Definition get_system (lambda : Q) (degree : nat) : TruncPolySystem :=
  let d0 : Q := 5000000 in
  let R1 : Q := 6522 # 100 in
  let d1 : Q := 960 # 100 in
  let R2 : Q := - (6203 # 100) in
  let d2 : Q := 420 # 100 in
  let R3 : Q := - (124067 # 100) in
  two_plane_5 d0 degree
    >> refract_spherical_5 R1 1 (glass1_index lambda) degree
    >> propagate_5 d1 degree
    >> refract_spherical_5 R2 (glass1_index lambda) (glass2_index lambda) degree
    >> propagate_5 d2 degree
    >> refract_spherical_5 R3 (glass2_index lambda) 1 degree.

Definition get_system_default_degree : nat := 3.

(** [int degree = 3;] *)
Definition degree : nat := 3.

(** [float d3 = find_focus_X(get_system(550, degree));] *)
Definition d3 : Q := find_focus_X (get_system 550 degree).

(** [float magnification = get_magnification_X(system >> propagate_5(d3));] *)
Definition magnification : Q :=
  get_magnification_X
    (get_system 550 degree >> propagate_5 d3 propagate_default_degree).

(** [Transform4f prop = propagate_5(d3, degree);] *)
Definition prop : TruncPolySystem := propagate_5 d3 degree.

(** [Transform4d system_spectral_center = get_system(500) >> prop;]
    [Transform4d system_spectral_right = get_system(600, degree) >> prop;] *)
Definition system_spectral_center : TruncPolySystem :=
  get_system 500 get_system_default_degree >> prop.

Definition system_spectral_right : TruncPolySystem :=
  get_system 600 degree >> prop.

(** [System54f system_spectral =
       system_spectral_center.lerp_with(system_spectral_right, 550, 600);] *)
Definition system_spectral : TruncPolySystem :=
  lerp_with system_spectral_center system_spectral_right 550 600.

End Lens.

(** Lines 142-144:
    [system_spectral[2] = (system_spectral[2] * system_spectral[2]
                           + system_spectral[3] * system_spectral[3]);
     system_spectral[2] %= 2;
     System53d system_lambert_cos2 = system_spectral.drop_equation(3);] *)
Definition system_lambert_cos2 (system_spectral : TruncPolySystem)
  : TruncPolySystem :=
  let s2 := get_equation 2 system_spectral in
  let s3 := get_equation 3 system_spectral in
  let sys1 := set_equation 2 (poly_add (poly_mul s2 s2) (poly_mul s3 s3))
                           system_spectral in
  let sys2 := set_equation 2 (trunc 2 (get_equation 2 sys1)) sys1 in
  drop_equation 3 sys2.

(** The rearrangement as the specification words it: the sum of squares
    "reduced modulo the working degree". *)
Definition system_lambert_cos2_spec (working_degree : nat)
  (sys : TruncPolySystem)
  : TruncPolySystem :=
  let s2 := get_equation 2 sys in
  let s3 := get_equation 3 sys in
  drop_equation 3
    (set_equation 2
       (trunc working_degree (poly_add (poly_mul s2 s2) (poly_mul s3 s3))) sys).

(** The interpolation as the specification words it: the straight line
    through the two boundary transforms at the wavelengths they were built
    for. *)
Definition spectral_line (lambda_center lambda_right : Q)
  (center right : Q) (lambda : Q) : Q :=
  center + (right - center) * (lambda - lambda_center)
           / (lambda_right - lambda_center).

End Optics.

(** ** The image buffer and the gamut pass (lines 116, 217-219, 227-239) *)

Module Image.

(** A [CImg<float>] of depth 1: its dimensions and its samples by column,
    row and channel. *)
Record CImg : Type := mkImg {
  width : Z;
  height : Z;
  spectrum : Z;
  data : Z -> Z -> Z -> Q
}.

(** [CImg<float> img(w, h, 1, s, v)]: every sample set to [v]. *)
Definition filled (w h s : Z) (v : Q) : CImg := mkImg w h s (fun _ _ _ => v).

Definition inside (img : CImg) (x y c : Z) : bool :=
  (0 <=? x)%Z && (x <? width img)%Z && (0 <=? y)%Z && (y <? height img)%Z
  && (0 <=? c)%Z && (c <? spectrum img)%Z.

Definition same_cell (x y c x' y' c' : Z) : bool :=
  (x' =? x)%Z && (y' =? y)%Z && (c' =? c)%Z.

(** [img(x, y, 0, c) = v] *)
Definition store (img : CImg) (x y c : Z) (v : Q) : CImg :=
  mkImg (width img) (height img) (spectrum img)
        (fun x' y' c' => if same_cell x y c x' y' c' then v else data img x' y' c').

(** One corner of a bilinear splat: the sample receives [w * value], on top
    of what it holds when [is_added], blended with it otherwise; corners
    outside the image are skipped. *)
Definition deposit (w value : Q) (x y c : Z) (is_added : bool) (img : CImg)
  : CImg :=
  if inside img x y c then
    let w2 := if is_added then 1 else 1 - w in
    store img x y c (w * value + w2 * data img x y c)
  else img.

(** Modelled from the spec: "write side supports accumulation
    (add-and-store) at sub-pixel (bilinear) coordinates"
    ([set_linear_atXY(value, fx, fy, 0, c, is_added)] of [include/CImg.h],
    which is not under src/): the value is shared among the four samples
    around [(fx, fy)] by the bilinear weights. *)
Definition set_linear_atXY (value fx fy : Q) (c : Z) (is_added : bool)
  (img : CImg) : CImg :=
  let x := Qfloor fx in
  let y := Qfloor fy in
  let dx := fx - inject_Z x in
  let dy := fy - inject_Z y in
  deposit (dx * dy) value (x + 1) (y + 1) c is_added
    (deposit ((1 - dx) * dy) value x (y + 1) c is_added
       (deposit (dx * (1 - dy)) value (x + 1) y c is_added
          (deposit ((1 - dx) * (1 - dy)) value x y c is_added img))).

(** A counted loop whose body cannot fail:
    [for (int i = 0; i < n; ++i) body]. *)
Fixpoint iterate {S : Type} (n : nat) (i : Z) (body : Z -> S -> S) (s : S) : S :=
  match n with
  | O => s
  | S n' => iterate n' (i + 1)%Z body (body i s)
  end.

(** [0.02f] *)
Definition gamut_floor : Q := 2 # 100.

(** The three channels of a pixel. *)
Definition channels (img : CImg) (i j : Z) : Q * Q * Q :=
  (data img i j 0%Z, data img i j 1%Z, data img i j 2%Z).

(** [max(c0, max(c1, c2))] *)
Definition max_channel (p : Q * Q * Q) : Q :=
  let '(c0, c1, c2) := p in fmax c0 (fmax c1 c2).

(** Lines 230-236, the body of the gamut loop at pixel [(i, j)]. *)
Definition gamut_pixel (img : CImg) (i j : Z) : CImg :=
  let max_value := max_channel (channels img i j) in
  let img1 := store img i j 0%Z (fmax (data img i j 0%Z) (gamut_floor * max_value)) in
  let img2 := store img1 i j 1%Z (fmax (data img1 i j 1%Z) (gamut_floor * max_value)) in
  store img2 i j 2%Z (fmax (data img2 i j 2%Z) (gamut_floor * max_value)).

(** Lines 228-239, over an [xres] by [yres] image. *)
Definition gamut_pass (xres yres : Z) (img : CImg) : CImg :=
  iterate (Z.to_nat yres) 0%Z
    (fun j img_j =>
       iterate (Z.to_nat xres) 0%Z (fun i img_i => gamut_pixel img_i i j) img_j)
    img.

(** What the pass does to one pixel, on its three channels alone. *)
Definition gamut_channels (p : Q * Q * Q) : Q * Q * Q :=
  let '(c0, c1, c2) := p in
  let max_value := max_channel p in
  (fmax c0 (gamut_floor * max_value),
   fmax c1 (gamut_floor * max_value),
   fmax c2 (gamut_floor * max_value)).

End Image.

(** ** World coordinates of a row (lines 165-166) *)

Module Geometry.

(** [const float y_sensor = ((j - height/2)/(float)width) * sensor_width;
     const float y_world = y_sensor / magnification;]
    [height] and [width] are the input image's pixel counts, [sensor_width]
    the sensor's physical width. *)
Definition y_sensor (j height width : Z) (sensor_width : Q) : Q :=
  (inject_Z (j - height ÷ 2) / inject_Z width) * sensor_width.

Definition y_world (j height width : Z) (sensor_width magnification : Q) : Q :=
  y_sensor j height width sensor_width / magnification.

(** The sensor's physical height, for an image of [width] by [height]
    square pixels across a sensor [sensor_width] wide; the program never
    computes it. *)
Definition sensor_height (height width : Z) (sensor_width : Q) : Q :=
  sensor_width * inject_Z height / inject_Z width.

(** [const float x_sensor = (i / (float)width - 0.5) * sensor_width;
     const float x_world = x_sensor / magnification;] (lines 173-174) *)
Definition x_sensor (i width : Z) (sensor_width : Q) : Q :=
  (inject_Z i / inject_Z width - (1 # 2)) * sensor_width.

Definition x_world (i width : Z) (sensor_width magnification : Q) : Q :=
  x_sensor i width sensor_width / magnification.

End Geometry.

(** ** The Monte Carlo renderer (lines 76-98, 116-130, 146-224) *)

Module Render.

Import Poly Image Sampling.

(** How a run of a loop nest ends: with a state, without one because the
    fuel given to an unbounded loop ran out, or undefined (an [int]
    conversion out of range). *)
Inductive outcome (S : Type) : Type :=
| Done (s : S)
| OutOfFuel
| Undefined.

Arguments Done {S} s.
Arguments OutOfFuel {S}.
Arguments Undefined {S}.

Definition bind {A B : Type} (m : outcome A) (f : A -> outcome B) : outcome B :=
  match m with
  | Done a => f a
  | OutOfFuel => OutOfFuel
  | Undefined => Undefined
  end.

(** [for (int i = 0; i < count; ++i) body] *)
Fixpoint for_loop {S : Type} (n : nat) (i : Z) (body : Z -> S -> outcome S)
  (s : S) : outcome S :=
  match n with
  | O => Done s
  | S n' => bind (body i s) (for_loop n' (i + 1)%Z body)
  end.

Definition for_range {S : Type} (count : Z) (body : Z -> S -> outcome S)
  (s : S) : outcome S :=
  for_loop (Z.to_nat count) 0%Z body s.

(** Compiled-in configuration (lines 78-90, 97). *)
Definition r_entrance : Q := 195 # 10.
Definition r_pupil : Q := r_entrance.
Definition num_lambdas : Z := 12.
Definition sensor_width : Q := 36.
Definition sensor_xres : Z := 1920.
Definition sensor_yres : Z := 1080.
Definition sensor_scaling : Q := inject_Z sensor_xres / sensor_width.
Definition lambda_from : Q := 440.
Definition lambda_to : Q := 660.

(** [RAND_MAX] of the C library ([stdlib.h]); the GNU value. *)
Definition RAND_MAX : Z := 2147483647.

(** [rand() / (float)RAND_MAX] *)
Definition unit_rand (r : Z) : Q := inject_Z r / inject_Z RAND_MAX.

(** [(rand() / (float)RAND_MAX - 0.5) * 2 * r_pupil] *)
Definition aperture_coord (r_pupil : Q) (r : Z) : Q :=
  (unit_rand r - (1 # 2)) * 2 * r_pupil.

(** The acceptance test of line 196, negated: the loop goes on while
    [x_ap * x_ap + y_ap * y_ap > r_pupil * r_pupil]. *)
Definition rejected (r_pupil x_ap y_ap : Q) : bool :=
  Qltb (r_pupil * r_pupil) (x_ap * x_ap + y_ap * y_ap).

(** Lines 193-196, the rejection loop.  [rng k] is what the [k]-th call of
    [rand()] returns and [pos] counts the calls made so far.  The loop has no
    bound of its own, so each pass costs one unit of [fuel]. *)
Fixpoint sample_aperture (fuel : nat) (rng : nat -> Z) (r_pupil : Q) (pos : nat)
  : outcome (Q * Q * nat) :=
  match fuel with
  | O => OutOfFuel
  | S fuel' =>
      let x_ap := aperture_coord r_pupil (rng pos) in
      let y_ap := aperture_coord r_pupil (rng (S pos)) in
      if rejected r_pupil x_ap y_ap
      then sample_aperture fuel' rng r_pupil (S (S pos))
      else Done (x_ap, y_ap, S (S pos))
  end.

(** [lambda] of bin [ll] (lines 122-126 and 151-154). *)
Definition lambda_of (ll : Z) : Q :=
  if (num_lambdas =? 1)%Z then 550
  else lambda_from
       + (lambda_to - lambda_from) * (inject_Z ll / inject_Z (num_lambdas - 1)).

(** One evaluated sample, kept for the record: what went into the transform
    and what was splatted where. *)
Record sample : Type := mkSample {
  s_x_ap : Q;
  s_y_ap : Q;
  s_weight : Q;
  s_lambert : Q;
  s_rgb : Q * Q * Q;
  s_out0 : Q;
  s_out1 : Q
}.

(** The renderer's state: the calls of [rand()] made, the output image, and
    (a ghost of the model, the program has no such variable) the samples
    splatted so far, latest first. *)
Record state : Type := mkState {
  rng_pos : nat;
  img_out : CImg;
  history : list sample
}.

(** The three [set_linear_atXY(..., true)] calls of lines 217-219. *)
Definition splat (s : sample) (img : CImg) : CImg :=
  let '(r, g, b) := s_rgb s in
  set_linear_atXY (s_lambert s * s_weight s * b) (s_out0 s) (s_out1 s) 2%Z true
    (set_linear_atXY (s_lambert s * s_weight s * g) (s_out0 s) (s_out1 s) 1%Z true
       (set_linear_atXY (s_lambert s * s_weight s * r) (s_out0 s) (s_out1 s) 0%Z true
          img)).

Section Renderer.

(** The sequence [rand()] returns. *)
Variable rng : nat -> Z.
(** The input image: its size and [img_in.linear_atXY(i, j, 0, c, 0)]. *)
Variable width height : Z.
Variable img_in : Z -> Z -> Z -> Q.
(** The spectrum collaborator ([include/spectrum.h]):
    [spectrum_p_to_rgb(lambda, p, rgb)] and [spectrum_rgb_to_p(lambda, rgb)]. *)
Variable spectrum_p_to_rgb : Q -> Q -> Q * Q * Q.
Variable spectrum_rgb_to_p : Q -> Q * Q * Q -> Q.
(** What the compositor hands over. *)
Variable magnification : Q.
Variable system_lambert_cos2 : TruncPolySystem.
(** The falloff of lines 211-215, a square root: see [Binary32.lambert]. *)
Variable lambert : Q -> Q.

(** [rgb + 3 * ll] of the precomputed table (lines 119-130). *)
Definition rgb (ll : Z) : Q * Q * Q := spectrum_p_to_rgb (lambda_of ll) 1.

(** [float pixel_size = sensor_width/(float)width/magnification;] *)
Definition pixel_size : Q := sensor_width / inject_Z width / magnification.

(** Lines 189-221, one pass of the sample loop. *)
Definition sample_body (fuel : nat) (ll : Z) (system_y : TruncPolySystem)
  (x_world sample_weight : Q) (st : state) : outcome state :=
  bind (sample_aperture fuel rng r_pupil (rng_pos st))
    (fun '(x_ap, y_ap, pos) =>
       let in0 := x_world + pixel_size * (unit_rand (rng pos) - (1 # 2)) in
       let out := evaluate system_y [in0; x_ap; y_ap] in
       let out0 := nth 0 out 0 * sensor_scaling + inject_Z (sensor_xres ÷ 2) in
       let out1 := nth 1 out 0 * sensor_scaling + inject_Z (sensor_yres ÷ 2) in
       let s := mkSample x_ap y_ap sample_weight (lambert (nth 2 out 0))
                         (rgb ll) out0 out1 in
       Done (mkState (S pos) (splat s (img_out st)) (s :: history st))).

(** Lines 171-222, one pass of the column loop. *)
Definition pixel_body (fuel : nat) (ll : Z) (system_y : TruncPolySystem)
  (j i : Z) (st : state) : outcome state :=
  let x_sensor := (inject_Z i / inject_Z width - (1 # 2)) * sensor_width in
  let x_world := x_sensor / magnification in
  let rgbin := (img_in i j 0%Z, img_in i j 1%Z, img_in i j 2%Z) in
  let L_in := spectrum_rgb_to_p (lambda_of ll) rgbin in
  match num_samples L_in sample_mul with
  | None => Undefined
  | Some n =>
      for_range n
        (fun _ => sample_body fuel ll system_y x_world (sample_weight L_in n)) st
  end.

(** Lines 163-223, one pass of the row loop. *)
Definition row_body (fuel : nat) (ll : Z) (system_lambda : TruncPolySystem)
  (j : Z) (st : state) : outcome state :=
  let y_world := Geometry.y_world j height width sensor_width magnification in
  let system_y := bake_input_variable 1 y_world system_lambda in
  for_range width (pixel_body fuel ll system_y j) st.

(** Lines 150-224, one pass of the wavelength loop. *)
Definition bin_body (fuel : nat) (ll : Z) (st : state) : outcome state :=
  let system_lambda :=
    trunc_system Optics.degree
      (bake_input_variable 4 (lambda_of ll) system_lambert_cos2) in
  for_range height (row_body fuel ll system_lambda) st.

(** [CImg<float> img_out(sensor_xres, sensor_yres, 1, 3, 0);] *)
Definition initial_state : state :=
  mkState O (filled sensor_xres sensor_yres 3 0) [].

(** The Monte Carlo pass, lines 150-224. *)
Definition monte_carlo (fuel : nat) : outcome state :=
  for_range num_lambdas (bin_body fuel) initial_state.

(** The whole rendering: the Monte Carlo pass, then the gamut pass. *)
Definition render (fuel : nat) : outcome CImg :=
  bind (monte_carlo fuel)
       (fun st => Done (gamut_pass sensor_xres sensor_yres (img_out st))).

End Renderer.

(** What sample [s] adds to sample [(x, y, c)] of the image: its value for
    the channel times the bilinear weight of the corner, nothing elsewhere. *)
Definition bilinear_weight (fx fy : Q) (x y : Z) : Q :=
  let x0 := Qfloor fx in
  let y0 := Qfloor fy in
  let dx := fx - inject_Z x0 in
  let dy := fy - inject_Z y0 in
  (if (x =? x0)%Z then 1 - dx else if (x =? x0 + 1)%Z then dx else 0)
  * (if (y =? y0)%Z then 1 - dy else if (y =? y0 + 1)%Z then dy else 0).

Definition channel_value (s : sample) (c : Z) : Q :=
  let '(r, g, b) := s_rgb s in
  s_lambert s * s_weight s
  * (if (c =? 0)%Z then r else if (c =? 1)%Z then g else if (c =? 2)%Z then b else 0).

Definition contribution (img : CImg) (s : sample) (x y c : Z) : Q :=
  if inside img x y c
  then bilinear_weight (s_out0 s) (s_out1 s) x y * channel_value s c
  else 0.

Fixpoint total_contribution (img : CImg) (h : list sample) (x y c : Z) : Q :=
  match h with
  | [] => 0
  | s :: h' => contribution img s x y c + total_contribution img h' x y c
  end.

(** The image holds, in every sample, the sum of what the recorded samples
    deposited there. *)
Definition accumulated (st : state) : Prop :=
  forall x y c : Z,
    data (img_out st) x y c ==
    total_contribution (img_out st) (history st) x y c.

(** The weights of a list of samples, summed. *)
Fixpoint total_weight (h : list sample) : Q :=
  match h with
  | [] => 0
  | s :: h' => s_weight s + total_weight h'
  end.

(** The aperture point of a sample lies in the disk of radius [r_pupil]. *)
Definition inside_aperture (s : sample) : Prop :=
  s_x_ap s * s_x_ap s + s_y_ap s * s_y_ap s <= r_pupil * r_pupil.

(** The [k]-th pair of candidates drawn from position [pos] on is accepted. *)
Definition accepted_at (rng : nat -> Z) (r_pupil : Q) (pos k : nat) : Prop :=
  rejected r_pupil (aperture_coord r_pupil (rng (pos + 2 * k)%nat))
                   (aperture_coord r_pupil (rng (S (pos + 2 * k)))) = false.

(** A loop body keeps [I]: from a state with [I], a completed pass ends in
    a state with [I]. *)
Definition preserves {S : Type} (I : S -> Prop) (body : S -> outcome S) : Prop :=
  forall s s' : S, I s -> body s = Done s' -> I s'.

(** More fuel does not change a run that had enough. *)
Definition monotone {S : Type} (run : nat -> outcome S) : Prop :=
  forall f f' : nat, (f <= f')%nat -> run f <> OutOfFuel -> run f' = run f.

(** Some amount of fuel is enough: the program terminates. *)
Definition terminates {S : Type} (run : nat -> outcome S) : Prop :=
  exists f : nat, run f <> OutOfFuel.

Definition is_done {S : Type} (m : outcome S) : bool :=
  match m with
  | Done _ => true
  | _ => false
  end.

(** A run that no amount of fuel completes: the program does not
    terminate. *)
Definition diverges {S : Type} (run : nat -> outcome S) : Prop :=
  forall fuel : nat, run fuel = OutOfFuel.

(** [lambda] of bin [ll] when there are [num_lambdas] bins (lines 122-126
    and 151-154 with [num_lambdas] left open). *)
Definition lambda_bin (num_lambdas ll : Z) : Q :=
  if (num_lambdas =? 1)%Z then 550
  else lambda_from
       + (lambda_to - lambda_from) * (inject_Z ll / inject_Z (num_lambdas - 1)).

(** [in[0] = x_world + pixel_size * (rand()/(float)RAND_MAX - 0.5);] *)
Definition jittered (x_world pixel_size : Q) (r : Z) : Q :=
  x_world + pixel_size * (unit_rand r - (1 # 2)).

(** [out[0] = out[0] * sensor_scaling + sensor_xres/2;
     out[1] = out[1] * sensor_scaling + sensor_yres/2;] *)
Definition to_pixel_x (out0 : Q) : Q :=
  out0 * sensor_scaling + inject_Z (sensor_xres ÷ 2).

Definition to_pixel_y (out1 : Q) : Q :=
  out1 * sensor_scaling + inject_Z (sensor_yres ÷ 2).

End Render.

(** ** The same scalar code on IEEE single precision

    The falloff and the gamut floor once more, on the [float] of the
    machine: binary32 as specified by [SpecFloat], precision 24 and
    exponent bound 128, with its rounding, infinities and not-a-number. *)

Module Binary32.

Definition prec : Z := 24.
Definition emax : Z := 128.

Definition float : Type := spec_float.

(** [(float)z] for an [int] constant. *)
Definition of_int (z : Z) : float := binary_normalize prec emax z 0 false.

Definition fsub : float -> float -> float := SFsub prec emax.
Definition fmul : float -> float -> float := SFmul prec emax.
Definition fsqrt : float -> float := SFsqrt prec emax.
Definition flt : float -> float -> bool := SFltb.
Definition fneq (a b : float) : bool := negb (SFeqb a b).

(** [float lambert = sqrt(1 - out[2]);
     if (lambert != lambert) lambert = 0;] *)
Definition lambert (out2 : float) : float :=
  let l := fsqrt (fsub (of_int 1) out2) in
  if fneq l l then of_int 0 else l.

(** [std::max]: [(a < b) ? b : a]. *)
Definition fmax (a b : float) : float := if flt a b then b else a.

(** [0.02f], the binary32 number nearest to 0.02: 10737418 * 2^-29. *)
Definition gamut_floor : float := S754_finite false 10737418 (-29).

(** Lines 230-236 on the three channels of one pixel. *)
Definition gamut_channels (p : float * float * float) : float * float * float :=
  let '(c0, c1, c2) := p in
  let max_value := fmax c0 (fmax c1 c2) in
  (fmax c0 (fmul gamut_floor max_value),
   fmax c1 (fmul gamut_floor max_value),
   fmax c2 (fmul gamut_floor max_value)).

(** The integer part of a float, [num / den] before it is rounded: a
    finite [m * 2^e] is [m * 2^e / 1] or [m / 2^-e]. *)
Definition as_fraction (x : float) : option (Z * Z) :=
  match x with
  | S754_zero _ => Some (0, 1)%Z
  | S754_finite s m e =>
      Some (cond_Zopp s (Zpos m) * 2 ^ Z.max e 0, 2 ^ Z.max (- e) 0)%Z
  | _ => None
  end.

(** [(int)x]: rounded toward zero; no result for infinities, not-a-number
    and values that do not fit. *)
Definition int_of_float (x : float) : option Z :=
  match as_fraction x with
  | Some (num, den) =>
      let z := Z.quot num den in
      if CInt.representable z then Some z else None
  | None => None
  end.

(** [floor(x)] as an integer. *)
Definition ffloor (x : float) : option Z :=
  match as_fraction x with
  | Some (num, den) => Some (num / den)%Z
  | None => None
  end.

(** [int num_samples = max(1, (int)(L_in * sample_mul));] *)
Definition num_samples (L_in sample_mul : float) : option Z :=
  option_map (CInt.max 1) (int_of_float (fmul L_in sample_mul)).

(** [float sample_mul = 1000;] *)
Definition sample_mul : float := of_int 1000.

Definition fdiv : float -> float -> float := SFdiv prec emax.

(** [float sample_weight = L_in / num_samples;] with the count converted to
    [float] for the division. *)
Definition sample_weight (L_in : float) (num_samples : Z) : float :=
  fdiv L_in (of_int num_samples).

(** [rand() / (float)RAND_MAX]: both operands converted to [float], so
    the divisor is [RAND_MAX] rounded to single precision, 2^31. *)
Definition unit_rand (r : Z) : float :=
  fdiv (of_int r) (of_int 2147483647).

(** Zero, a negative number or minus infinity. *)
Definition not_positive (a : float) : bool :=
  match a with
  | S754_zero _ | S754_finite true _ _ | S754_infinity true => true
  | _ => false
  end.

(** Neither a negative number nor minus infinity. *)
Definition not_negative (a : float) : bool :=
  match a with
  | S754_finite true _ _ | S754_infinity true => false
  | _ => true
  end.

(** Whether a shift has dropped a bit that was set. *)
Definition inexact (mrs : shr_record) : bool := shr_r mrs || shr_s mrs.

(** What a rounding location stands for above its mantissa: nothing when
    exact, less than one unit otherwise. *)
Definition loc_excess (l : location) : Z :=
  match l with loc_Exact => 0%Z | loc_Inexact _ => 1%Z end.

(** [r] is a zero, or a positive [m * 2^e] with [m * 2^e <= bm * 2^be]
    written on an exponent that is not above [be]. *)
Definition value_le (r : float) (bm : positive) (be : Z) : Prop :=
  match r with
  | S754_zero _ => True
  | S754_finite false m e =>
      (e <= be)%Z /\ (Z.pos m <= Z.pos bm * 2 ^ (be - e))%Z
  | _ => False
  end.

(** A zero or a positive value that is at most [1.0f = 8388608 * 2^-23]. *)
Definition at_most_one (r : float) : Prop := value_le r 8388608 (-23).

(** What [1 - x] can be for an [x] that is not negative: not-a-number, a
    value with the sign bit set, a zero, or a positive value at most one. *)
Definition below_or_negative (r : float) : Prop :=
  match r with
  | S754_nan | S754_zero _ | S754_infinity true | S754_finite true _ _ => True
  | S754_finite false _ _ => at_most_one r
  | S754_infinity false => False
  end.

(** A zero of either sign. *)
Definition is_zero (a : float) : bool :=
  match a with
  | S754_zero _ => true
  | _ => false
  end.

(** The rational a finite float stands for; 0 for the infinities and
    not-a-number, which no defined sample count goes with. *)
Definition to_Q (x : float) : Q :=
  match x with
  | S754_finite s m e => inject_Z (cond_Zopp s (Zpos m)) * Qpower 2 e
  | _ => 0
  end.

End Binary32.

(** ** The falloff and the sample loop of one pixel on the machine's
       numbers (lines 183-221) *)

Module Pixel.

(** The falloff as [main] hands it to the splat (lines 211-215): [out[2]]
    is the single-precision number the evaluation delivers, [float_of] of
    the rational the polynomial stands for, and the falloff is computed on
    it by [Binary32.lambert].  An infinite falloff, which the angle term
    minus infinity gives, has no rational and is read as 0. *)
Definition lambert (float_of : Q -> Binary32.float) (out2 : Q) : Q :=
  Binary32.to_Q (Binary32.lambert (float_of out2)).

Section Samples.

Variable rng : nat -> Z.
Variable width : Z.
Variable spectrum_p_to_rgb : Q -> Q -> Q * Q * Q.
Variable magnification : Q.
Variable lambert : Q -> Q.

(** [int num_samples = max(1, (int)(L_in * sample_mul));
     float sample_weight = L_in / num_samples;
     for (int sample = 0; sample < num_samples; ++sample) { ... }]
    for a pixel whose power [L_in] is a binary32 value.  The count is the
    machine's: the product is rounded to single precision before it is
    converted.  The weight is the exact quotient (the machine rounds it to
    single precision). *)
Definition sample_loop (fuel : nat) (ll : Z) (system_y : Poly.TruncPolySystem)
  (x_world : Q) (L_in : Binary32.float) (st : Render.state)
  : Render.outcome Render.state :=
  match Binary32.num_samples L_in Binary32.sample_mul with
  | None => Render.Undefined
  | Some num_samples =>
      let sample_weight :=
        Sampling.sample_weight (Binary32.to_Q L_in) num_samples in
      Render.for_range num_samples
        (fun _ =>
           Render.sample_body rng width spectrum_p_to_rgb magnification lambert
             fuel ll system_y x_world sample_weight) st
  end.

End Samples.

End Pixel.

(** ** The program

    [main], with its collaborators as parameters: the compositor's
    magnification and rearranged transform feed the renderer. *)

Module Program.

Section Main.

Variable two_plane_5 : Q -> nat -> Poly.TruncPolySystem.
Variable refract_spherical_5 : Q -> Q -> Q -> nat -> Poly.TruncPolySystem.
Variable propagate_5 : Q -> nat -> Poly.TruncPolySystem.
Variable compose :
  Poly.TruncPolySystem -> Poly.TruncPolySystem -> Poly.TruncPolySystem.
Variable glass1_index glass2_index : Q -> Q.
Variable find_focus_X : Poly.TruncPolySystem -> Q.
Variable get_magnification_X : Poly.TruncPolySystem -> Q.
Variable propagate_default_degree : nat.
Variable rng : nat -> Z.
Variable width height : Z.
Variable img_in : Z -> Z -> Z -> Q.
Variable spectrum_p_to_rgb : Q -> Q -> Q * Q * Q.
Variable spectrum_rgb_to_p : Q -> Q * Q * Q -> Q.
(** How the evaluation delivers [out[2]] as a [float]. *)
Variable float_of : Q -> Binary32.float.

Definition main (fuel : nat) : Render.outcome Image.CImg :=
  let magnification :=
    Optics.magnification two_plane_5 refract_spherical_5 propagate_5 compose
      glass1_index glass2_index find_focus_X get_magnification_X
      propagate_default_degree in
  let system_lambert_cos2 :=
    Optics.system_lambert_cos2
      (Optics.system_spectral two_plane_5 refract_spherical_5 propagate_5
         compose glass1_index glass2_index find_focus_X) in
  Render.render rng width height img_in spectrum_p_to_rgb spectrum_rgb_to_p
    magnification system_lambert_cos2 (Pixel.lambert float_of) fuel.

End Main.

End Program.

(** ** Small instances to run the definitions on *)

(** A one-equation stand-in for the optical elements, to run the
    compositor on: every refraction contributes [n2 * x0], composition adds
    the equations, so the system for wavelength [lambda] is
    [(lambda/100 + 1) * x0]. *)
Definition example_refract (R n1 n2 : Q) (degree : nat) : Poly.TruncPolySystem :=
  [[Poly.mkTerm n2 [1%nat]]].

Definition example_flat (d : Q) (degree : nat) : Poly.TruncPolySystem := [[]].

Definition example_compose (a b : Poly.TruncPolySystem) : Poly.TruncPolySystem :=
  match a, b with
  | [p], [q] => [Poly.poly_add p q]
  | _, _ => a
  end.

Definition example_index1 (lambda : Q) : Q := lambda / 100.
Definition example_index2 (lambda : Q) : Q := 0.
Definition example_focus (sys : Poly.TruncPolySystem) : Q := 0.

(** A system whose third equation is [x0 + x0*x4], the shape the
    interpolation produces: a ray term and its wavelength-dependent part. *)
Definition example_spread : Poly.TruncPolySystem :=
  [ []; [];
    [Poly.mkTerm 1 [1; 0; 0; 0; 0]%nat; Poly.mkTerm 1 [1; 0; 0; 0; 1]%nat];
    [] ].

(** A one-pixel input image of radiance [v] in every channel, a spectrum
    collaborator that reads the red channel as power and spreads power
    evenly over the channels, unit magnification, and a transform whose
    outputs are the world position and the squared aperture radius over
    1000. *)
Definition example_img_in (v : Q) (i j c : Z) : Q := v.
Definition example_p_to_rgb (lambda p : Q) : Q * Q * Q := (p, p, p).
Definition example_rgb_to_p (lambda : Q) (rgb : Q * Q * Q) : Q := fst (fst rgb).
Definition example_system : Poly.TruncPolySystem :=
  [ [Poly.mkTerm 1 [1; 0; 0; 0; 0]%nat];
    [Poly.mkTerm 1 [0; 1; 0; 0; 0]%nat];
    [Poly.mkTerm (1 # 1000) [0; 0; 2; 0; 0]%nat;
     Poly.mkTerm (1 # 1000) [0; 0; 0; 2; 0]%nat] ].
Definition example_lambert (out2 : Q) : Q := 1 - out2 / 2.

(** Two sequences for [rand()]: the constant in the middle of the range,
    which puts every candidate at the centre of the aperture, and the
    constant 0, which puts every candidate in a corner of the square. *)
Definition example_rng_centre (k : nat) : Z := 1073741824.
Definition example_rng_zero (k : nat) : Z := 0.

Abbreviation example_monte_carlo rng v fuel :=
  (Render.monte_carlo rng 1 1 (example_img_in v) example_p_to_rgb
     example_rgb_to_p 1 example_system example_lambert fuel).

Abbreviation example_render rng v fuel :=
  (Render.render rng 1 1 (example_img_in v) example_p_to_rgb
     example_rgb_to_p 1 example_system example_lambert fuel).

(** ** Facts on conversions and comparisons *)

Lemma Qltb_lt (a b : Q) : Qltb a b = true <-> a < b.
Proof.
  unfold Qltb. rewrite negb_true_iff.
  split; intro H.
  - apply Qnot_le_lt. intro Hle. apply Qle_bool_iff in Hle. congruence.
  - destruct (Qle_bool b a) eqn:E; [|reflexivity].
    apply Qle_bool_iff in E. exfalso. apply (Qlt_not_le _ _ H E).
Qed.

Lemma Qltb_ge (a b : Q) : Qltb a b = false <-> b <= a.
Proof.
  unfold Qltb. rewrite negb_false_iff. apply Qle_bool_iff.
Qed.

Lemma cmax_spec (a b : Z) : CInt.max a b = Z.max a b.
Proof.
  unfold CInt.max. destruct (Z.ltb_spec a b); lia.
Qed.

(** Truncation and floor agree on non-negative values and truncation is
    never below the floor. *)
Lemma Qtrunc_nonneg (x : Q) : 0 <= x -> CInt.Qtrunc x = Qfloor x.
Proof.
  destruct x as [n d]. unfold Qle, CInt.Qtrunc, Qfloor. simpl.
  intro H. rewrite Z.mul_1_r in H.
  apply Z.quot_div_nonneg; lia.
Qed.

Lemma Qtrunc_neg (x : Q) : x < 0 -> (CInt.Qtrunc x <= 0)%Z.
Proof.
  destruct x as [n d]. unfold Qlt, CInt.Qtrunc. simpl.
  intro H. rewrite Z.mul_1_r in H.
  pose proof (Z.quot_opp_l (-n) (Zpos d)) as Ho.
  assert (Hd : (Zpos d <> 0)%Z) by lia.
  specialize (Ho Hd). rewrite Z.opp_involutive in Ho. rewrite Ho.
  assert (0 <= (- n) ÷ Zpos d)%Z by (apply Z.quot_pos; lia).
  lia.
Qed.

Lemma Qfloor_neg (x : Q) : x < 0 -> (Qfloor x < 0)%Z.
Proof.
  intro H.
  assert (Hle : inject_Z (Qfloor x) <= x) by apply Qfloor_le.
  assert (Hlt : inject_Z (Qfloor x) < 0) by (eapply Qle_lt_trans; eauto).
  unfold Qlt in Hlt. simpl in Hlt. lia.
Qed.

(** [max(1, (int)x)] is [max(1, floor x)] for every [x]: below 1 both sides
    are 1, from 1 on truncation is the floor. *)
Lemma max1_trunc_floor (x : Q) :
  CInt.max 1 (CInt.Qtrunc x) = Z.max 1 (Qfloor x).
Proof.
  rewrite cmax_spec.
  destruct (Qlt_le_dec x 0) as [Hneg|Hpos].
  - pose proof (Qtrunc_neg x Hneg). pose proof (Qfloor_neg x Hneg). lia.
  - rewrite (Qtrunc_nonneg x Hpos). reflexivity.
Qed.

(** ** Sample count and sample weight *)

Lemma num_samples_defined (p m : Q) :
  CInt.representable (CInt.Qtrunc (p * m)) = true ->
  Sampling.num_samples p m = Some (Z.max 1 (Qfloor (p * m))).
Proof.
  intro H. unfold Sampling.num_samples, CInt.int_of_float.
  rewrite H. simpl. rewrite max1_trunc_floor. reflexivity.
Qed.

Lemma weight_times_count (p : Q) (n : Z) :
  (1 <= n)%Z -> Sampling.sample_weight p n * inject_Z n == p.
Proof.
  intro H. unfold Sampling.sample_weight.
  assert (Hn : ~ inject_Z n == 0).
  { unfold Qeq. simpl. lia. }
  field. exact Hn.
Qed.

(** ** World coordinates of a row *)

Lemma y_world_closed_form (j height width : Z) (sensor_width magnification : Q) :
  Geometry.y_world j height width sensor_width magnification ==
  inject_Z (j - height ÷ 2) * (sensor_width / inject_Z width) / magnification.
Proof.
  unfold Geometry.y_world, Geometry.y_sensor, Qdiv. ring.
Qed.

(** C6, the claim as stated fails: two input images of 100 by 100 and of
    200 by 200 pixels put the same row index, the same sensor (36 wide, 36
    high) and the same magnification into different world-y values, so the
    value is no function of row, sensor height and magnification alone. *)
Lemma y_world_not_from_sensor_height :
  Geometry.sensor_height 100 100 36 == Geometry.sensor_height 200 200 36 /\
  ~ Geometry.y_world 10 100 100 36 1 == Geometry.y_world 10 200 200 36 1.
Proof.
  split.
  - reflexivity.
  - intro H. vm_compute in H. discriminate H.
Qed.

(** C6, amended: the world-y of row [j] is computed from the row index,
    the input image's pixel height and pixel width, the sensor's physical
    width and the magnification: it is the row's offset from the middle row
    [height/2], times the pixel pitch [sensor_width/width], over the
    magnification; consecutive rows lie one pitch over the magnification
    apart, and the middle row lies at 0. *)
Theorem y_world_from_row_and_pitch
  (j height width : Z) (sensor_width magnification : Q) :
  Geometry.y_world j height width sensor_width magnification ==
    inject_Z (j - height ÷ 2) * (sensor_width / inject_Z width) / magnification
  /\ Geometry.y_world (j + 1) height width sensor_width magnification
     - Geometry.y_world j height width sensor_width magnification ==
     sensor_width / inject_Z width / magnification
  /\ Geometry.y_world (height ÷ 2) height width sensor_width magnification == 0.
Proof.
  split; [apply y_world_closed_form|]. split.
  - rewrite !y_world_closed_form.
    replace (j + 1 - height ÷ 2)%Z with ((j - height ÷ 2) + 1)%Z by ring.
    rewrite inject_Z_plus. unfold Qdiv. ring.
  - rewrite y_world_closed_form. rewrite Z.sub_diag. unfold Qdiv. ring.
Qed.

(** ** The gamut pass *)

Lemma fmax_ge_r (a b : Q) : b <= fmax a b.
Proof.
  unfold fmax. destruct (Qltb a b) eqn:E.
  - apply Qle_refl.
  - apply Qltb_ge in E. exact E.
Qed.

Lemma fmax_ge_l (a b : Q) : a <= fmax a b.
Proof.
  unfold fmax. destruct (Qltb a b) eqn:E.
  - apply Qltb_lt in E. apply Qlt_le_weak. exact E.
  - apply Qle_refl.
Qed.

Lemma fmax_cases (a b : Q) :
  (a < b /\ fmax a b = b) \/ (b <= a /\ fmax a b = a).
Proof.
  unfold fmax. destruct (Qltb a b) eqn:E.
  - left. split; [apply Qltb_lt; exact E|reflexivity].
  - right. split; [apply Qltb_ge; exact E|reflexivity].
Qed.

Lemma max_channel_bounds (c0 c1 c2 : Q) :
  let m := Image.max_channel (c0, c1, c2) in
  c0 <= m /\ c1 <= m /\ c2 <= m /\ (m = c0 \/ m = c1 \/ m = c2).
Proof.
  unfold Image.max_channel. cbv zeta.
  pose proof (fmax_ge_l c1 c2) as H1.
  pose proof (fmax_ge_r c1 c2) as H2.
  pose proof (fmax_ge_l c0 (fmax c1 c2)) as H3.
  pose proof (fmax_ge_r c0 (fmax c1 c2)) as H4.
  split; [exact H3|]. split; [lqa|]. split; [lqa|].
  destruct (fmax_cases c0 (fmax c1 c2)) as [[_ E]|[_ E]]; rewrite E.
  - destruct (fmax_cases c1 c2) as [[_ E']|[_ E']]; rewrite E'; auto.
  - auto.
Qed.

Lemma max_channel_le (p : Q * Q * Q) (m : Q) :
  fst (fst p) <= m -> snd (fst p) <= m -> snd p <= m ->
  Image.max_channel p <= m.
Proof.
  destruct p as [[c0 c1] c2]. simpl fst; simpl snd. intros H0 H1 H2.
  destruct (max_channel_bounds c0 c1 c2) as (_ & _ & _ & [E|[E|E]]);
    rewrite E; assumption.
Qed.

(** The floor is reached in every channel, measured against the maximum the
    pixel had before the pass. *)
Lemma gamut_channels_floor (c0 c1 c2 : Q) :
  let m := Image.max_channel (c0, c1, c2) in
  let after := Image.gamut_channels (c0, c1, c2) in
  Image.gamut_floor * m <= fst (fst after) /\
  Image.gamut_floor * m <= snd (fst after) /\
  Image.gamut_floor * m <= snd after.
Proof.
  cbv zeta. unfold Image.gamut_channels. simpl fst; simpl snd.
  repeat split; apply fmax_ge_r.
Qed.

(** A maximum that is not negative is left as it is. *)
Lemma gamut_channels_max_kept (c0 c1 c2 : Q) :
  let m := Image.max_channel (c0, c1, c2) in
  0 <= m -> Image.max_channel (Image.gamut_channels (c0, c1, c2)) == m.
Proof.
  cbv zeta. intro Hm.
  destruct (max_channel_bounds c0 c1 c2) as (H0 & H1 & H2 & Hsome).
  cbv zeta in H0, H1, H2, Hsome.
  set (m := Image.max_channel (c0, c1, c2)) in *.
  assert (Hf : Image.gamut_floor * m <= m).
  { unfold Image.gamut_floor.
    assert (E : (2 # 100) * m == m - (98 # 100) * m) by ring.
    rewrite E. assert (0 <= (98 # 100) * m) by nqa. lqa. }
  unfold Image.gamut_channels. fold m.
  assert (U0 : fmax c0 (Image.gamut_floor * m) <= m).
  { destruct (fmax_cases c0 (Image.gamut_floor * m)) as [[_ E]|[_ E]];
      rewrite E; assumption. }
  assert (U1 : fmax c1 (Image.gamut_floor * m) <= m).
  { destruct (fmax_cases c1 (Image.gamut_floor * m)) as [[_ E]|[_ E]];
      rewrite E; assumption. }
  assert (U2 : fmax c2 (Image.gamut_floor * m) <= m).
  { destruct (fmax_cases c2 (Image.gamut_floor * m)) as [[_ E]|[_ E]];
      rewrite E; assumption. }
  apply Qle_antisym.
  - apply max_channel_le; simpl; assumption.
  - pose proof (max_channel_bounds (fmax c0 (Image.gamut_floor * m))
                  (fmax c1 (Image.gamut_floor * m))
                  (fmax c2 (Image.gamut_floor * m))) as (G0 & G1 & G2 & _).
    cbv zeta in G0, G1, G2.
    destruct Hsome as [E|[E|E]].
    + eapply Qle_trans; [|exact G0]. rewrite E at 1. apply fmax_ge_l.
    + eapply Qle_trans; [|exact G1]. rewrite E at 1. apply fmax_ge_l.
    + eapply Qle_trans; [|exact G2]. rewrite E at 1. apply fmax_ge_l.
Qed.

(** A negative maximum is raised: every channel ends at the floor, which
    lies above the old maximum. *)
Lemma gamut_channels_max_raised (c0 c1 c2 : Q) :
  let m := Image.max_channel (c0, c1, c2) in
  m < 0 ->
  Image.gamut_channels (c0, c1, c2) =
    (Image.gamut_floor * m, Image.gamut_floor * m, Image.gamut_floor * m)
  /\ m < Image.gamut_floor * m.
Proof.
  cbv zeta. intro Hm.
  destruct (max_channel_bounds c0 c1 c2) as (H0 & H1 & H2 & _).
  cbv zeta in H0, H1, H2.
  set (m := Image.max_channel (c0, c1, c2)) in *.
  assert (Hf : m < Image.gamut_floor * m).
  { unfold Image.gamut_floor.
    assert (E : (2 # 100) * m == m - (98 # 100) * m) by ring.
    rewrite E. assert ((98 # 100) * m < 0) by nqa. lqa. }
  split; [|exact Hf].
  unfold Image.gamut_channels. fold m.
  assert (F : forall c, c <= m -> fmax c (Image.gamut_floor * m) = Image.gamut_floor * m).
  { intros c Hc. destruct (fmax_cases c (Image.gamut_floor * m)) as [[_ E]|[Hle _]].
    - exact E.
    - exfalso. lqa. }
  rewrite (F c0 H0), (F c1 H1), (F c2 H2). reflexivity.
Qed.

Lemma data_store (img : Image.CImg) (x y c : Z) (v : Q) (x' y' c' : Z) :
  Image.data (Image.store img x y c v) x' y' c' =
  if Image.same_cell x y c x' y' c' then v else Image.data img x' y' c'.
Proof. reflexivity. Qed.

Lemma same_cell_refl (x y c : Z) : Image.same_cell x y c x y c = true.
Proof. unfold Image.same_cell. rewrite !Z.eqb_refl. reflexivity. Qed.

Lemma same_cell_other_channel (x y c c' : Z) :
  c' <> c -> Image.same_cell x y c x y c' = false.
Proof.
  intro H. unfold Image.same_cell. rewrite !Z.eqb_refl.
  apply Z.eqb_neq in H. rewrite H. reflexivity.
Qed.

Lemma same_cell_other_pixel (x y c x' y' c' : Z) :
  (x', y') <> (x, y) -> Image.same_cell x y c x' y' c' = false.
Proof.
  intro H. unfold Image.same_cell.
  destruct (Z.eqb_spec x' x) as [-> |]; [|reflexivity].
  destruct (Z.eqb_spec y' y) as [-> |]; [|reflexivity].
  exfalso. apply H. reflexivity.
Qed.

(** The loop body on pixel [(i, j)] computes the three floored channels from
    the pixel's own old channels. *)
Lemma gamut_pixel_channels (img : Image.CImg) (i j : Z) :
  Image.channels (Image.gamut_pixel img i j) i j =
  Image.gamut_channels (Image.channels img i j).
Proof.
  unfold Image.gamut_pixel, Image.channels, Image.gamut_channels.
  rewrite !data_store.
  rewrite !same_cell_refl.
  rewrite !same_cell_other_channel by discriminate.
  reflexivity.
Qed.

(** It leaves every other pixel alone. *)
Lemma gamut_pixel_frame (img : Image.CImg) (i j x y c : Z) :
  (x, y) <> (i, j) ->
  Image.data (Image.gamut_pixel img i j) x y c = Image.data img x y c.
Proof.
  intro H. unfold Image.gamut_pixel.
  rewrite !data_store.
  rewrite !same_cell_other_pixel by exact H.
  reflexivity.
Qed.

(** What it writes depends on the pixel's own samples only. *)
Lemma gamut_pixel_local (img img' : Image.CImg) (i j : Z) :
  (forall c, Image.data img' i j c = Image.data img i j c) ->
  forall c, Image.data (Image.gamut_pixel img' i j) i j c =
            Image.data (Image.gamut_pixel img i j) i j c.
Proof.
  intros H c. unfold Image.gamut_pixel, Image.channels.
  rewrite !data_store. rewrite !H.
  destruct (Image.same_cell i j 2 i j c); [reflexivity|].
  destruct (Image.same_cell i j 1 i j c).
  - destruct (Image.same_cell i j 0 i j 1); reflexivity.
  - destruct (Image.same_cell i j 0 i j c); reflexivity.
Qed.

(** The inner loop of the gamut pass, over the columns [i0 .. i0+n-1] of
    row [j]. *)
Lemma gamut_row (n : nat) (j : Z) :
  forall (i0 : Z) (img : Image.CImg) (x y c : Z),
  Image.data
    (Image.iterate n i0 (fun i img_i => Image.gamut_pixel img_i i j) img) x y c =
  if (y =? j)%Z && (i0 <=? x)%Z && (x <? i0 + Z.of_nat n)%Z
  then Image.data (Image.gamut_pixel img x j) x j c
  else Image.data img x y c.
Proof.
  induction n as [|n IH]; intros i0 img x y c.
  - simpl Image.iterate.
    destruct (Z.eqb_spec y j), (Z.leb_spec i0 x), (Z.ltb_spec x (i0 + Z.of_nat 0));
      cbn [andb]; try reflexivity; lia.
  - simpl Image.iterate. rewrite IH.
    destruct (Z.eqb_spec y j) as [-> |Hy]; cbn [andb].
    + destruct (Z.leb_spec (i0 + 1) x), (Z.ltb_spec x (i0 + 1 + Z.of_nat n)),
        (Z.leb_spec i0 x), (Z.ltb_spec x (i0 + Z.of_nat (S n))); cbn [andb]; try lia.
      * apply gamut_pixel_local. intro c'. apply gamut_pixel_frame.
        intro E. injection E as E. lia.
      * apply gamut_pixel_frame. intro E. injection E as E. lia.
      * assert (x = i0) by lia. subst x. reflexivity.
      * apply gamut_pixel_frame. intro E. injection E as E. lia.
    + apply gamut_pixel_frame. intro E. injection E as _ E. contradiction.
Qed.

(** The whole gamut pass rewrites each pixel of the [xres] by [yres]
    rectangle from that pixel's own old channels and nothing else. *)
Lemma gamut_rows (xres : Z) (m : nat) :
  forall (j0 : Z) (img : Image.CImg) (x y c : Z),
  Image.data
    (Image.iterate m j0
       (fun j img_j =>
          Image.iterate (Z.to_nat xres) 0%Z
            (fun i img_i => Image.gamut_pixel img_i i j) img_j) img) x y c =
  if (j0 <=? y)%Z && (y <? j0 + Z.of_nat m)%Z && (0 <=? x)%Z && (x <? xres)%Z
  then Image.data (Image.gamut_pixel img x y) x y c
  else Image.data img x y c.
Proof.
  induction m as [|m IH]; intros j0 img x y c.
  - simpl Image.iterate.
    destruct (Z.leb_spec j0 y), (Z.ltb_spec y (j0 + Z.of_nat 0));
      cbn [andb]; try reflexivity; lia.
  - simpl Image.iterate. rewrite IH.
    assert (Hrow : forall x' y' c',
      Image.data (Image.iterate (Z.to_nat xres) 0%Z
         (fun i img_i => Image.gamut_pixel img_i i j0) img) x' y' c' =
      if (y' =? j0)%Z && (0 <=? x')%Z && (x' <? xres)%Z
      then Image.data (Image.gamut_pixel img x' j0) x' j0 c'
      else Image.data img x' y' c').
    { intros x' y' c'. rewrite gamut_row.
      destruct (Z.eqb_spec y' j0), (Z.leb_spec 0 x'),
        (Z.ltb_spec x' (0 + Z.of_nat (Z.to_nat xres))), (Z.ltb_spec x' xres);
        cbn [andb]; try reflexivity; lia. }
    destruct (Z.leb_spec (j0 + 1) y), (Z.ltb_spec y (j0 + 1 + Z.of_nat m)),
      (Z.leb_spec j0 y), (Z.ltb_spec y (j0 + Z.of_nat (S m)));
      cbn [andb]; try lia.
    + destruct (Z.leb_spec 0 x), (Z.ltb_spec x xres); cbn [andb].
      * apply gamut_pixel_local. intro c'. rewrite Hrow.
        destruct (Z.eqb_spec y j0); [lia|reflexivity].
      * rewrite Hrow. destruct (Z.eqb_spec y j0); [lia|reflexivity].
      * rewrite Hrow. destruct (Z.eqb_spec y j0); [lia|reflexivity].
      * rewrite Hrow. destruct (Z.eqb_spec y j0); [lia|reflexivity].
    + rewrite Hrow. destruct (Z.eqb_spec y j0); [lia|reflexivity].
    + assert (y = j0) by lia. subst y. rewrite Hrow. rewrite Z.eqb_refl.
      reflexivity.
    + rewrite Hrow. destruct (Z.eqb_spec y j0); [lia|reflexivity].
Qed.

Lemma gamut_pass_channels (xres yres : Z) (img : Image.CImg) (x y : Z) :
  (0 <= x < xres)%Z -> (0 <= y < yres)%Z ->
  Image.channels (Image.gamut_pass xres yres img) x y =
  Image.gamut_channels (Image.channels img x y).
Proof.
  intros Hx Hy. rewrite <- gamut_pixel_channels.
  unfold Image.channels, Image.gamut_pass. rewrite !gamut_rows.
  destruct (Z.leb_spec 0 y), (Z.ltb_spec y (0 + Z.of_nat (Z.to_nat yres))),
    (Z.leb_spec 0 x), (Z.ltb_spec x xres); cbn [andb]; try reflexivity; lia.
Qed.

(** C2, the claim as stated fails: on the one-pixel image (-1, -1, -1) the
    pass raises every channel to -0.02, so the maximum channel is changed
    (from -1 to -0.02), and no channel reaches 0.02 times the new maximum
    (-0.0004). *)
Lemma gamut_changes_negative_max :
  let img := Image.filled 1 1 3 (-1) in
  let after := Image.gamut_pass 1 1 img in
  Image.max_channel (Image.channels img 0 0) == -1 /\
  Image.data after 0 0 0 == - (2 # 100) /\
  Image.max_channel (Image.channels after 0 0) == - (2 # 100) /\
  ~ Image.max_channel (Image.channels after 0 0)
    == Image.max_channel (Image.channels img 0 0) /\
  ~ Image.gamut_floor * Image.max_channel (Image.channels after 0 0)
    <= Image.data after 0 0 0.
Proof.
  cbv zeta.
  split; [vm_compute; reflexivity|].
  split; [vm_compute; reflexivity|].
  split; [vm_compute; reflexivity|].
  split; intro H; vm_compute in H.
  - discriminate H.
  - apply H. reflexivity.
Qed.

(** C2, amended: after the pass every channel of every pixel is at least
    0.02 times the maximum channel the pixel had before the pass.  Where
    that maximum is not negative the pass leaves it unchanged, so the bound
    holds against the maximum after the pass as well; where it is negative
    the pass sets all three channels to 0.02 times it, which raises the
    maximum. *)
Theorem gamut_floor_of_old_max
  (xres yres : Z) (img : Image.CImg) (x y : Z) :
  (0 <= x < xres)%Z -> (0 <= y < yres)%Z ->
  let m := Image.max_channel (Image.channels img x y) in
  let after := Image.gamut_pass xres yres img in
  (Image.gamut_floor * m <= Image.data after x y 0 /\
   Image.gamut_floor * m <= Image.data after x y 1 /\
   Image.gamut_floor * m <= Image.data after x y 2) /\
  (0 <= m -> Image.max_channel (Image.channels after x y) == m) /\
  (m < 0 ->
   Image.channels after x y =
     (Image.gamut_floor * m, Image.gamut_floor * m, Image.gamut_floor * m) /\
   m < Image.max_channel (Image.channels after x y)).
Proof.
  intros Hx Hy. cbv zeta.
  pose proof (gamut_pass_channels xres yres img x y Hx Hy) as E.
  destruct (Image.channels img x y) as [[c0 c1] c2] eqn:Ec.
  split; [|split].
  - pose proof (gamut_channels_floor c0 c1 c2) as F. cbv zeta in F.
    rewrite <- E in F. exact F.
  - intro Hm. rewrite E. apply gamut_channels_max_kept. exact Hm.
  - intro Hm. rewrite E.
    destruct (gamut_channels_max_raised c0 c1 c2 Hm) as [Eq Hlt].
    split; [exact Eq|].
    rewrite Eq.
    destruct (max_channel_bounds (Image.gamut_floor * Image.max_channel (c0, c1, c2))
                (Image.gamut_floor * Image.max_channel (c0, c1, c2))
                (Image.gamut_floor * Image.max_channel (c0, c1, c2)))
      as (G & _).
    cbv zeta in G. eapply Qlt_le_trans; [exact Hlt|exact G].
Qed.

Lemma gamut_floor_of_old_max_witness :
  let img := Image.filled 2 2 3 (5 # 1) in
  let m := Image.max_channel (Image.channels img 1 1) in
  let after := Image.gamut_pass 2 2 img in
  (Image.gamut_floor * m <= Image.data after 1 1 0 /\
   Image.gamut_floor * m <= Image.data after 1 1 1 /\
   Image.gamut_floor * m <= Image.data after 1 1 2) /\
  (0 <= m -> Image.max_channel (Image.channels after 1 1) == m) /\
  (m < 0 ->
   Image.channels after 1 1 =
     (Image.gamut_floor * m, Image.gamut_floor * m, Image.gamut_floor * m) /\
   m < Image.max_channel (Image.channels after 1 1)).
Proof.
  apply (gamut_floor_of_old_max 2 2 (Image.filled 2 2 3 (5 # 1)) 1 1); lia.
Defined.

(** ** Polynomial systems: evaluation of the operations *)

Lemma qpow_add (x : Q) (e f : nat) :
  Poly.qpow x (e + f) == Poly.qpow x e * Poly.qpow x f.
Proof.
  induction e as [|e IH]; simpl.
  - ring.
  - rewrite IH. ring.
Qed.

Lemma monomial_nil_r (es : list nat) : Poly.monomial es [] = 1.
Proof. destruct es; reflexivity. Qed.

Lemma monomial_snoc (es : list nat) (k : nat) :
  forall (xs : list Q) (v : Q),
  length es = length xs ->
  Poly.monomial (es ++ [k]) (xs ++ [v]) == Poly.monomial es xs * Poly.qpow v k.
Proof.
  induction es as [|e es IH]; intros [|x xs] v Hlen; simpl in Hlen;
    try discriminate Hlen.
  - simpl. ring.
  - simpl. rewrite IH by congruence. ring.
Qed.

Lemma monomial_add_exponents (es : list nat) :
  forall (fs : list nat) (xs : list Q),
  length es = length fs ->
  Poly.monomial (Poly.add_exponents es fs) xs ==
  Poly.monomial es xs * Poly.monomial fs xs.
Proof.
  induction es as [|e es IH]; intros [|f fs] xs Hlen; simpl in Hlen;
    try discriminate Hlen.
  - simpl. ring.
  - destruct xs as [|x xs].
    + simpl. ring.
    + simpl. rewrite IH by congruence. rewrite qpow_add. ring.
Qed.

Lemma eval_poly_app (p q : Poly.TruncPoly) (xs : list Q) :
  Poly.eval_poly (p ++ q) xs == Poly.eval_poly p xs + Poly.eval_poly q xs.
Proof.
  induction p as [|t p IH]; simpl.
  - ring.
  - rewrite IH. ring.
Qed.

Lemma eval_poly_add (p q : Poly.TruncPoly) (xs : list Q) :
  Poly.eval_poly (Poly.poly_add p q) xs ==
  Poly.eval_poly p xs + Poly.eval_poly q xs.
Proof. apply eval_poly_app. Qed.

Lemma eval_term_mul (n : nat) (s t : Poly.PolyTerm) (xs : list Q) :
  length (Poly.exponents s) = n -> length (Poly.exponents t) = n ->
  Poly.eval_term (Poly.term_mul s t) xs ==
  Poly.eval_term s xs * Poly.eval_term t xs.
Proof.
  intros Hs Ht. unfold Poly.eval_term, Poly.term_mul. simpl.
  rewrite monomial_add_exponents by congruence. ring.
Qed.

Lemma eval_poly_map_term_mul (n : nat) (s : Poly.PolyTerm) (q : Poly.TruncPoly)
  (xs : list Q) :
  length (Poly.exponents s) = n -> Poly.well_formed n q ->
  Poly.eval_poly (map (Poly.term_mul s) q) xs ==
  Poly.eval_term s xs * Poly.eval_poly q xs.
Proof.
  intros Hs Hq. induction Hq as [|t q Ht Hq IH]; simpl.
  - ring.
  - rewrite IH. rewrite (eval_term_mul n) by assumption. ring.
Qed.

(** The product of two polynomials evaluates to the product of their
    values. *)
Lemma eval_poly_mul (n : nat) (p q : Poly.TruncPoly) (xs : list Q) :
  Poly.well_formed n p -> Poly.well_formed n q ->
  Poly.eval_poly (Poly.poly_mul p q) xs ==
  Poly.eval_poly p xs * Poly.eval_poly q xs.
Proof.
  intros Hp Hq. unfold Poly.poly_mul.
  induction Hp as [|s p Hs Hp IH]; simpl.
  - ring.
  - rewrite eval_poly_app, IH.
    rewrite (eval_poly_map_term_mul n) by assumption. ring.
Qed.

Lemma eval_poly_lift (c : Q) (k : nat) (p : Poly.TruncPoly) (xs : list Q) (v : Q) :
  Poly.well_formed (length xs) p ->
  Poly.eval_poly (map (Poly.lift_term c k) p) (xs ++ [v]) ==
  c * Poly.qpow v k * Poly.eval_poly p xs.
Proof.
  intro Hp. induction Hp as [|t p Ht Hp IH]; simpl.
  - ring.
  - rewrite IH. unfold Poly.eval_term, Poly.lift_term. simpl.
    rewrite monomial_snoc by exact Ht. ring.
Qed.

(** The interpolated polynomial, at control value [t], is the point at [t]
    of the straight line through [this] at [pos_this] and [rhs] at
    [pos_rhs]. *)
Lemma eval_lerp_poly (this rhs : Poly.TruncPoly) (pos_this pos_rhs : Q)
  (xs : list Q) (t : Q) :
  Poly.well_formed (length xs) this -> Poly.well_formed (length xs) rhs ->
  ~ pos_rhs - pos_this == 0 ->
  Poly.eval_poly (Poly.lerp_poly this rhs pos_this pos_rhs) (xs ++ [t]) ==
  Optics.spectral_line pos_this pos_rhs
    (Poly.eval_poly this xs) (Poly.eval_poly rhs xs) t.
Proof.
  intros Ha Hb Hne. unfold Poly.lerp_poly, Optics.spectral_line.
  rewrite !eval_poly_app, !eval_poly_lift by assumption.
  simpl Poly.qpow. field. exact Hne.
Qed.

Lemma get_equation_lerp_with (k : nat) :
  forall (this rhs : Poly.TruncPolySystem) (pos_this pos_rhs : Q),
  (k < length this)%nat -> (k < length rhs)%nat ->
  Poly.get_equation k (Poly.lerp_with this rhs pos_this pos_rhs) =
  Poly.lerp_poly (Poly.get_equation k this) (Poly.get_equation k rhs)
    pos_this pos_rhs.
Proof.
  unfold Poly.get_equation.
  induction k as [|k IH]; intros [|p this] [|q rhs] p0 p1 Ha Hb;
    simpl in Ha, Hb; try lia; simpl.
  - reflexivity.
  - apply IH; lia.
Qed.

Lemma well_formed_get_equation (n k : nat) (sys : Poly.TruncPolySystem) :
  Poly.well_formed_system n sys -> Poly.well_formed n (Poly.get_equation k sys).
Proof.
  intro H. unfold Poly.get_equation.
  destruct (Nat.lt_ge_cases k (length sys)) as [Hlt|Hge].
  - unfold Poly.well_formed_system in H. rewrite Forall_forall in H.
    apply H. apply nth_In. exact Hlt.
  - rewrite nth_overflow by exact Hge. constructor.
Qed.

(** ** The spectral compositor *)

Section Compositor.

Variable two_plane_5 : Q -> nat -> Poly.TruncPolySystem.
Variable refract_spherical_5 : Q -> Q -> Q -> nat -> Poly.TruncPolySystem.
Variable propagate_5 : Q -> nat -> Poly.TruncPolySystem.
Variable compose :
  Poly.TruncPolySystem -> Poly.TruncPolySystem -> Poly.TruncPolySystem.
Variable glass1_index glass2_index : Q -> Q.
Variable find_focus_X : Poly.TruncPolySystem -> Q.

Local Abbreviation center :=
  (Optics.system_spectral_center two_plane_5 refract_spherical_5 propagate_5
    compose glass1_index glass2_index find_focus_X).
Local Abbreviation right :=
  (Optics.system_spectral_right two_plane_5 refract_spherical_5 propagate_5
    compose glass1_index glass2_index find_focus_X).
Local Abbreviation spectral :=
  (Optics.system_spectral two_plane_5 refract_spherical_5 propagate_5
    compose glass1_index glass2_index find_focus_X).

(** Equation [k] of the interpolated transform of [main], at wavelength
    [lambda], lies on the straight line that passes through the transform
    built for 500nm at 550 and through the one built for 600nm at 600. *)
Lemma system_spectral_line (k : nat) (xs : list Q) (lambda : Q) :
  Poly.well_formed_system (length xs) center ->
  Poly.well_formed_system (length xs) right ->
  (k < length center)%nat -> (k < length right)%nat ->
  Poly.eval_poly (Poly.get_equation k spectral) (xs ++ [lambda]) ==
  Optics.spectral_line 550 600
    (Poly.eval_poly (Poly.get_equation k center) xs)
    (Poly.eval_poly (Poly.get_equation k right) xs) lambda.
Proof.
  intros Hc Hr Hkc Hkr. unfold Optics.system_spectral.
  rewrite get_equation_lerp_with by assumption.
  apply eval_lerp_poly.
  - apply well_formed_get_equation. exact Hc.
  - apply well_formed_get_equation. exact Hr.
  - intro H. vm_compute in H. discriminate H.
Qed.

(** C5, what the code does: the interpolated transform reproduces the
    transform built for 500nm at 550nm, not at 500nm, and the one built
    for 600nm at 600nm; at 500nm it returns twice the first minus the
    second. *)
Theorem system_spectral_anchored_at_550 (k : nat) (xs : list Q) :
  Poly.well_formed_system (length xs) center ->
  Poly.well_formed_system (length xs) right ->
  (k < length center)%nat -> (k < length right)%nat ->
  let at_lambda lambda :=
    Poly.eval_poly (Poly.get_equation k spectral) (xs ++ [lambda]) in
  let c := Poly.eval_poly (Poly.get_equation k center) xs in
  let r := Poly.eval_poly (Poly.get_equation k right) xs in
  at_lambda 550 == c /\
  at_lambda 600 == r /\
  at_lambda 500 == 2 * c - r /\
  (at_lambda 500 == c <-> c == r).
Proof.
  intros Hc Hr Hkc Hkr. cbv zeta.
  rewrite !system_spectral_line by assumption.
  unfold Optics.spectral_line.
  set (c := Poly.eval_poly (Poly.get_equation k center) xs).
  set (r := Poly.eval_poly (Poly.get_equation k right) xs).
  assert (E500 : c + (r - c) * (500 - 550) / (600 - 550) == 2 * c - r) by field.
  split; [field|]. split; [field|]. split; [exact E500|].
  rewrite E500. split; intro H; lqa.
Qed.

End Compositor.

Lemma system_spectral_anchored_at_550_witness :
  let center := Optics.system_spectral_center example_flat example_refract
      example_flat example_compose example_index1 example_index2 example_focus in
  let right := Optics.system_spectral_right example_flat example_refract
      example_flat example_compose example_index1 example_index2 example_focus in
  let spectral := Optics.system_spectral example_flat example_refract
      example_flat example_compose example_index1 example_index2 example_focus in
  let at_lambda lambda :=
    Poly.eval_poly (Poly.get_equation 0 spectral) ([1] ++ [lambda]) in
  let c := Poly.eval_poly (Poly.get_equation 0 center) [1] in
  let r := Poly.eval_poly (Poly.get_equation 0 right) [1] in
  at_lambda 550 == c /\
  at_lambda 600 == r /\
  at_lambda 500 == 2 * c - r /\
  (at_lambda 500 == c <-> c == r).
Proof.
  apply (system_spectral_anchored_at_550 example_flat example_refract
           example_flat example_compose example_index1 example_index2
           example_focus 0 [1]).
  - repeat constructor.
  - repeat constructor.
  - simpl. lia.
  - simpl. lia.
Defined.

(** C5, on the stand-in lens: the transform built for 500nm evaluates to 6
    and the one built for 600nm to 7 at [x0 = 1]; the interpolated
    transform returns 5 at 500nm, and 6 only at 550nm.  The renderer does
    bake 500nm: it is the wavelength of bin 3. *)
Lemma system_spectral_misses_500 :
  Render.lambda_of 3 == 500 /\
  let center := Optics.system_spectral_center example_flat example_refract
      example_flat example_compose example_index1 example_index2 example_focus in
  let spectral := Optics.system_spectral example_flat example_refract
      example_flat example_compose example_index1 example_index2 example_focus in
  map Qred (Poly.evaluate center [1]) = [6 # 1]%Q /\
  Qred (nth 0 (Poly.evaluate spectral [1; 500]) 0) = 5 /\
  Qred (nth 0 (Poly.evaluate spectral [1; 550]) 0) = 6 /\
  ~ nth 0 (Poly.evaluate spectral [1; 500]) 0 == nth 0 (Poly.evaluate center [1]) 0.
Proof.
  cbv zeta. split; [|split; [|split; [|split]]].
  - vm_compute. reflexivity.
  - vm_compute. reflexivity.
  - vm_compute. reflexivity.
  - vm_compute. reflexivity.
  - intro H. vm_compute in H. discriminate H.
Qed.

(** ** The angular-spread rearrangement *)

Lemma trunc_degree_le (d : nat) (p : Poly.TruncPoly) :
  Forall (fun t => (Poly.degree_of t <= d)%nat) (Poly.trunc d p).
Proof.
  unfold Poly.trunc. apply Forall_forall. intros t Ht.
  apply filter_In in Ht. destruct Ht as [_ Ht]. apply Nat.leb_le. exact Ht.
Qed.

Lemma trunc_keeps (d : nat) (p : Poly.TruncPoly) (t : Poly.PolyTerm) :
  In t p -> (Poly.degree_of t <= d)%nat -> In t (Poly.trunc d p).
Proof.
  intros Hin Hd. unfold Poly.trunc. apply filter_In.
  split; [exact Hin|]. apply Nat.leb_le. exact Hd.
Qed.

(** C4, the claim as stated fails: the sum of squares is cut at degree 2,
    not at the working degree 3.  On [example_spread] the code keeps [x0^2]
    alone where a cut at degree 3 keeps [x0^2 + 2*x0^2*x4]; at
    [x0 = x4 = 1] the third output is 1 instead of 3. *)
Lemma lambert_cos2_not_working_degree :
  Optics.degree = 3%nat /\
  Optics.system_lambert_cos2 example_spread <>
    Optics.system_lambert_cos2_spec Optics.degree example_spread /\
  map Qred (Poly.evaluate (Optics.system_lambert_cos2 example_spread) [1; 0; 0; 0; 1])
    = [0; 0; 1 # 1]%Q /\
  map Qred (Poly.evaluate (Optics.system_lambert_cos2_spec Optics.degree example_spread)
              [1; 0; 0; 0; 1]) = [0; 0; 3 # 1]%Q.
Proof.
  split; [reflexivity|]. split; [|split].
  - intro H. vm_compute in H. discriminate H.
  - vm_compute. reflexivity.
  - vm_compute. reflexivity.
Qed.

(** C4, amended: the rearrangement replaces the third output equation of
    the interpolated transform by the sum of the squares of the third and
    fourth output equations, truncates that sum at total degree 2 (a fixed
    constant, not the working degree 3), and then drops the fourth output
    equation, yielding a 3-output transform. *)
Theorem lambert_cos2_truncates_at_2 (e0 e1 e2 e3 : Poly.TruncPoly) :
  let sum_sq := Poly.poly_add (Poly.poly_mul e2 e2) (Poly.poly_mul e3 e3) in
  Optics.system_lambert_cos2 [e0; e1; e2; e3] = [e0; e1; Poly.trunc 2 sum_sq] /\
  Optics.system_lambert_cos2 [e0; e1; e2; e3] =
    Optics.system_lambert_cos2_spec 2 [e0; e1; e2; e3] /\
  Forall (fun t => (Poly.degree_of t <= 2)%nat) (Poly.trunc 2 sum_sq) /\
  (forall t, In t sum_sq -> (Poly.degree_of t <= 2)%nat ->
             In t (Poly.trunc 2 sum_sq)) /\
  (forall (n : nat) (xs : list Q),
     Poly.well_formed n e2 -> Poly.well_formed n e3 ->
     Poly.eval_poly sum_sq xs ==
     Poly.eval_poly e2 xs * Poly.eval_poly e2 xs
     + Poly.eval_poly e3 xs * Poly.eval_poly e3 xs).
Proof.
  cbv zeta. split; [reflexivity|]. split; [reflexivity|].
  split; [apply trunc_degree_le|]. split; [intros t; apply trunc_keeps|].
  intros n xs H2 H3.
  rewrite eval_poly_add, !(eval_poly_mul n) by assumption. reflexivity.
Qed.

(** ** Counted loops *)

Lemma bind_Done_r {A : Type} (m : Render.outcome A) :
  Render.bind m Render.Done = m.
Proof. destruct m; reflexivity. Qed.

Lemma for_loop_preserves {S : Type} (I : S -> Prop)
  (body : Z -> S -> Render.outcome S) :
  (forall i, Render.preserves I (body i)) ->
  forall n i, Render.preserves I (Render.for_loop n i body).
Proof.
  intros Hbody n. induction n as [|n IH]; intros i s s' Hs Hrun.
  - simpl in Hrun. injection Hrun as <-. exact Hs.
  - simpl in Hrun. destruct (body i s) as [s1| |] eqn:E; simpl in Hrun;
      try discriminate Hrun.
    apply (IH (i + 1)%Z s1 s'); [|exact Hrun].
    apply (Hbody i s s1 Hs E).
Qed.

Lemma for_range_preserves {S : Type} (I : S -> Prop)
  (body : Z -> S -> Render.outcome S) (count : Z) :
  (forall i, Render.preserves I (body i)) ->
  Render.preserves I (Render.for_range count body).
Proof. intro H. apply for_loop_preserves. exact H. Qed.

Lemma for_loop_fuel {S : Type} (body : Z -> S -> Render.outcome S) :
  (forall i s, body i s <> Render.OutOfFuel) ->
  forall n i s, Render.for_loop n i body s <> Render.OutOfFuel.
Proof.
  intros Hbody n. induction n as [|n IH]; intros i s.
  - simpl. discriminate.
  - simpl. destruct (body i s) as [s1| |] eqn:E; simpl.
    + apply IH.
    + exfalso. apply (Hbody i s E).
    + discriminate.
Qed.

Lemma for_range_first_out_of_fuel {S : Type}
  (body : Z -> S -> Render.outcome S) (count : Z) (s : S) :
  (0 < count)%Z -> body 0%Z s = Render.OutOfFuel ->
  Render.for_range count body s = Render.OutOfFuel.
Proof.
  intros Hc Hb. unfold Render.for_range.
  destruct (Z.to_nat count) as [|n] eqn:E; [lia|].
  simpl. rewrite Hb. reflexivity.
Qed.

Lemma for_loop_monotone {S : Type} (body : nat -> Z -> S -> Render.outcome S) :
  (forall i s, Render.monotone (fun f => body f i s)) ->
  forall n i s, Render.monotone (fun f => Render.for_loop n i (body f) s).
Proof.
  intros Hbody n. induction n as [|n IH]; intros i s f f' Hle Hrun.
  - reflexivity.
  - simpl in *.
    assert (Hb : body f i s <> Render.OutOfFuel).
    { intro E. rewrite E in Hrun. apply Hrun. reflexivity. }
    rewrite (Hbody i s f f' Hle Hb).
    destruct (body f i s) as [s1| |]; simpl in *.
    + apply (IH (i + 1)%Z s1 f f' Hle Hrun).
    + reflexivity.
    + reflexivity.
Qed.

Lemma for_loop_terminates {S : Type} (body : nat -> Z -> S -> Render.outcome S) :
  (forall i s, Render.monotone (fun f => body f i s)) ->
  (forall i s, Render.terminates (fun f => body f i s)) ->
  forall n i s, Render.terminates (fun f => Render.for_loop n i (body f) s).
Proof.
  intros Hmono Hterm n. induction n as [|n IH]; intros i s.
  - exists O. simpl. discriminate.
  - destruct (Hterm i s) as [f1 H1].
    destruct (body f1 i s) as [s1| |] eqn:E1.
    + destruct (IH (i + 1)%Z s1) as [f2 H2].
      exists (Nat.max f1 f2). simpl.
      assert (Eb : body (Nat.max f1 f2) i s = body f1 i s).
      { apply (Hmono i s f1); [lia|]. rewrite E1. discriminate. }
      rewrite Eb, E1. simpl.
      rewrite (for_loop_monotone body Hmono n (i + 1)%Z s1 f2 (Nat.max f1 f2));
        [exact H2|lia|exact H2].
    + exfalso. apply H1. reflexivity.
    + exists f1. simpl. rewrite E1. simpl. discriminate.
Qed.

(** ** The rejection loop *)

Lemma rejected_false_disk (r x y : Q) :
  Render.rejected r x y = false -> x * x + y * y <= r * r.
Proof. unfold Render.rejected. apply Qltb_ge. Qed.

Lemma sample_aperture_accepts (rng : nat -> Z) (r : Q) (fuel : nat) :
  forall (pos : nat) (x y : Q) (pos' : nat),
  Render.sample_aperture fuel rng r pos = Render.Done (x, y, pos') ->
  Render.rejected r x y = false /\
  exists k : nat,
    (k < fuel)%nat /\ pos' = (pos + 2 * k + 2)%nat /\
    x = Render.aperture_coord r (rng (pos + 2 * k)%nat) /\
    y = Render.aperture_coord r (rng (S (pos + 2 * k))).
Proof.
  induction fuel as [|fuel IH]; intros pos x y pos' H; simpl in H.
  - discriminate H.
  - destruct (Render.rejected r (Render.aperture_coord r (rng pos))
                (Render.aperture_coord r (rng (S pos)))) eqn:E.
    + destruct (IH _ _ _ _ H) as [Hacc (k & Hk & Hpos & Hx & Hy)].
      split; [exact Hacc|]. exists (S k).
      replace (pos + 2 * S k)%nat with (S (S pos) + 2 * k)%nat by lia.
      repeat split; try assumption; lia.
    + injection H as <- <- <-. split; [exact E|]. exists O.
      replace (pos + 2 * 0)%nat with pos by lia.
      repeat split; lia.
Qed.

Lemma sample_aperture_defined (rng : nat -> Z) (r : Q) (fuel : nat) :
  forall pos, Render.sample_aperture fuel rng r pos <> Render.Undefined.
Proof.
  induction fuel as [|fuel IH]; intro pos; simpl.
  - discriminate.
  - destruct (Render.rejected _ _ _); [apply IH|discriminate].
Qed.

(** The loop ends as soon as the fuel reaches an accepted pair. *)
Lemma sample_aperture_terminates (rng : nat -> Z) (r : Q) (fuel : nat) :
  forall pos k,
  (k < fuel)%nat -> Render.accepted_at rng r pos k ->
  exists res, Render.sample_aperture fuel rng r pos = Render.Done res.
Proof.
  unfold Render.accepted_at.
  induction fuel as [|fuel IH]; intros pos k Hk Hacc; [lia|].
  simpl.
  destruct (Render.rejected r (Render.aperture_coord r (rng pos))
              (Render.aperture_coord r (rng (S pos)))) eqn:E.
  - destruct k as [|k].
    + replace (pos + 2 * 0)%nat with pos in Hacc by lia. congruence.
    + apply (IH (S (S pos)) k); [lia|].
      replace (S (S pos) + 2 * k)%nat with (pos + 2 * S k)%nat by lia.
      exact Hacc.
  - eexists. reflexivity.
Qed.

(** It never ends when no pair is accepted. *)
Lemma sample_aperture_starves (rng : nat -> Z) (r : Q) :
  (forall pos k, ~ Render.accepted_at rng r pos k) ->
  forall fuel pos, Render.sample_aperture fuel rng r pos = Render.OutOfFuel.
Proof.
  intros Hnever fuel. induction fuel as [|fuel IH]; intro pos; simpl.
  - reflexivity.
  - destruct (Render.rejected r (Render.aperture_coord r (rng pos))
                (Render.aperture_coord r (rng (S pos)))) eqn:E.
    + apply IH.
    + exfalso. apply (Hnever pos O). unfold Render.accepted_at.
      replace (pos + 2 * 0)%nat with pos by lia. exact E.
Qed.

Lemma sample_aperture_monotone (rng : nat -> Z) (r : Q) (pos : nat) :
  Render.monotone (fun f => Render.sample_aperture f rng r pos).
Proof.
  intros f. revert pos.
  induction f as [|f IH]; intros pos f' Hle Hrun.
  - exfalso. apply Hrun. reflexivity.
  - destruct f' as [|f']; [lia|]. simpl in *.
    destruct (Render.rejected r (Render.aperture_coord r (rng pos))
                (Render.aperture_coord r (rng (S pos)))).
    + apply IH; [lia|exact Hrun].
    + reflexivity.
Qed.

(** Candidates lie in the square [-r, r] x [-r, r] around the aperture. *)
Lemma aperture_coord_in_square (r : Q) (v : Z) :
  0 <= r -> (0 <= v <= Render.RAND_MAX)%Z ->
  - r <= Render.aperture_coord r v <= r.
Proof.
  intros Hr Hv. unfold Render.aperture_coord, Render.unit_rand.
  assert (H0 : 0 <= inject_Z v / inject_Z Render.RAND_MAX).
  { apply Qle_shift_div_l; [reflexivity|].
    ring_simplify. unfold Qle. simpl. lia. }
  assert (H1 : inject_Z v / inject_Z Render.RAND_MAX <= 1).
  { apply Qle_shift_div_r; [reflexivity|].
    ring_simplify. unfold Qle, Render.RAND_MAX in *. simpl. lia. }
  set (u := inject_Z v / inject_Z Render.RAND_MAX) in *.
  split; nqa.
Qed.

(** ** Bilinear accumulation *)

Lemma same_cell_true (x0 y0 c0 x y c : Z) :
  Image.same_cell x0 y0 c0 x y c = true -> x = x0 /\ y = y0 /\ c = c0.
Proof.
  unfold Image.same_cell. intro H.
  apply andb_prop in H. destruct H as [H Hc].
  apply andb_prop in H. destruct H as [Hx Hy].
  apply Z.eqb_eq in Hx, Hy, Hc. auto.
Qed.

Lemma inside_deposit (w v : Q) (x0 y0 c0 : Z) (b : bool) (img : Image.CImg)
  (x y c : Z) :
  Image.inside (Image.deposit w v x0 y0 c0 b img) x y c = Image.inside img x y c.
Proof.
  unfold Image.deposit. destruct (Image.inside img x0 y0 c0); reflexivity.
Qed.

(** An accumulating deposit adds [w * v] to its target and nothing
    elsewhere. *)
Lemma deposit_added (w v : Q) (x0 y0 c0 : Z) (img : Image.CImg) (x y c : Z) :
  Image.data (Image.deposit w v x0 y0 c0 true img) x y c ==
  Image.data img x y c
  + (if Image.inside img x y c && Image.same_cell x0 y0 c0 x y c
     then w * v else 0).
Proof.
  unfold Image.deposit.
  destruct (Image.same_cell x0 y0 c0 x y c) eqn:Hcell.
  - apply same_cell_true in Hcell. destruct Hcell as (-> & -> & ->).
    destruct (Image.inside img x0 y0 c0) eqn:Hin.
    + rewrite data_store, same_cell_refl. simpl. ring.
    + simpl. ring.
  - rewrite andb_false_r.
    destruct (Image.inside img x0 y0 c0).
    + rewrite data_store, Hcell. ring.
    + ring.
Qed.

Lemma inside_set_linear (v fx fy : Q) (c0 : Z) (b : bool) (img : Image.CImg)
  (x y c : Z) :
  Image.inside (Image.set_linear_atXY v fx fy c0 b img) x y c =
  Image.inside img x y c.
Proof.
  unfold Image.set_linear_atXY. rewrite !inside_deposit. reflexivity.
Qed.

(** An accumulating bilinear splat adds, to each sample of its channel, the
    value times the bilinear weight of that sample. *)
Lemma set_linear_added (v fx fy : Q) (c0 : Z) (img : Image.CImg) (x y c : Z) :
  Image.data (Image.set_linear_atXY v fx fy c0 true img) x y c ==
  Image.data img x y c
  + (if Image.inside img x y c && (c =? c0)%Z
     then Render.bilinear_weight fx fy x y * v else 0).
Proof.
  unfold Image.set_linear_atXY, Render.bilinear_weight.
  rewrite !deposit_added, !inside_deposit.
  unfold Image.same_cell.
  set (x0 := Qfloor fx). set (y0 := Qfloor fy).
  set (dx := fx - inject_Z x0). set (dy := fy - inject_Z y0).
  destruct (Image.inside img x y c); cbn [andb]; [|ring].
  destruct (c =? c0)%Z; rewrite ?andb_false_r; cbn [andb];
    [rewrite !andb_true_r|ring].
  destruct (Z.eqb_spec x x0), (Z.eqb_spec x (x0 + 1)),
    (Z.eqb_spec y y0), (Z.eqb_spec y (y0 + 1));
    cbn [andb]; try ring; exfalso; lia.
Qed.

Lemma inside_splat (s : Render.sample) (img : Image.CImg) (x y c : Z) :
  Image.inside (Render.splat s img) x y c = Image.inside img x y c.
Proof.
  unfold Render.splat. destruct (Render.s_rgb s) as [[r g] b].
  rewrite !inside_set_linear. reflexivity.
Qed.

(** The three splats of a sample add its contribution. *)
Lemma splat_added (s : Render.sample) (img : Image.CImg) (x y c : Z) :
  Image.data (Render.splat s img) x y c ==
  Image.data img x y c + Render.contribution img s x y c.
Proof.
  unfold Render.splat, Render.contribution, Render.channel_value.
  destruct (Render.s_rgb s) as [[r g] b].
  rewrite !set_linear_added, !inside_set_linear.
  destruct (Image.inside img x y c); cbn [andb]; [|ring].
  destruct (Z.eqb_spec c 0) as [-> |H0]; [simpl; ring|].
  destruct (Z.eqb_spec c 1) as [-> |H1]; [simpl; ring|].
  destruct (Z.eqb_spec c 2) as [-> |H2]; [simpl; ring|].
  ring.
Qed.

Lemma total_contribution_inside (img img' : Image.CImg)
  (h : list Render.sample) (x y c : Z) :
  Image.inside img' x y c = Image.inside img x y c ->
  Render.total_contribution img' h x y c = Render.total_contribution img h x y c.
Proof.
  intro H. induction h as [|s h IH]; simpl.
  - reflexivity.
  - rewrite IH. unfold Render.contribution. rewrite H. reflexivity.
Qed.

(** ** The Monte Carlo pass *)

Section RenderFacts.

Variable rng : nat -> Z.
Variable width height : Z.
Variable img_in : Z -> Z -> Z -> Q.
Variable spectrum_p_to_rgb : Q -> Q -> Q * Q * Q.
Variable spectrum_rgb_to_p : Q -> Q * Q * Q -> Q.
Variable magnification : Q.
Variable system_lambert_cos2 : Poly.TruncPolySystem.
Variable lambert : Q -> Q.

Local Abbreviation sample_body :=
  (Render.sample_body rng width spectrum_p_to_rgb magnification lambert).
Local Abbreviation pixel_body :=
  (Render.pixel_body rng width img_in spectrum_p_to_rgb spectrum_rgb_to_p
     magnification lambert).
Local Abbreviation row_body :=
  (Render.row_body rng width height img_in spectrum_p_to_rgb spectrum_rgb_to_p
     magnification lambert).
Local Abbreviation bin_body :=
  (Render.bin_body rng width height img_in spectrum_p_to_rgb spectrum_rgb_to_p
     magnification system_lambert_cos2 lambert).
Local Abbreviation monte_carlo :=
  (Render.monte_carlo rng width height img_in spectrum_p_to_rgb
     spectrum_rgb_to_p magnification system_lambert_cos2 lambert).

(** What a completed pass of the sample loop did: it took an accepted
    aperture point, recorded one sample of the given weight and splatted
    it. *)
Lemma sample_body_done (fuel : nat) (ll : Z) (system_y : Poly.TruncPolySystem)
  (x_world sample_weight : Q) (st st' : Render.state) :
  sample_body fuel ll system_y x_world sample_weight st = Render.Done st' ->
  exists s : Render.sample,
    Render.history st' = s :: Render.history st /\
    Render.img_out st' = Render.splat s (Render.img_out st) /\
    Render.s_weight s = sample_weight /\
    Render.inside_aperture s.
Proof.
  unfold Render.sample_body. intro H.
  destruct (Render.sample_aperture fuel rng Render.r_pupil (Render.rng_pos st))
    as [[[x_ap y_ap] pos]| |] eqn:E; simpl in H; try discriminate H.
  injection H as <-. eexists. simpl.
  split; [reflexivity|]. split; [reflexivity|]. split; [reflexivity|].
  unfold Render.inside_aperture. simpl.
  apply rejected_false_disk.
  apply (sample_aperture_accepts rng Render.r_pupil fuel _ _ _ _ E).
Qed.

(** It runs out of fuel only in the rejection loop. *)
Lemma sample_body_fuel (fuel : nat) (ll : Z) (system_y : Poly.TruncPolySystem)
  (x_world sample_weight : Q) (st : Render.state) :
  (exists k, (k < fuel)%nat /\
             Render.accepted_at rng Render.r_pupil (Render.rng_pos st) k) ->
  sample_body fuel ll system_y x_world sample_weight st <> Render.OutOfFuel.
Proof.
  intros (k & Hk & Hacc). unfold Render.sample_body.
  destruct (sample_aperture_terminates rng Render.r_pupil fuel _ k Hk Hacc)
    as [[[x_ap y_ap] pos] E].
  rewrite E. simpl. discriminate.
Qed.

(** Every loop of the nest keeps an invariant that the sample loop keeps. *)
Lemma monte_carlo_invariant (I : Render.state -> Prop) (fuel : nat) :
  (forall ll system_y x_world sample_weight,
     Render.preserves I (sample_body fuel ll system_y x_world sample_weight)) ->
  I Render.initial_state ->
  forall st, monte_carlo fuel = Render.Done st -> I st.
Proof.
  intros Hsample Hinit st Hrun.
  unfold Render.monte_carlo in Hrun.
  revert Hrun. apply for_range_preserves; [|exact Hinit].
  intro ll. unfold Render.bin_body.
  apply for_range_preserves. intro j. unfold Render.row_body.
  apply for_range_preserves. intro i. unfold Render.pixel_body.
  destruct (Sampling.num_samples _ _) as [n|].
  - apply for_range_preserves. intros _. apply Hsample.
  - intros s s' _ H. discriminate H.
Qed.

Lemma sample_body_accumulates (fuel : nat) (ll : Z)
  (system_y : Poly.TruncPolySystem) (x_world sample_weight : Q) :
  Render.preserves Render.accumulated
    (sample_body fuel ll system_y x_world sample_weight).
Proof.
  intros st st' Hacc Hrun.
  destruct (sample_body_done _ _ _ _ _ _ _ Hrun) as (s & Hh & Himg & _ & _).
  unfold Render.accumulated in *. intros x y c.
  rewrite Hh, Himg. simpl Render.total_contribution.
  rewrite splat_added, Hacc.
  rewrite (total_contribution_inside (Render.img_out st)
             (Render.splat s (Render.img_out st))) by apply inside_splat.
  unfold Render.contribution. rewrite inside_splat. ring.
Qed.

Lemma sample_body_inside_aperture (fuel : nat) (ll : Z)
  (system_y : Poly.TruncPolySystem) (x_world sample_weight : Q) :
  Render.preserves (fun st => Forall Render.inside_aperture (Render.history st))
    (sample_body fuel ll system_y x_world sample_weight).
Proof.
  intros st st' Hall Hrun.
  destruct (sample_body_done _ _ _ _ _ _ _ Hrun) as (s & Hh & _ & _ & Hin).
  rewrite Hh. constructor; assumption.
Qed.

(** C9: the output image starts at zero in every channel of every pixel,
    and when the Monte Carlo pass is over each channel of each pixel holds
    exactly the sum of what the splatted samples deposited into it. *)
Theorem image_is_sum_of_splats (fuel : nat) (st : Render.state) :
  monte_carlo fuel = Render.Done st ->
  (forall x y c,
     Image.data (Render.img_out Render.initial_state) x y c = 0) /\
  (forall x y c,
     Image.data (Render.img_out st) x y c ==
     Render.total_contribution (Render.img_out st) (Render.history st) x y c).
Proof.
  intro Hrun. split; [reflexivity|].
  apply (monte_carlo_invariant Render.accumulated fuel); [| |exact Hrun].
  - intros. apply sample_body_accumulates.
  - intros x y c. reflexivity.
Qed.

(** C7: every sample that the Monte Carlo pass evaluates has its aperture
    point inside the disk of radius [r_pupil], and every candidate the
    rejection loop draws lies in the enclosing square. *)
Theorem samples_inside_aperture (fuel : nat) (st : Render.state) :
  monte_carlo fuel = Render.Done st ->
  Forall (fun s => Render.s_x_ap s * Render.s_x_ap s
                   + Render.s_y_ap s * Render.s_y_ap s
                   <= Render.r_pupil * Render.r_pupil) (Render.history st) /\
  (forall k, (0 <= rng k <= Render.RAND_MAX)%Z ->
     - Render.r_pupil <= Render.aperture_coord Render.r_pupil (rng k)
                      <= Render.r_pupil).
Proof.
  intro Hrun. split.
  - apply (monte_carlo_invariant
             (fun st => Forall Render.inside_aperture (Render.history st)) fuel);
      [| |exact Hrun].
    + intros. apply sample_body_inside_aperture.
    + constructor.
  - intros k Hk. apply aperture_coord_in_square; [|exact Hk].
    unfold Render.r_pupil, Render.r_entrance. unfold Qle. simpl. lia.
Qed.

(** Every loop of the nest is counted except the rejection loop, so the
    pass runs out of fuel only there. *)
Lemma monte_carlo_fuel (fuel : nat) :
  (forall pos, exists k,
     (k < fuel)%nat /\ Render.accepted_at rng Render.r_pupil pos k) ->
  monte_carlo fuel <> Render.OutOfFuel.
Proof.
  intro Hfair. unfold Render.monte_carlo, Render.for_range.
  apply for_loop_fuel. intros ll st0. unfold Render.bin_body, Render.for_range.
  apply for_loop_fuel. intros j st1. unfold Render.row_body, Render.for_range.
  apply for_loop_fuel. intros i st2. unfold Render.pixel_body.
  destruct (Sampling.num_samples _ _) as [n|]; [|discriminate].
  unfold Render.for_range. apply for_loop_fuel. intros _ st3.
  apply sample_body_fuel. apply Hfair.
Qed.

Lemma sample_body_monotone (ll : Z) (system_y : Poly.TruncPolySystem)
  (x_world sample_weight : Q) (st : Render.state) :
  Render.monotone
    (fun f => sample_body f ll system_y x_world sample_weight st).
Proof.
  intros f f' Hle Hrun. unfold Render.sample_body in *.
  assert (Ha : Render.sample_aperture f rng Render.r_pupil (Render.rng_pos st)
               <> Render.OutOfFuel).
  { intro E. rewrite E in Hrun. apply Hrun. reflexivity. }
  rewrite (sample_aperture_monotone rng Render.r_pupil (Render.rng_pos st)
             f f' Hle Ha).
  reflexivity.
Qed.

(** The sample loop records one sample of the given weight per pass. *)
Lemma sample_loop_history (fuel : nat) (ll : Z) (system_y : Poly.TruncPolySystem)
  (x_world w : Q) (n : nat) :
  forall (i : Z) (st st' : Render.state),
  Render.for_loop n i (fun _ => sample_body fuel ll system_y x_world w) st
    = Render.Done st' ->
  exists new : list Render.sample,
    Render.history st' = new ++ Render.history st /\
    length new = n /\
    Forall (fun s => Render.s_weight s = w) new.
Proof.
  induction n as [|n IH]; intros i st st' Hrun; simpl in Hrun.
  - injection Hrun as <-. exists []. repeat split. constructor.
  - destruct (sample_body fuel ll system_y x_world w st) as [s1| |] eqn:E;
      simpl in Hrun; try discriminate Hrun.
    destruct (sample_body_done _ _ _ _ _ _ _ E) as (s & Hh & _ & Hw & _).
    destruct (IH _ _ _ Hrun) as (new & Hnew & Hlen & Hall).
    exists (new ++ [s]). split; [|split].
    + rewrite Hnew, Hh, <- app_assoc. reflexivity.
    + rewrite length_app, Hlen. simpl. lia.
    + apply Forall_app. split; [exact Hall|]. constructor; [exact Hw|constructor].
Qed.

Lemma total_weight_constant (w : Q) (h : list Render.sample) :
  Forall (fun s => Render.s_weight s = w) h ->
  Render.total_weight h == inject_Z (Z.of_nat (length h)) * w.
Proof.
  intro H. induction H as [|s h Hs _ IH].
  - simpl. ring.
  - cbn [Render.total_weight length]. rewrite IH, Hs, Nat2Z.inj_succ.
    unfold Z.succ. rewrite inject_Z_plus. ring.
Qed.

Lemma pixel_body_monotone (ll : Z) (system_y : Poly.TruncPolySystem)
  (j i : Z) (st : Render.state) :
  Render.monotone (fun f => pixel_body f ll system_y j i st).
Proof.
  unfold Render.pixel_body.
  destruct (Sampling.num_samples _ _) as [n|].
  - unfold Render.for_range.
    apply (for_loop_monotone (fun f _ => sample_body f ll _ _ _)).
    intros _ st'. apply sample_body_monotone.
  - intros f f' _ _. reflexivity.
Qed.

Lemma row_body_monotone (ll : Z) (system_lambda : Poly.TruncPolySystem)
  (j : Z) (st : Render.state) :
  Render.monotone (fun f => row_body f ll system_lambda j st).
Proof.
  unfold Render.row_body, Render.for_range.
  apply (for_loop_monotone (fun f => pixel_body f ll _ j)).
  intros i st'. apply pixel_body_monotone.
Qed.

Lemma bin_body_monotone (ll : Z) (st : Render.state) :
  Render.monotone (fun f => bin_body f ll st).
Proof.
  unfold Render.bin_body, Render.for_range.
  apply (for_loop_monotone (fun f => row_body f ll _)).
  intros j st'. apply row_body_monotone.
Qed.

Lemma monte_carlo_monotone : Render.monotone (fun f => monte_carlo f).
Proof.
  unfold Render.monte_carlo, Render.for_range.
  apply (for_loop_monotone (fun f => bin_body f)).
  intros ll st. apply bin_body_monotone.
Qed.

(** When every rejection loop meets an accepted pair, some amount of fuel
    completes the whole pass. *)
Lemma monte_carlo_terminates :
  (forall pos, exists k, Render.accepted_at rng Render.r_pupil pos k) ->
  Render.terminates (fun f => monte_carlo f).
Proof.
  intro Hfair.
  unfold Render.monte_carlo, Render.for_range.
  apply (for_loop_terminates (fun f => bin_body f)).
  { intros ll st. apply bin_body_monotone. }
  intros ll st0. unfold Render.bin_body, Render.for_range.
  apply (for_loop_terminates (fun f => row_body f ll _)).
  { intros j st. apply row_body_monotone. }
  intros j st1. unfold Render.row_body, Render.for_range.
  apply (for_loop_terminates (fun f => pixel_body f ll _ j)).
  { intros i st. apply pixel_body_monotone. }
  intros i st2. unfold Render.pixel_body.
  destruct (Sampling.num_samples _ _) as [n|].
  - unfold Render.for_range.
    apply (for_loop_terminates (fun f _ => sample_body f ll _ _ _)).
    + intros _ st3. apply sample_body_monotone.
    + intros _ st3. destruct (Hfair (Render.rng_pos st3)) as [k Hk].
      exists (S k). apply sample_body_fuel. exists k. split; [lia|exact Hk].
  - exists O. discriminate.
Qed.

Local Abbreviation render :=
  (Render.render rng width height img_in spectrum_p_to_rgb
     spectrum_rgb_to_p magnification system_lambert_cos2 lambert).

(** C8, amended: the loops over spectral bins, rows, columns and samples
    are counted, so the rendering can fail to terminate only in the
    aperture rejection loop.  That loop, which has no retry bound,
    terminates exactly when the random sequence, from where the loop
    starts, reaches a pair of candidates inside the disk; for every input
    image and every random sequence in which each rejection loop reaches
    one, the Monte Carlo pass and the whole rendering terminate. *)
Theorem render_terminates_when_aperture_accepts :
  (forall pos,
     (exists k, Render.accepted_at rng Render.r_pupil pos k) <->
     (exists fuel res,
        Render.sample_aperture fuel rng Render.r_pupil pos = Render.Done res)) /\
  ((forall pos, exists k, Render.accepted_at rng Render.r_pupil pos k) ->
   Render.terminates (fun fuel => monte_carlo fuel) /\
   Render.terminates (fun fuel => render fuel)) /\
  Render.monotone (fun fuel => monte_carlo fuel).
Proof.
  split; [|split].
  - intro pos. split.
    + intros (k & Hk). exists (S k).
      apply (sample_aperture_terminates rng Render.r_pupil (S k) pos k);
        [lia|exact Hk].
    + intros (fuel & [[x y] pos'] & H).
      destruct (sample_aperture_accepts rng Render.r_pupil fuel _ _ _ _ H)
        as (Hacc & k & _ & _ & -> & ->).
      exists k. exact Hacc.
  - intro Hfair.
    destruct (monte_carlo_terminates Hfair) as [fuel Hmc].
    split; [exists fuel; exact Hmc|].
    exists fuel. unfold Render.render.
    destruct (monte_carlo fuel); simpl; [discriminate|contradiction|discriminate].
  - apply monte_carlo_monotone.
Qed.

(** C10: a pixel whose spectral power [L_in] is zero or negative (and
    whose product with the multiplier converts to an [int]) gets exactly
    one sample, of weight [L_in] itself: the column loop runs the sample
    loop body once with that weight, and the sample it completes is
    recorded and splatted with it. *)
Theorem nonpositive_power_one_sample (fuel : nat) (ll : Z)
  (system_y : Poly.TruncPolySystem) (j i : Z) (st : Render.state) :
  let L_in :=
    spectrum_rgb_to_p (Render.lambda_of ll)
      (img_in i j 0%Z, img_in i j 1%Z, img_in i j 2%Z) in
  let x_world :=
    (inject_Z i / inject_Z width - (1 # 2)) * Render.sensor_width
    / magnification in
  L_in <= 0 ->
  CInt.representable (CInt.Qtrunc (L_in * Sampling.sample_mul)) = true ->
  Sampling.num_samples L_in Sampling.sample_mul = Some 1%Z /\
  Sampling.sample_weight L_in 1 == L_in /\
  pixel_body fuel ll system_y j i st =
    sample_body fuel ll system_y x_world (Sampling.sample_weight L_in 1) st /\
  (forall st',
     pixel_body fuel ll system_y j i st = Render.Done st' ->
     exists s : Render.sample,
       Render.history st' = s :: Render.history st /\
       Render.img_out st' = Render.splat s (Render.img_out st) /\
       Render.s_weight s == L_in).
Proof.
  cbv zeta. intros Hneg Hrep.
  set (L_in := spectrum_rgb_to_p (Render.lambda_of ll)
                 (img_in i j 0%Z, img_in i j 1%Z, img_in i j 2%Z)) in *.
  assert (Hn : Sampling.num_samples L_in Sampling.sample_mul = Some 1%Z).
  { rewrite (num_samples_defined _ _ Hrep). f_equal.
    assert (Hle : L_in * Sampling.sample_mul <= 0).
    { unfold Sampling.sample_mul. nqa. }
    assert (Hfl : (Qfloor (L_in * Sampling.sample_mul) <= 0)%Z).
    { rewrite <- (Qfloor_Z 0). apply Qfloor_resp_le. exact Hle. }
    lia. }
  assert (Hw : Sampling.sample_weight L_in 1 == L_in).
  { unfold Sampling.sample_weight. field. }
  assert (Hbody :
    pixel_body fuel ll system_y j i st =
    sample_body fuel ll system_y
      ((inject_Z i / inject_Z width - (1 # 2)) * Render.sensor_width
       / magnification) (Sampling.sample_weight L_in 1) st).
  { unfold Render.pixel_body. fold L_in. rewrite Hn.
    unfold Render.for_range. simpl Render.for_loop. apply bind_Done_r. }
  split; [exact Hn|]. split; [exact Hw|]. split; [exact Hbody|].
  intros st' Hrun. rewrite Hbody in Hrun.
  destruct (sample_body_done _ _ _ _ _ _ _ Hrun) as (s & Hh & Himg & Hsw & _).
  exists s. split; [exact Hh|]. split; [exact Himg|].
  rewrite Hsw. exact Hw.
Qed.

End RenderFacts.

(** ** The renderer on a one-pixel input *)

Lemma example_centre_accepted (pos k : nat) :
  Render.accepted_at example_rng_centre Render.r_pupil pos k.
Proof. unfold Render.accepted_at. vm_compute. reflexivity. Qed.

Lemma example_zero_rejected (pos k : nat) :
  ~ Render.accepted_at example_rng_zero Render.r_pupil pos k.
Proof. unfold Render.accepted_at. vm_compute. discriminate. Qed.

Lemma example_monte_carlo_done :
  exists st, example_monte_carlo example_rng_centre (1 # 1000) 1 = Render.Done st.
Proof.
  assert (H : Render.is_done
                (example_monte_carlo example_rng_centre (1 # 1000) 1) = true)
    by (vm_compute; reflexivity).
  destruct (example_monte_carlo example_rng_centre (1 # 1000) 1) as [st| |].
  - exists st. reflexivity.
  - discriminate H.
  - discriminate H.
Qed.

Lemma image_is_sum_of_splats_witness :
  exists st,
    example_monte_carlo example_rng_centre (1 # 1000) 1 = Render.Done st /\
    (forall x y c,
       Image.data (Render.img_out Render.initial_state) x y c = 0) /\
    (forall x y c,
       Image.data (Render.img_out st) x y c ==
       Render.total_contribution (Render.img_out st) (Render.history st) x y c).
Proof.
  destruct example_monte_carlo_done as [st E]. exists st.
  split; [exact E|].
  exact (image_is_sum_of_splats example_rng_centre 1 1
           (example_img_in (1 # 1000)) example_p_to_rgb example_rgb_to_p 1
           example_system example_lambert 1 st E).
Defined.

Lemma samples_inside_aperture_witness :
  exists st,
    example_monte_carlo example_rng_centre (1 # 1000) 1 = Render.Done st /\
    Forall (fun s => Render.s_x_ap s * Render.s_x_ap s
                     + Render.s_y_ap s * Render.s_y_ap s
                     <= Render.r_pupil * Render.r_pupil) (Render.history st) /\
    (forall k, (0 <= example_rng_centre k <= Render.RAND_MAX)%Z ->
       - Render.r_pupil
       <= Render.aperture_coord Render.r_pupil (example_rng_centre k)
       <= Render.r_pupil).
Proof.
  destruct example_monte_carlo_done as [st E]. exists st.
  split; [exact E|].
  exact (samples_inside_aperture example_rng_centre 1 1
           (example_img_in (1 # 1000)) example_p_to_rgb example_rgb_to_p 1
           example_system example_lambert 1 st E).
Defined.

Lemma render_terminates_when_aperture_accepts_witness :
  Render.terminates
    (fun fuel => example_monte_carlo example_rng_centre (1 # 1000) fuel) /\
  Render.terminates
    (fun fuel => example_render example_rng_centre (1 # 1000) fuel).
Proof.
  apply (render_terminates_when_aperture_accepts example_rng_centre 1 1
           (example_img_in (1 # 1000)) example_p_to_rgb example_rgb_to_p 1
           example_system example_lambert).
  intro pos. exists O. apply example_centre_accepted.
Defined.

(** C8, the claim as stated fails: when [rand()] returns 0 every time, every
    candidate is the corner [(-r_pupil, -r_pupil)] of the square, outside the
    disk, and the rendering of a one-pixel image never gets past its first
    rejection loop, whatever the number of passes allowed. *)
Lemma render_diverges_on_zero_sequence :
  Render.diverges (fun fuel => example_monte_carlo example_rng_zero (1 # 1000) fuel) /\
  Render.diverges (fun fuel => example_render example_rng_zero (1 # 1000) fuel) /\
  ~ Render.terminates (fun fuel => example_render example_rng_zero (1 # 1000) fuel).
Proof.
  assert (Hmc : Render.diverges
                  (fun fuel => example_monte_carlo example_rng_zero (1 # 1000) fuel)).
  { intro fuel. unfold Render.monte_carlo.
    apply for_range_first_out_of_fuel; [reflexivity|].
    unfold Render.bin_body.
    apply for_range_first_out_of_fuel; [reflexivity|].
    unfold Render.row_body.
    apply for_range_first_out_of_fuel; [reflexivity|].
    unfold Render.pixel_body.
    destruct (Sampling.num_samples _ _) as [n|] eqn:En;
      [|vm_compute in En; discriminate En].
    assert (n = 1%Z) by (vm_compute in En; congruence). subst n.
    apply for_range_first_out_of_fuel; [reflexivity|].
    unfold Render.sample_body.
    rewrite (sample_aperture_starves example_rng_zero Render.r_pupil
               example_zero_rejected).
    reflexivity. }
  assert (Hr : Render.diverges
                 (fun fuel => example_render example_rng_zero (1 # 1000) fuel)).
  { intro fuel. unfold Render.render.
    unfold Render.diverges in Hmc. rewrite Hmc. reflexivity. }
  split; [exact Hmc|]. split; [exact Hr|].
  intros [fuel Hfuel]. apply Hfuel. apply Hr.
Qed.

Lemma nonpositive_power_one_sample_witness :
  let st := Render.initial_state in
  let L_in : Q := -1 in
  Sampling.num_samples L_in Sampling.sample_mul = Some 1%Z /\
  Sampling.sample_weight L_in 1 == L_in /\
  Render.pixel_body example_rng_centre 1 (example_img_in (-1)) example_p_to_rgb
      example_rgb_to_p 1 example_lambert 1 0 example_system 0 0 st =
    Render.sample_body example_rng_centre 1 example_p_to_rgb 1 example_lambert
      1 0 example_system
      ((inject_Z 0 / inject_Z 1 - (1 # 2)) * Render.sensor_width / 1)
      (Sampling.sample_weight L_in 1) st /\
  (forall st',
     Render.pixel_body example_rng_centre 1 (example_img_in (-1))
       example_p_to_rgb example_rgb_to_p 1 example_lambert 1 0 example_system
       0 0 st = Render.Done st' ->
     exists s : Render.sample,
       Render.history st' = s :: Render.history st /\
       Render.img_out st' = Render.splat s (Render.img_out st) /\
       Render.s_weight s == L_in).
Proof.
  apply (nonpositive_power_one_sample example_rng_centre 1 (example_img_in (-1))
           example_p_to_rgb example_rgb_to_p 1 example_lambert 1 0
           example_system 0 0 Render.initial_state).
  - vm_compute. discriminate.
  - reflexivity.
Defined.

(** ** The scalar code on IEEE single precision *)

Lemma SFcompare_refl (x : spec_float) :
  x <> S754_nan -> SFcompare x x = Some Eq.
Proof.
  intro H. destruct x as [s|s| |s m e]; simpl.
  - reflexivity.
  - destruct s; reflexivity.
  - congruence.
  - rewrite Z.compare_refl, Pos.compare_cont_refl. destruct s; reflexivity.
Qed.

Lemma SFltb_irrefl (x : spec_float) : SFltb x x = false.
Proof.
  unfold SFltb. destruct x as [s|s| |s m e]; try reflexivity.
  - simpl. destruct s; reflexivity.
  - rewrite SFcompare_refl by discriminate. reflexivity.
Qed.

Lemma binary_round_aux_sign (sx : bool) (mx ex : Z) (lx : location) :
  match binary_round_aux Binary32.prec Binary32.emax sx mx ex lx with
  | S754_zero s | S754_infinity s | S754_finite s _ _ => s = sx
  | S754_nan => True
  end.
Proof.
  unfold binary_round_aux.
  destruct (shr_fexp Binary32.prec Binary32.emax mx ex lx) as [mrs' e'].
  destruct (shr_fexp Binary32.prec Binary32.emax
              (round_nearest_even (shr_m mrs') (loc_of_shr_record mrs')) e'
              loc_Exact) as [mrs'' e''].
  destruct (shr_m mrs'') as [|m|m]; try exact I; try reflexivity.
  destruct (Z.leb e'' (Binary32.emax - Binary32.prec)); reflexivity.
Qed.

(** A square root is never a negative number. *)
Lemma fsqrt_not_negative (x : Binary32.float) :
  Binary32.fsqrt x = S754_nan \/
  Binary32.not_negative (Binary32.fsqrt x) = true.
Proof.
  destruct x as [s|s| |s m e]; simpl.
  - right. reflexivity.
  - destruct s; [left|right]; reflexivity.
  - left. reflexivity.
  - destruct s; [left; reflexivity|]. right.
    unfold Binary32.fsqrt, SFsqrt.
    destruct (SFsqrt_core_binary Binary32.prec Binary32.emax (Z.pos m) e)
      as [[mz ez] lz].
    pose proof (binary_round_aux_sign false mz ez lz) as H.
    destruct (binary_round_aux Binary32.prec Binary32.emax false mz ez lz);
      try subst; reflexivity.
Qed.

(** The falloff is never not-a-number, and never a negative number or
    minus infinity. *)
Lemma lambert_not_nan_not_negative (out2 : Binary32.float) :
  Binary32.lambert out2 <> S754_nan /\
  Binary32.not_negative (Binary32.lambert out2) = true.
Proof.
  unfold Binary32.lambert. cbv zeta.
  set (l := Binary32.fsqrt (Binary32.fsub (Binary32.of_int 1) out2)).
  destruct (fsqrt_not_negative (Binary32.fsub (Binary32.of_int 1) out2))
    as [Hnan|Hpos]; fold l in Hnan || fold l in Hpos.
  - rewrite Hnan. simpl. split; [discriminate|reflexivity].
  - destruct l as [s|s| |s m e] eqn:El.
    + unfold Binary32.fneq, SFeqb. rewrite SFcompare_refl by discriminate.
      simpl. split; [discriminate|exact Hpos].
    + unfold Binary32.fneq, SFeqb. rewrite SFcompare_refl by discriminate.
      simpl. split; [discriminate|exact Hpos].
    + simpl. split; [discriminate|reflexivity].
    + unfold Binary32.fneq, SFeqb. rewrite SFcompare_refl by discriminate.
      simpl. split; [discriminate|exact Hpos].
Qed.

Lemma not_negative_flt (a : Binary32.float) :
  a <> S754_nan -> Binary32.not_negative a = true ->
  Binary32.flt a (Binary32.of_int 0) = false.
Proof.
  destruct a as [s|s| |s m e]; intros Hnan Hpos;
    try reflexivity; destruct s; try reflexivity; discriminate Hpos.
Qed.

(** The falloff on binary32, for every [float] whatsoever: it is never
    not-a-number and never below zero; and the angle term -3 gives 2, minus
    infinity gives plus infinity. *)
Theorem lambert_binary32 (out2 : Binary32.float) :
  Binary32.lambert out2 <> S754_nan /\
  Binary32.flt (Binary32.lambert out2) (Binary32.of_int 0) = false /\
  Binary32.lambert (Binary32.of_int (-3)) = Binary32.of_int 2 /\
  Binary32.flt (Binary32.of_int 1) (Binary32.lambert (Binary32.of_int (-3)))
    = true /\
  Binary32.lambert (S754_infinity true) = S754_infinity false.
Proof.
  destruct (lambert_not_nan_not_negative out2) as [Hnan Hpos].
  split; [exact Hnan|]. split.
  - apply not_negative_flt; assumption.
  - split; [vm_compute; reflexivity|]. split; vm_compute; reflexivity.
Qed.

(** The gamut floor on binary32, for all channel values whatsoever: after
    the pass no channel is below 0.02f times the maximum the pixel had
    before; and the pixel (-1, -1, -1) ends at (-0.02f, -0.02f, -0.02f). *)
Theorem gamut_binary32 (c0 c1 c2 : Binary32.float) :
  let floor :=
    Binary32.fmul Binary32.gamut_floor
      (Binary32.fmax c0 (Binary32.fmax c1 c2)) in
  let after := Binary32.gamut_channels (c0, c1, c2) in
  Binary32.flt (fst (fst after)) floor = false /\
  Binary32.flt (snd (fst after)) floor = false /\
  Binary32.flt (snd after) floor = false /\
  Binary32.gamut_channels
    (Binary32.of_int (-1), Binary32.of_int (-1), Binary32.of_int (-1)) =
  (S754_finite true 10737418 (-29), S754_finite true 10737418 (-29),
   S754_finite true 10737418 (-29)).
Proof.
  cbv zeta. unfold Binary32.gamut_channels. simpl fst; simpl snd.
  assert (F : forall a t, Binary32.flt (Binary32.fmax a t) t = false).
  { intros a t. unfold Binary32.fmax.
    destruct (Binary32.flt a t) eqn:E; [apply SFltb_irrefl|exact E]. }
  split; [apply F|]. split; [apply F|]. split; [apply F|].
  vm_compute. reflexivity.
Qed.

Lemma max1_quot_div (num den : Z) :
  (0 < den)%Z -> CInt.max 1 (num ÷ den) = Z.max 1 (num / den).
Proof.
  intro Hd. rewrite cmax_spec.
  destruct (Z.lt_ge_cases num 0) as [Hneg|Hpos].
  - assert (num / den < 0)%Z by (apply Z.div_lt_upper_bound; lia).
    assert (Hq : (num ÷ den <= 0)%Z).
    { pose proof (Z.quot_opp_l (- num) den) as Ho.
      rewrite Z.opp_involutive in Ho. rewrite Ho by lia.
      assert (0 <= (- num) ÷ den)%Z by (apply Z.quot_pos; lia). lia. }
    lia.
  - rewrite Z.quot_div_nonneg by lia. reflexivity.
Qed.

Lemma as_fraction_den_pos (x : Binary32.float) (num den : Z) :
  Binary32.as_fraction x = Some (num, den) -> (0 < den)%Z.
Proof.
  destruct x as [s|s| |s m e]; simpl; intro H; try discriminate H;
    injection H as <- <-; [lia|].
  apply Z.pow_pos_nonneg; lia.
Qed.

Lemma num_samples_floor (L_in sample_mul : Binary32.float) (n : Z) :
  Binary32.num_samples L_in sample_mul = Some n ->
  exists z : Z,
    Binary32.ffloor (Binary32.fmul L_in sample_mul) = Some z /\
    n = Z.max 1 z.
Proof.
  unfold Binary32.num_samples, Binary32.int_of_float, Binary32.ffloor.
  destruct (Binary32.as_fraction (Binary32.fmul L_in sample_mul))
    as [[num den]|] eqn:E; [|discriminate].
  destruct (CInt.representable (num ÷ den)); [|discriminate].
  simpl. intro H. injection H as <-.
  exists (num / den)%Z. split; [reflexivity|].
  apply max1_quot_div. apply (as_fraction_den_pos _ _ _ E).
Qed.

(** The sample count on binary32, for all floats: whenever the conversion
    to [int] is defined, the count is max(1, floor(L_in * sample_mul)), the
    product being the rounded binary32 product. *)
Theorem num_samples_binary32 (L_in sample_mul : Binary32.float) (n : Z) :
  Binary32.num_samples L_in sample_mul = Some n ->
  exists z : Z,
    Binary32.ffloor (Binary32.fmul L_in sample_mul) = Some z /\
    n = Z.max 1 z.
Proof.
  exact (num_samples_floor L_in sample_mul n).
Qed.

Lemma num_samples_binary32_witness :
  exists z : Z,
    Binary32.ffloor
      (Binary32.fmul (S754_finite false 10485760 (-22)) Binary32.sample_mul)
      = Some z /\
    2500%Z = Z.max 1 z.
Proof.
  apply (num_samples_binary32 (S754_finite false 10485760 (-22))
           Binary32.sample_mul 2500).
  vm_compute. reflexivity.
Defined.

(** C3: the number of samples drawn for a pixel of power [L_in] is
    max(1, floor(L_in * sample_mul)), the product being the one the machine
    computes, in single precision; without a defined conversion to [int]
    the pass is undefined.  Each sample carries the weight [L_in] divided by
    that count, weight times count gives back [L_in], and a pass of the
    sample loop that completes has recorded exactly that many samples, whose
    weights add up to [L_in]. *)
Theorem sample_count_and_weight (rng : nat -> Z) (width : Z)
  (spectrum_p_to_rgb : Q -> Q -> Q * Q * Q) (magnification : Q)
  (lambert : Q -> Q) (fuel : nat) (ll : Z) (system_y : Poly.TruncPolySystem)
  (x_world : Q) (L_in : Binary32.float) (st : Render.state) :
  (Binary32.num_samples L_in Binary32.sample_mul = None ->
   Pixel.sample_loop rng width spectrum_p_to_rgb magnification lambert
     fuel ll system_y x_world L_in st = Render.Undefined) /\
  (forall n : Z,
     Binary32.num_samples L_in Binary32.sample_mul = Some n ->
     (exists z : Z,
        Binary32.ffloor (Binary32.fmul L_in Binary32.sample_mul) = Some z /\
        n = Z.max 1 z) /\
     Sampling.sample_weight (Binary32.to_Q L_in) n * inject_Z n
       == Binary32.to_Q L_in /\
     (forall st' : Render.state,
        Pixel.sample_loop rng width spectrum_p_to_rgb magnification lambert
          fuel ll system_y x_world L_in st = Render.Done st' ->
        exists new : list Render.sample,
          Render.history st' = new ++ Render.history st /\
          Z.of_nat (length new) = n /\
          Forall (fun s => Render.s_weight s
                           = Sampling.sample_weight (Binary32.to_Q L_in) n)
                 new /\
          Render.total_weight new == Binary32.to_Q L_in)).
Proof.
  unfold Pixel.sample_loop. split.
  - intro E. rewrite E. reflexivity.
  - intros n E. rewrite E. cbv zeta.
    destruct (num_samples_floor _ _ _ E) as (z & Hz & Hn).
    assert (Hpos : (1 <= n)%Z) by lia.
    split; [exists z; split; [exact Hz|exact Hn]|].
    split; [apply weight_times_count; exact Hpos|].
    intros st' Hrun. unfold Render.for_range in Hrun.
    destruct (sample_loop_history _ _ _ _ _ _ _ _ _ _ _ _ _ _ Hrun)
      as (new & Hh & Hlen & Hall).
    exists new. split; [exact Hh|]. split; [rewrite Hlen; lia|].
    split; [exact Hall|].
    rewrite (total_weight_constant _ _ Hall), Hlen, Z2Nat.id by lia.
    rewrite Qmult_comm. apply weight_times_count. exact Hpos.
Qed.

(** At [L_in = 0.005f = 10737418 * 2^-31] the single-precision product with
    1000 is 5, and five samples are drawn. *)
Lemma sample_count_and_weight_witness :
  Binary32.num_samples (S754_finite false 10737418 (-31)) Binary32.sample_mul
    = Some 5%Z /\
  Binary32.ffloor
    (Binary32.fmul (S754_finite false 10737418 (-31)) Binary32.sample_mul)
    = Some 5%Z /\
  exists st' : Render.state,
    Pixel.sample_loop example_rng_centre 1 example_p_to_rgb 1 example_lambert
      1 0 example_system 0 (S754_finite false 10737418 (-31))
      Render.initial_state = Render.Done st' /\
    exists new : list Render.sample,
      Render.history st' = new ++ Render.history Render.initial_state /\
      Z.of_nat (length new) = 5%Z /\
      Forall (fun s => Render.s_weight s
                       = Sampling.sample_weight
                           (Binary32.to_Q (S754_finite false 10737418 (-31))) 5)
             new /\
      Render.total_weight new
        == Binary32.to_Q (S754_finite false 10737418 (-31)).
Proof.
  split; [reflexivity|]. split; [reflexivity|].
  assert (H : Render.is_done
                (Pixel.sample_loop example_rng_centre 1 example_p_to_rgb 1
                   example_lambert 1 0 example_system 0
                   (S754_finite false 10737418 (-31)) Render.initial_state)
              = true)
    by (vm_compute; reflexivity).
  destruct (Pixel.sample_loop example_rng_centre 1 example_p_to_rgb 1
              example_lambert 1 0 example_system 0
              (S754_finite false 10737418 (-31)) Render.initial_state)
    as [st'| |] eqn:E; try discriminate H.
  exists st'. split; [reflexivity|].
  destruct (sample_count_and_weight example_rng_centre 1 example_p_to_rgb 1
              example_lambert 1 0 example_system 0
              (S754_finite false 10737418 (-31)) Render.initial_state)
    as [_ Hsome].
  destruct (Hsome 5%Z eq_refl) as (_ & _ & Hloop).
  apply Hloop. exact E.
Defined.

Lemma sample_mul_binary32 :
  Binary32.sample_mul = S754_finite false 16384000 (-14).
Proof. vm_compute. reflexivity. Qed.

(** Non-positive power on binary32, for all floats: a pixel whose [L_in]
    is zero, negative or minus infinity gets exactly one sample wherever the
    conversion to [int] is defined. *)
Theorem nonpositive_power_binary32 (L_in : Binary32.float) :
  Binary32.not_positive L_in = true ->
  Binary32.num_samples L_in Binary32.sample_mul = Some 1%Z \/
  Binary32.num_samples L_in Binary32.sample_mul = None.
Proof.
  rewrite sample_mul_binary32.
  destruct L_in as [s|s| |s m e]; simpl; intro H; try discriminate H.
  - left. destruct s; vm_compute; reflexivity.
  - right. destruct s; reflexivity.
  - destruct s; [|discriminate H].
    unfold Binary32.num_samples, Binary32.int_of_float, Binary32.fmul, SFmul.
    pose proof (binary_round_aux_sign (xorb true false)
                  (Z.pos (m * 16384000)) (e + -14) loc_Exact) as Hs.
    destruct (binary_round_aux Binary32.prec Binary32.emax (xorb true false)
                (Z.pos (m * 16384000)) (e + -14) loc_Exact) as [s'|s'| |s' m' e'].
    + left. reflexivity.
    + right. reflexivity.
    + right. reflexivity.
    + simpl in Hs. subst s'. unfold Binary32.as_fraction.
      set (num := (cond_Zopp true (Z.pos m') * 2 ^ Z.max e' 0)%Z).
      set (den := (2 ^ Z.max (- e') 0)%Z).
      destruct (CInt.representable (num ÷ den)); [left|right; reflexivity].
      simpl. f_equal.
      assert (Hden : (0 < den)%Z) by (apply Z.pow_pos_nonneg; lia).
      assert (Hnum : (num < 0)%Z).
      { unfold num. simpl cond_Zopp.
        assert (0 < 2 ^ Z.max e' 0)%Z by (apply Z.pow_pos_nonneg; lia). nia. }
      rewrite max1_quot_div by exact Hden.
      assert (num / den < 0)%Z by (apply Z.div_lt_upper_bound; lia).
      lia.
Qed.

Lemma nonpositive_power_binary32_witness :
  Binary32.num_samples (Binary32.of_int (-3)) Binary32.sample_mul = Some 1%Z \/
  Binary32.num_samples (Binary32.of_int (-3)) Binary32.sample_mul = None.
Proof.
  apply (nonpositive_power_binary32 (Binary32.of_int (-3))). reflexivity.
Defined.

(** ** Rounding to nearest never passes a representable bound *)

Section Binary32Rounding.

Local Open Scope Z_scope.

Lemma digits2_pos_bounds (m : positive) :
  2 ^ (Z.pos (digits2_pos m) - 1) <= Z.pos m < 2 ^ Z.pos (digits2_pos m).
Proof.
  induction m as [m IH|m IH|]; simpl digits2_pos;
    rewrite ?Pos2Z.inj_succ;
    try (replace (Z.succ (Z.pos (digits2_pos m)) - 1) with (Z.pos (digits2_pos m)) by lia;
         rewrite Z.pow_succ_r by lia;
         assert (E : 2 ^ Z.pos (digits2_pos m) = 2 * 2 ^ (Z.pos (digits2_pos m) - 1))
           by (rewrite <- Z.pow_succ_r by lia; f_equal; lia);
         lia).
  simpl. lia.
Qed.

(** A number below [2^j] has at most [j] digits. *)
Lemma digits2_le (m : positive) (j : Z) :
  Z.pos m < 2 ^ j -> Z.pos (digits2_pos m) <= j.
Proof.
  intro H. destruct (digits2_pos_bounds m) as [Hlo _].
  destruct (Z.le_gt_cases (Z.pos (digits2_pos m)) j) as [|Hgt]; [assumption|].
  exfalso.
  assert (0 <= j).
  { destruct (Z.le_gt_cases 0 j); [assumption|].
    rewrite Z.pow_neg_r in H by lia. lia. }
  assert (2 ^ j <= 2 ^ (Z.pos (digits2_pos m) - 1)) by (apply Z.pow_le_mono_r; lia).
  lia.
Qed.

Lemma shr_1_nonneg (m : Z) (r s : bool) :
  0 <= m ->
  shr_1 (Build_shr_record m r s) = Build_shr_record (m / 2) (Z.odd m) (r || s).
Proof.
  intro H. destruct m as [|p|p]; [reflexivity| |lia].
  destruct p as [p|p|]; simpl shr_1.
  - f_equal. rewrite Pos2Z.inj_xI. 
    replace (2 * Z.pos p + 1) with (1 + Z.pos p * 2) by lia.
    rewrite Z.div_add by lia. reflexivity.
  - f_equal. rewrite Pos2Z.inj_xO. rewrite Z.mul_comm, Z.div_mul by lia. reflexivity.
  - reflexivity.
Qed.

Lemma iter_pos_nat {A : Type} (f : A -> A) (p : positive) :
  forall x, iter_pos f p x = Nat.iter (Pos.to_nat p) f x.
Proof.
  induction p as [p IH|p IH|]; intro x; simpl iter_pos.
  - rewrite !IH. rewrite Pos2Nat.inj_xI.
    rewrite <- Nat.iter_add. rewrite <- Nat.iter_succ_r.
    f_equal. lia.
  - rewrite !IH. rewrite Pos2Nat.inj_xO. rewrite <- Nat.iter_add. f_equal. lia.
  - reflexivity.
Qed.

Lemma shr_iter_spec (m0 : Z) (r0 s0 : bool) (k : nat) :
  0 <= m0 ->
  let mrs := Nat.iter k shr_1 (Build_shr_record m0 r0 s0) in
  shr_m mrs = m0 / 2 ^ Z.of_nat k /\
  (Binary32.inexact mrs = false <-> (m0 mod 2 ^ Z.of_nat k = 0 /\ r0 || s0 = false)).
Proof.
  intro H0. induction k as [|k IH].
  - simpl. rewrite Z.div_1_r, Z.mod_1_r. unfold Binary32.inexact. simpl. tauto.
  - cbv zeta in *. rewrite Nat.iter_succ.
    destruct (Nat.iter k shr_1 (Build_shr_record m0 r0 s0)) as [m r s] eqn:E.
    simpl shr_m in IH. unfold Binary32.inexact in IH. simpl shr_r in IH. simpl shr_s in IH.
    destruct IH as [Hm Hi].
    assert (Hpos : 0 < 2 ^ Z.of_nat k) by (apply Z.pow_pos_nonneg; lia).
    assert (Hmn : 0 <= m) by (rewrite Hm; apply Z.div_pos; [exact H0|exact Hpos]).
    rewrite shr_1_nonneg by exact Hmn.
    rewrite Nat2Z.inj_succ, Z.pow_succ_r by lia.
    split.
    + cbn [shr_m]. rewrite Hm. rewrite Z.div_div by lia. f_equal. lia.
    + unfold Binary32.inexact. cbn [shr_r shr_s].
      assert (Hodd : Z.odd m = false <-> m mod 2 = 0).
      { rewrite Zmod_odd. destruct (Z.odd m); split; intro; congruence || lia. }
      assert (Hsplit : m0 mod (2 * 2 ^ Z.of_nat k) = 0 <->
                       (m mod 2 = 0 /\ m0 mod 2 ^ Z.of_nat k = 0)).
      { rewrite Hm. 
        rewrite (Z.mul_comm 2). rewrite Z.rem_mul_r by lia.
        pose proof (Z.mod_pos_bound m0 (2 ^ Z.of_nat k) Hpos).
        pose proof (Z.mod_pos_bound (m0 / 2 ^ Z.of_nat k) 2 ltac:(lia)).
        split; intro; nia. }
      rewrite orb_false_iff, Hodd, Hi, Hsplit. tauto.
Qed.

Lemma fexp_mono (a b : Z) :
  a <= b ->
  fexp Binary32.prec Binary32.emax a <= fexp Binary32.prec Binary32.emax b.
Proof. unfold fexp. lia. Qed.

Lemma Zdigits2_le (m : Z) (j : Z) :
  0 <= m -> 0 <= j -> m < 2 ^ j -> Zdigits2 m <= j.
Proof.
  intros Hm Hj H. destruct m as [|p|p]; simpl; [lia| |lia].
  apply digits2_le. exact H.
Qed.

Lemma record_of_loc_flags (m : Z) (l : location) :
  exists r s, shr_record_of_loc m l = Build_shr_record m r s /\
              (r || s = false <-> Binary32.loc_excess l = 0).
Proof.
  destruct l as [|[ | | ]]; simpl; eexists; eexists; split; try reflexivity;
    simpl; split; intro; congruence || lia.
Qed.

(** One alignment step keeps an upper bound that lies on the coarser grid. *)
Lemma shr_fexp_le (m0 e0 : Z) (l : location) (bm : positive) (be : Z) :
  0 <= m0 ->
  fexp Binary32.prec Binary32.emax (Z.pos (digits2_pos bm) + be) = be ->
  e0 <= be ->
  m0 + Binary32.loc_excess l <= Z.pos bm * 2 ^ (be - e0) ->
  let '(mrs, e1) := shr_fexp Binary32.prec Binary32.emax m0 e0 l in
  e1 <= be /\ 0 <= shr_m mrs /\
  shr_m mrs + (if Binary32.inexact mrs then 1 else 0) <= Z.pos bm * 2 ^ (be - e1).
Proof.
  intros Hm0 Hcan He0 Hle. unfold shr_fexp, shr.
  set (n := fexp Binary32.prec Binary32.emax (Zdigits2 m0 + e0) - e0).
  destruct (record_of_loc_flags m0 l) as (r0 & s0 & Erec & Hflag).
  assert (Hex : 0 <= Binary32.loc_excess l <= 1) by (destruct l; simpl; lia).
  destruct n as [|k|k] eqn:En.
  - rewrite Erec. unfold Binary32.inexact. cbn [shr_m shr_r shr_s].
    split; [exact He0|]. split; [exact Hm0|].
    destruct (r0 || s0); [|lia].
    assert (Binary32.loc_excess l <> 0) by (intro E; apply Hflag in E; discriminate E). lia.
  - (* a real shift by k *)
    assert (He1 : e0 + Z.pos k <= be).
    { assert (E : e0 + Z.pos k = fexp Binary32.prec Binary32.emax (Zdigits2 m0 + e0)) by lia.
      rewrite E, <- Hcan. apply fexp_mono.
      assert (Hb : Z.pos bm < 2 ^ Z.pos (digits2_pos bm)) by apply digits2_pos_bounds.
      assert (Hp : 0 < 2 ^ (be - e0)) by (apply Z.pow_pos_nonneg; lia).
      assert (Zdigits2 m0 <= Z.pos (digits2_pos bm) + (be - e0)).
      { apply Zdigits2_le; [exact Hm0|lia|].
        rewrite Z.pow_add_r by lia. nia. }
      lia. }
    rewrite iter_pos_nat, Erec.
    destruct (shr_iter_spec m0 r0 s0 (Pos.to_nat k) Hm0) as [Hm Hi].
    rewrite positive_nat_Z in Hm, Hi.
    set (mrs := Nat.iter (Pos.to_nat k) shr_1 (Build_shr_record m0 r0 s0)) in *.
    assert (Hk : 0 < 2 ^ Z.pos k) by (apply Z.pow_pos_nonneg; lia).
    assert (Hsplit : 2 ^ (be - e0) = 2 ^ (be - (e0 + Z.pos k)) * 2 ^ Z.pos k).
    { rewrite <- Z.pow_add_r by lia. f_equal. lia. }
    set (K := Z.pos bm * 2 ^ (be - (e0 + Z.pos k))) in *.
    assert (HK : m0 + Binary32.loc_excess l <= K * 2 ^ Z.pos k).
    { unfold K. rewrite <- Z.mul_assoc, <- Hsplit. exact Hle. }
    split; [exact He1|]. split.
    + rewrite Hm. apply Z.div_pos; [exact Hm0|exact Hk].
    + rewrite Hm. destruct (Binary32.inexact mrs) eqn:Ei.
      * assert (Hlt : m0 < K * 2 ^ Z.pos k).
        { destruct (Z.eq_dec (Binary32.loc_excess l) 0) as [E0|E0]; [|lia].
          destruct (Z.eq_dec (m0 mod 2 ^ Z.pos k) 0) as [Em|Em].
          - assert (Hc : true = false); [|discriminate Hc].
            apply Hi. split; [exact Em|]. apply Hflag. exact E0.
          - assert (m0 <> K * 2 ^ Z.pos k); [|lia].
            intro E. apply Em. rewrite E. apply Z.mod_mul. lia. }
        assert (m0 / 2 ^ Z.pos k < K).
        { apply Z.div_lt_upper_bound; [exact Hk|]. rewrite Z.mul_comm. exact Hlt. }
        lia.
      * assert (m0 / 2 ^ Z.pos k <= K).
        { apply Z.div_le_upper_bound; [exact Hk|]. rewrite Z.mul_comm. lia. }
        lia.
  - rewrite Erec. unfold Binary32.inexact. cbn [shr_m shr_r shr_s].
    split; [exact He0|]. split; [exact Hm0|].
    destruct (r0 || s0); [|lia].
    assert (Binary32.loc_excess l <> 0) by (intro E; apply Hflag in E; discriminate E). lia.
Qed.

Lemma round_nearest_even_le (mrs : shr_record) :
  0 <= shr_m mrs ->
  0 <= round_nearest_even (shr_m mrs) (loc_of_shr_record mrs)
    <= shr_m mrs + (if Binary32.inexact mrs then 1 else 0).
Proof.
  destruct mrs as [m r s]. unfold Binary32.inexact. cbn [shr_m shr_r shr_s]. intro H.
  destruct r, s; simpl; try lia.
  destruct (Z.even m); lia.
Qed.

(** Rounding to nearest never passes a representable upper bound. *)
Lemma binary_round_aux_le (mx ex : Z) (lx : location)
  (bm : positive) (be : Z) :
  bounded Binary32.prec Binary32.emax bm be = true ->
  0 <= mx ->
  ex <= be ->
  mx + Binary32.loc_excess lx <= Z.pos bm * 2 ^ (be - ex) ->
  Binary32.value_le (binary_round_aux Binary32.prec Binary32.emax false mx ex lx) bm be.
Proof.
  intros Hb Hmx Hex Hle.
  unfold bounded, canonical_mantissa in Hb. apply andb_prop in Hb.
  destruct Hb as [Hcan Hmax]. apply Z.eqb_eq in Hcan. apply Z.leb_le in Hmax.
  unfold binary_round_aux.
  pose proof (shr_fexp_le mx ex lx bm be Hmx Hcan Hex Hle) as H1.
  destruct (shr_fexp Binary32.prec Binary32.emax mx ex lx) as [mrs' e'].
  destruct H1 as (He' & Hm' & Hb').
  pose proof (round_nearest_even_le mrs' Hm') as [Hr0 Hr1].
  set (m1 := round_nearest_even (shr_m mrs') (loc_of_shr_record mrs')) in *.
  pose proof (shr_fexp_le m1 e' loc_Exact bm be Hr0 Hcan He') as H2.
  simpl Binary32.loc_excess in H2. specialize (H2 ltac:(lia)).
  destruct (shr_fexp Binary32.prec Binary32.emax m1 e' loc_Exact) as [mrs'' e''].
  destruct H2 as (He'' & Hm'' & Hb'').
  destruct (shr_m mrs'') as [|m|m] eqn:Em.
  - exact I.
  - replace (e'' <=? Binary32.emax - Binary32.prec) with true by (symmetry; apply Z.leb_le; lia).
    cbn [Binary32.value_le]. split; [exact He''|]. destruct (Binary32.inexact mrs''); lia.
  - lia.
Qed.

Lemma shl_align_spec (mx : positive) (ex ez : Z) :
  let '(m, e) := shl_align mx ex ez in
  e <= ex /\ (ez <= ex -> e = ez) /\ Z.pos m = Z.pos mx * 2 ^ (ex - e).
Proof.
  unfold shl_align. destruct (ez - ex) as [|d|d] eqn:E.
  - rewrite Z.sub_diag. simpl. lia.
  - rewrite Z.sub_diag. simpl. lia.
  - split; [lia|]. split; [reflexivity|].
    change (Pos.iter xO mx d) with (shift_pos d mx).
    rewrite shift_pos_correct.
    change (Zpower_pos 2 d) with (2 ^ Z.pos d).
    replace (ex - ez) with (Z.pos d) by lia. lia.
Qed.

Lemma binary_round_le (p : positive) (e : Z) (bm : positive) (be : Z) :
  bounded Binary32.prec Binary32.emax bm be = true ->
  e <= be ->
  Z.pos p <= Z.pos bm * 2 ^ (be - e) ->
  Binary32.value_le (binary_round Binary32.prec Binary32.emax false p e) bm be.
Proof.
  intros Hb He Hle. unfold binary_round.
  pose proof (shl_align_spec p e (fexp Binary32.prec Binary32.emax (Z.pos (digits2_pos p) + e))) as H.
  destruct (shl_align p e (fexp Binary32.prec Binary32.emax (Z.pos (digits2_pos p) + e))) as [mz ez].
  destruct H as (H1 & _ & H3).
  apply binary_round_aux_le; [exact Hb|lia|lia|].
  simpl Binary32.loc_excess. rewrite H3.
  replace (be - ez) with ((be - e) + (e - ez)) by lia.
  rewrite Z.pow_add_r by lia.
  assert (0 < 2 ^ (e - ez)) by (apply Z.pow_pos_nonneg; lia).
  nia.
Qed.

Lemma binary_round_negative (p : positive) (e : Z) :
  Binary32.below_or_negative (binary_round Binary32.prec Binary32.emax true p e).
Proof.
  unfold binary_round.
  destruct (shl_align p e (fexp Binary32.prec Binary32.emax (Z.pos (digits2_pos p) + e))) as [mz ez].
  unfold binary_round_aux.
  destruct (shr_fexp Binary32.prec Binary32.emax (Z.pos mz) ez loc_Exact) as [mrs' e'].
  destruct (shr_fexp Binary32.prec Binary32.emax
              (round_nearest_even (shr_m mrs') (loc_of_shr_record mrs')) e'
              loc_Exact) as [mrs'' e''].
  destruct (shr_m mrs'') as [|m|m]; try exact I.
  destruct (Z.leb e'' (Binary32.emax - Binary32.prec)); exact I.
Qed.

Lemma value_le_below (r : spec_float) :
  Binary32.value_le r 8388608 (-23) -> Binary32.below_or_negative r.
Proof.
  destruct r as [s|s| |s m e]; simpl; try tauto.
  destruct s; tauto.
Qed.

Lemma fsub_one_le (s : bool) (my : positive) (ey : Z) :
  s = false ->
  Binary32.below_or_negative (Binary32.fsub (Binary32.of_int 1) (S754_finite s my ey)).
Proof.
  intros ->. change (Binary32.of_int 1) with (S754_finite false 8388608 (-23)).
  unfold Binary32.fsub, SFsub. cbv zeta.
  set (ez := Z.min (-23) ey).
  pose proof (shl_align_spec 8388608 (-23) ez) as HA.
  pose proof (shl_align_spec my ey ez) as HB.
  destruct (shl_align 8388608 (-23) ez) as [a ea].
  destruct (shl_align my ey ez) as [b eb].
  destruct HA as (_ & HA1 & HA2). destruct HB as (HB0 & HB1 & HB2).
  specialize (HA1 ltac:(lia)). specialize (HB1 ltac:(lia)). subst ea eb.
  cbn [fst cond_Zopp].
  destruct (Z.pos a - Z.pos b) as [|p|p] eqn:E; cbn [binary_normalize].
  - exact I.
  - apply value_le_below. apply binary_round_le; [reflexivity|lia|].
    rewrite <- HA2. lia.
  - apply binary_round_negative.
Qed.

Lemma fsqrt_le (m : positive) (e : Z) :
  Binary32.at_most_one (S754_finite false m e) ->
  Binary32.at_most_one (Binary32.fsqrt (S754_finite false m e)).
Proof.
  unfold Binary32.at_most_one. cbn [Binary32.value_le]. intros [He Hm].
  unfold Binary32.fsqrt, SFsqrt, SFsqrt_core_binary.
  set (d := Zdigits2 (Z.pos m)).
  set (e' := Z.min (fexp Binary32.prec Binary32.emax (Z.div2 (d + e + 1))) (Z.div2 e)).
  set (s := e - 2 * e').
  assert (Hm1 : Z.pos m <= 2 ^ (- e)).
  { replace (- e) with (23 + (-23 - e)) by lia. rewrite Z.pow_add_r by lia.
    exact Hm. }
  assert (Hd : d <= - e + 1).
  { apply Zdigits2_le; [lia|lia|]. rewrite Z.pow_add_r by lia.
    assert (0 < 2 ^ (- e)) by (apply Z.pow_pos_nonneg; lia). lia. }
  assert (He2 : 2 * e' <= e).
  { assert (e' <= Z.div2 e) by (unfold e'; lia). rewrite Z.div2_div in H.
    pose proof (Z.mul_div_le e 2 ltac:(lia)). lia. }
  assert (He' : e' <= -23).
  { assert (Z.div2 (d + e + 1) <= 1).
    { rewrite Z.div2_div. apply Z.div_le_upper_bound; lia. }
    assert (fexp Binary32.prec Binary32.emax (Z.div2 (d + e + 1)) <= -23).
    { unfold fexp, emin, Binary32.prec, Binary32.emax. lia. }
    unfold e'. lia. }
  set (m' := match s with Z.pos _ => Z.shiftl (Z.pos m) s | 0 => Z.pos m | Z.neg _ => 0 end).
  assert (Hm' : m' = Z.pos m * 2 ^ s).
  { unfold m'. assert (Hs : 0 <= s) by (unfold s; lia).
    destruct s as [|p|p] eqn:Es; [simpl; lia| |lia].
    rewrite Z.shiftl_mul_pow2 by lia. reflexivity. }
  clearbody m'.
  pose proof (Z.sqrtrem_spec m') as Hsq.
  pose proof (Z.sqrtrem_sqrt m') as Hq.
  pose proof (Z.sqrt_nonneg m') as Hq0.
  destruct (Z.sqrtrem m') as [q r]. cbn [fst] in Hq. subst q.
  assert (Hs : 0 <= s) by (unfold s; lia).
  assert (H2s : 0 < 2 ^ s) by (apply Z.pow_pos_nonneg; lia).
  assert (Hm0 : 0 <= m') by (rewrite Hm'; apply Z.mul_nonneg_nonneg; lia).
  specialize (Hsq Hm0). destruct Hsq as [Hsq Hr].
  set (T := 2 ^ (- e')).
  assert (HT : 0 < T) by (apply Z.pow_pos_nonneg; lia).
  assert (HTT : m' <= T * T).
  { unfold T. rewrite <- Z.pow_add_r by lia. rewrite Hm'.
    replace (- e' + - e') with (- e + s) by (unfold s; lia).
    rewrite Z.pow_add_r by lia. nia. }
  apply binary_round_aux_le; [reflexivity|exact Hq0|exact He'|].
  replace (Z.pos 8388608 * 2 ^ (-23 - e')) with T.
  2:{ unfold T. replace (- e') with (23 + (-23 - e')) by lia.
      rewrite Z.pow_add_r by lia. reflexivity. }
  destruct (Z.eqb_spec r 0) as [Er|Er]; simpl Binary32.loc_excess; nia.
Qed.

Lemma at_most_one_flt (r : spec_float) :
  Binary32.at_most_one r -> SFltb (Binary32.of_int 1) r = false.
Proof.
  change (Binary32.of_int 1) with (S754_finite false 8388608 (-23)).
  destruct r as [s|s| |s m e]; unfold Binary32.at_most_one; cbn [Binary32.value_le];
    try (intros _; reflexivity); try (intros []).
  destruct s; [intros []|]. intros [He Hm]. unfold SFltb, SFcompare.
  destruct (Z.compare_spec (-23) e) as [E|E|E]; try reflexivity; [|lia].
  subst e. change (2 ^ (-23 - -23)) with 1 in Hm.
  change (Pos.compare_cont Eq 8388608 m) with (Pos.compare 8388608 m).
  destruct (Pos.compare_spec 8388608 m) as [C|C|C]; try reflexivity. lia.
Qed.

Lemma lambert_le_one (out2 : Binary32.float) :
  Binary32.flt out2 (Binary32.of_int 0) = false ->
  Binary32.flt (Binary32.of_int 1) (Binary32.lambert out2) = false.
Proof.
  intro H. destruct out2 as [s|s| |s m e].
  - destruct s; vm_compute; reflexivity.
  - destruct s; [simpl in H; discriminate H|vm_compute; reflexivity].
  - vm_compute; reflexivity.
  - destruct s; [simpl in H; discriminate H|].
    pose proof (fsub_one_le false m e eq_refl) as Hy.
    unfold Binary32.lambert. cbv zeta.
    destruct (Binary32.fsub (Binary32.of_int 1) (S754_finite false m e))
      as [sy|sy| |sy my ey].
    + destruct sy; vm_compute; reflexivity.
    + destruct sy; [vm_compute; reflexivity|destruct Hy].
    + vm_compute; reflexivity.
    + destruct sy; [vm_compute; reflexivity|].
      pose proof (fsqrt_le my ey Hy) as Hl.
      set (l := Binary32.fsqrt (S754_finite false my ey)) in *.
      assert (Hn : l <> S754_nan) by (intro E; rewrite E in Hl; exact Hl).
      unfold Binary32.fneq, SFeqb. rewrite SFcompare_refl by exact Hn.
      cbn [negb]. apply at_most_one_flt. exact Hl.
Qed.

(** The falloff on binary32 is at most one whenever the angle term is not
    below zero (not-a-number included, which the check turns into 0): the
    subtraction [1 - out2] and the square root are both rounded to nearest,
    and neither rounding passes [1.0f]. *)
Theorem lambert_at_most_one_binary32 (out2 : Binary32.float) :
  Binary32.flt out2 (Binary32.of_int 0) = false ->
  Binary32.flt (Binary32.of_int 1) (Binary32.lambert out2) = false.
Proof.
  exact (lambert_le_one out2).
Qed.

(** At the angle term 0.5 the falloff, the rounded square root of 0.5, is
    not above one. *)
Lemma lambert_at_most_one_binary32_witness :
  Binary32.flt (S754_finite false 8388608 (-24)) (Binary32.of_int 0) = false /\
  Binary32.flt (Binary32.of_int 1)
    (Binary32.lambert (S754_finite false 8388608 (-24))) = false.
Proof.
  split; [reflexivity|].
  apply (lambert_at_most_one_binary32 (S754_finite false 8388608 (-24))).
  reflexivity.
Defined.

(** ** The range of the falloff *)

(** A float above one makes [1 - x] a value with the sign bit set. *)
Lemma fsub_one_negative (m : positive) (e : Z) :
  bounded Binary32.prec Binary32.emax m e = true ->
  Binary32.flt (Binary32.of_int 1) (S754_finite false m e) = true ->
  match Binary32.fsub (Binary32.of_int 1) (S754_finite false m e) with
  | S754_zero s | S754_infinity s | S754_finite s _ _ => s = true
  | S754_nan => True
  end.
Proof.
  intros Hb Hlt. change (Binary32.of_int 1) with (S754_finite false 8388608 (-23)) in *.
  unfold bounded, canonical_mantissa in Hb. apply andb_prop in Hb.
  destruct Hb as [Hcan _]. apply Z.eqb_eq in Hcan.
  assert (Hgt : 8388608 * 2 ^ (-23 - Z.min (-23) e)
                < Z.pos m * 2 ^ (e - Z.min (-23) e)).
  { unfold Binary32.flt, SFltb, SFcompare in Hlt.
    destruct (Z.compare_spec (-23) e) as [E|E|E]; try discriminate Hlt.
    - subst e. rewrite Z.min_id. change (2 ^ (-23 - -23)) with 1.
      change (Pos.compare_cont Eq 8388608 m) with (Pos.compare 8388608 m) in Hlt.
      destruct (Pos.compare_spec 8388608 m) as [C|C|C]; try discriminate Hlt.
      lia.
    - rewrite Z.min_l by lia. change (2 ^ (-23 - -23)) with 1.
      unfold fexp, emin, Binary32.prec, Binary32.emax in Hcan.
      assert (Hd : Z.pos (digits2_pos m) = 24) by lia.
      pose proof (digits2_pos_bounds m) as [Hlo _]. rewrite Hd in Hlo.
      change (2 ^ (24 - 1)) with 8388608 in Hlo.
      assert (2 ^ 1 <= 2 ^ (e - -23)) by (apply Z.pow_le_mono_r; lia).
      change (2 ^ 1) with 2 in *. nia. }
  unfold Binary32.fsub, SFsub. cbv zeta.
  set (ez := Z.min (-23) e) in *.
  pose proof (shl_align_spec 8388608 (-23) ez) as HA.
  pose proof (shl_align_spec m e ez) as HB.
  destruct (shl_align 8388608 (-23) ez) as [a ea].
  destruct (shl_align m e ez) as [b eb].
  destruct HA as (_ & HA1 & HA2). destruct HB as (_ & HB1 & HB2).
  specialize (HA1 ltac:(lia)). specialize (HB1 ltac:(lia)). subst ea eb.
  cbn [fst cond_Zopp].
  destruct (Z.pos a - Z.pos b) as [|p|p] eqn:E; [lia|lia|].
  cbn [binary_normalize]. unfold binary_round.
  destruct (shl_align p ez _) as [mz ez'].
  apply binary_round_aux_sign.
Qed.

(** An angle term above one gives the falloff 0. *)
Lemma lambert_above_one_zero (out2 : Binary32.float) :
  valid_binary Binary32.prec Binary32.emax out2 = true ->
  Binary32.flt (Binary32.of_int 1) out2 = true ->
  Binary32.is_zero (Binary32.lambert out2) = true.
Proof.
  intros Hv Hlt. destruct out2 as [s|s| |s m e].
  - destruct s; discriminate Hlt.
  - destruct s; [discriminate Hlt|vm_compute; reflexivity].
  - discriminate Hlt.
  - destruct s; [discriminate Hlt|].
    pose proof (fsub_one_negative m e Hv Hlt) as Hs.
    unfold Binary32.lambert. cbv zeta.
    destruct (Binary32.fsub (Binary32.of_int 1) (S754_finite false m e))
      as [sy|sy| |sy my ey]; try subst sy; reflexivity.
Qed.

Lemma to_Q_not_negative (a : Binary32.float) :
  Binary32.not_negative a = true -> (0 <= Binary32.to_Q a)%Q.
Proof.
  destruct a as [s|s| |s m e]; intro H; try apply Qle_refl.
  destruct s; [discriminate H|]. unfold Binary32.to_Q, cond_Zopp.
  apply Qmult_le_0_compat.
  - unfold Qle. simpl. lia.
  - apply Qpower_0_le. unfold Qle. simpl. lia.
Qed.

(** The falloff of a recorded sample is what the falloff function gave. *)
Lemma sample_body_falloff (rng : nat -> Z) (width : Z)
  (spectrum_p_to_rgb : Q -> Q -> Q * Q * Q) (magnification : Q)
  (lambert : Q -> Q) (fuel : nat) (ll : Z) (system_y : Poly.TruncPolySystem)
  (x_world w : Q) (st st' : Render.state) :
  Render.sample_body rng width spectrum_p_to_rgb magnification lambert
    fuel ll system_y x_world w st = Render.Done st' ->
  exists (s : Render.sample) (q : Q),
    Render.history st' = s :: Render.history st /\
    Render.s_lambert s = lambert q.
Proof.
  unfold Render.sample_body.
  destruct (Render.sample_aperture fuel rng Render.r_pupil (Render.rng_pos st))
    as [[[x y] pos]| |]; cbn [Render.bind]; intro H; try discriminate H.
  injection H as <-. eexists. eexists. split; reflexivity.
Qed.

(** Every sample the Monte Carlo pass splats carries a falloff computed by
    [Binary32.lambert], which is not below zero. *)
Lemma samples_falloff (rng : nat -> Z) (width height : Z)
  (img_in : Z -> Z -> Z -> Q) (spectrum_p_to_rgb : Q -> Q -> Q * Q * Q)
  (spectrum_rgb_to_p : Q -> Q * Q * Q -> Q) (magnification : Q)
  (system_lambert_cos2 : Poly.TruncPolySystem)
  (float_of : Q -> Binary32.float) (fuel : nat) (st : Render.state) :
  Render.monte_carlo rng width height img_in spectrum_p_to_rgb
    spectrum_rgb_to_p magnification system_lambert_cos2
    (Pixel.lambert float_of) fuel = Render.Done st ->
  Forall (fun s => (0 <= Render.s_lambert s)%Q /\
                   exists x : Binary32.float,
                     Render.s_lambert s = Binary32.to_Q (Binary32.lambert x))
         (Render.history st).
Proof.
  apply (monte_carlo_invariant rng width height img_in spectrum_p_to_rgb
           spectrum_rgb_to_p magnification system_lambert_cos2
           (Pixel.lambert float_of)
           (fun st => Forall _ (Render.history st))).
  - intros ll system_y x_world w s s' HI Hrun.
    destruct (sample_body_falloff _ _ _ _ _ _ _ _ _ _ _ _ Hrun)
      as (smp & q & Hh & Hl).
    rewrite Hh. constructor; [|exact HI]. rewrite Hl. unfold Pixel.lambert.
    split.
    + apply to_Q_not_negative. apply lambert_not_nan_not_negative.
    + exists (float_of q). reflexivity.
  - constructor.
Qed.

(** C1, the claim as stated fails: an angle term of -3 is evaluated to a
    falloff of 2, which nothing clamps. *)
Lemma lambert_exceeds_one :
  Binary32.lambert (Binary32.of_int (-3)) = Binary32.of_int 2 /\
  Binary32.flt (Binary32.of_int 1) (Binary32.lambert (Binary32.of_int (-3)))
    = true.
Proof.
  split; vm_compute; reflexivity.
Qed.

(** C1, amended: the falloff of lines 212-215, on the machine's single
    precision and for every [float], is never not-a-number and never below
    zero.  It is not above one for every angle term that is not below zero,
    and exactly zero for not-a-number and for every angle term above one
    (2 gives 0): the clamp covers these.  A falloff above one can only come
    from a negative angle term, which nothing clamps; a negative angle term
    as small as -2^-25 still gives exactly one, as 0 does.  Every sample the
    Monte Carlo pass of [main] splats carries such a falloff. *)
Theorem lambert_range (out2 : Binary32.float) :
  Binary32.lambert out2 <> S754_nan /\
  Binary32.flt (Binary32.lambert out2) (Binary32.of_int 0) = false /\
  (Binary32.flt out2 (Binary32.of_int 0) = false ->
   Binary32.flt (Binary32.of_int 1) (Binary32.lambert out2) = false) /\
  (Binary32.flt (Binary32.of_int 1) (Binary32.lambert out2) = true ->
   Binary32.flt out2 (Binary32.of_int 0) = true) /\
  (valid_binary Binary32.prec Binary32.emax out2 = true ->
   Binary32.flt (Binary32.of_int 1) out2 = true ->
   Binary32.is_zero (Binary32.lambert out2) = true) /\
  Binary32.lambert S754_nan = Binary32.of_int 0 /\
  Binary32.lambert (Binary32.of_int 2) = Binary32.of_int 0 /\
  Binary32.lambert (Binary32.of_int 0) = Binary32.of_int 1 /\
  Binary32.lambert (S754_finite true 8388608 (-48)) = Binary32.of_int 1 /\
  (forall (rng : nat -> Z) (width height : Z) (img_in : Z -> Z -> Z -> Q)
     (spectrum_p_to_rgb : Q -> Q -> Q * Q * Q)
     (spectrum_rgb_to_p : Q -> Q * Q * Q -> Q) (magnification : Q)
     (system_lambert_cos2 : Poly.TruncPolySystem)
     (float_of : Q -> Binary32.float) (fuel : nat) (st : Render.state),
     Render.monte_carlo rng width height img_in spectrum_p_to_rgb
       spectrum_rgb_to_p magnification system_lambert_cos2
       (Pixel.lambert float_of) fuel = Render.Done st ->
     Forall (fun s => (0 <= Render.s_lambert s)%Q /\
                      exists x : Binary32.float,
                        Render.s_lambert s
                        = Binary32.to_Q (Binary32.lambert x))
            (Render.history st)).
Proof.
  destruct (lambert_not_nan_not_negative out2) as [Hnan Hpos].
  split; [exact Hnan|].
  split; [apply not_negative_flt; assumption|].
  split; [apply lambert_le_one|].
  split.
  - intro Habove.
    destruct (Binary32.flt out2 (Binary32.of_int 0)) eqn:E; [reflexivity|].
    rewrite (lambert_le_one out2 E) in Habove. discriminate Habove.
  - split; [apply lambert_above_one_zero|].
    split; [vm_compute; reflexivity|]. split; [vm_compute; reflexivity|].
    split; [vm_compute; reflexivity|]. split; [vm_compute; reflexivity|].
    intros. eapply samples_falloff. eassumption.
Qed.

(** ** The gamut floor and the largest channel *)

Lemma value_le_flt (r : spec_float) (bm : positive) (be : Z) :
  Binary32.value_le r bm be -> SFltb (S754_finite false bm be) r = false.
Proof.
  destruct r as [s|s| |s m e]; cbn [Binary32.value_le];
    try (intros _; reflexivity); try (intros []).
  destruct s; [intros []|]. intros [He Hm]. unfold SFltb, SFcompare.
  destruct (Z.compare_spec be e) as [E|E|E]; try reflexivity; [|lia].
  subst e. rewrite Z.sub_diag in Hm. change (2 ^ 0) with 1 in Hm.
  change (Pos.compare_cont Eq bm m) with (Pos.compare bm m).
  destruct (Pos.compare_spec bm m) as [C|C|C]; try reflexivity. lia.
Qed.

(** [0.02f * m] is not above [m] for a float [m] that is not below zero. *)
Lemma gamut_floor_le (m : Binary32.float) :
  valid_binary Binary32.prec Binary32.emax m = true ->
  Binary32.flt m (Binary32.of_int 0) = false ->
  Binary32.flt m (Binary32.fmul Binary32.gamut_floor m) = false.
Proof.
  intros Hv H0. destruct m as [s|s| |s mm em].
  - destruct s; reflexivity.
  - destruct s; [discriminate H0|reflexivity].
  - reflexivity.
  - destruct s; [discriminate H0|].
    unfold Binary32.fmul, Binary32.gamut_floor, SFmul. cbn [xorb].
    apply value_le_flt. apply binary_round_aux_le.
    + exact Hv.
    + lia.
    + lia.
    + cbn [Binary32.loc_excess].
      replace (em - (-29 + em)) with 29 by lia.
      change (2 ^ 29) with 536870912. lia.
Qed.

(** On binary32 the gamut pass leaves the largest channel of a pixel as it
    is whenever that channel is not below zero: the floor [0.02f * max],
    rounded to nearest, is not above [max]. *)
Theorem gamut_keeps_max_binary32 (c0 c1 c2 : Binary32.float) :
  let max_value := Binary32.fmax c0 (Binary32.fmax c1 c2) in
  valid_binary Binary32.prec Binary32.emax max_value = true ->
  Binary32.flt max_value (Binary32.of_int 0) = false ->
  Binary32.fmax max_value (Binary32.fmul Binary32.gamut_floor max_value)
    = max_value /\
  (max_value = c0 \/ max_value = c1 \/ max_value = c2) /\
  let after := Binary32.gamut_channels (c0, c1, c2) in
  (max_value = c0 -> fst (fst after) = c0) /\
  (max_value = c1 -> snd (fst after) = c1) /\
  (max_value = c2 -> snd after = c2).
Proof.
  cbv zeta. intros Hv H0.
  set (M := Binary32.fmax c0 (Binary32.fmax c1 c2)) in *.
  assert (Hkeep : Binary32.fmax M (Binary32.fmul Binary32.gamut_floor M) = M).
  { unfold Binary32.fmax at 1. rewrite (gamut_floor_le M Hv H0). reflexivity. }
  split; [exact Hkeep|]. split.
  - unfold M, Binary32.fmax.
    destruct (Binary32.flt c1 c2), (Binary32.flt c0 _); auto.
  - unfold Binary32.gamut_channels. fold M. cbn [fst snd].
    repeat split; intro E; rewrite <- E; exact Hkeep.
Qed.

Lemma gamut_keeps_max_binary32_witness :
  let c0 := Binary32.of_int 3 in
  let c1 := S754_finite true 8388608 (-23) in
  let c2 := S754_finite false 8388608 (-24) in
  let max_value := Binary32.fmax c0 (Binary32.fmax c1 c2) in
  max_value = c0 /\
  Binary32.fmax max_value (Binary32.fmul Binary32.gamut_floor max_value)
    = max_value /\
  Binary32.gamut_channels (c0, c1, c2)
  = (c0, Binary32.fmul Binary32.gamut_floor c0,
     S754_finite false 8388608 (-24)).
Proof.
  cbv zeta. split; [reflexivity|].
  split.
  - apply (gamut_keeps_max_binary32 (Binary32.of_int 3)
             (S754_finite true 8388608 (-23))
             (S754_finite false 8388608 (-24))); reflexivity.
  - vm_compute. reflexivity.
Defined.

(** ** The weight of a single sample *)

Lemma div_eucl_exact (q b : Z) : 0 < b -> Z.div_eucl (q * b) b = (q, 0).
Proof.
  intro Hb.
  pose proof (Z.div_mul q b) as Hq. pose proof (Z.mod_mul q b) as Hr.
  unfold Z.div, Z.modulo in Hq, Hr.
  destruct (Z.div_eucl (q * b) b) as [q' r']. simpl in Hq, Hr.
  rewrite Hq, Hr by lia. reflexivity.
Qed.

(** Rounding a canonical mantissa, as it is or shifted left by one bit,
    gives the float back. *)
Lemma round_exact (s : bool) (m : positive) (e : Z) :
  bounded Binary32.prec Binary32.emax m e = true ->
  binary_round_aux Binary32.prec Binary32.emax s (Z.pos m) e loc_Exact
  = S754_finite s m e.
Proof.
  intro Hb. unfold bounded, canonical_mantissa in Hb.
  apply andb_prop in Hb. destruct Hb as [Hc He].
  apply Z.eqb_eq in Hc.
  unfold binary_round_aux, shr_fexp. cbn [Zdigits2].
  rewrite Hc, Z.sub_diag.
  cbn [shr shr_record_of_loc shr_m loc_of_shr_record round_nearest_even
       Zdigits2].
  rewrite Hc, Z.sub_diag. cbn [shr shr_m]. rewrite He. reflexivity.
Qed.

Lemma round_exact_shift1 (s : bool) (m : positive) (e : Z) :
  bounded Binary32.prec Binary32.emax m e = true ->
  binary_round_aux Binary32.prec Binary32.emax s (Z.pos m~0) (e - 1) loc_Exact
  = S754_finite s m e.
Proof.
  intro Hb. unfold bounded, canonical_mantissa in Hb.
  apply andb_prop in Hb. destruct Hb as [Hc He].
  apply Z.eqb_eq in Hc.
  unfold binary_round_aux, shr_fexp.
  cbn [Zdigits2 digits2_pos]. rewrite Pos2Z.inj_succ.
  replace (Z.succ (Z.pos (digits2_pos m)) + (e - 1))
    with (Z.pos (digits2_pos m) + e) by lia.
  rewrite Hc. replace (e - (e - 1)) with 1 by lia.
  cbn [shr shr_record_of_loc iter_pos shr_1 shr_m loc_of_shr_record
       round_nearest_even Zdigits2 orb].
  replace (e - 1 + 1) with e by lia.
  rewrite Hc, Z.sub_diag. cbn [shr shr_m]. rewrite He. reflexivity.
Qed.

(** On binary32 the weight of a pixel that is given one sample is the
    pixel's power itself, bit for bit: [L_in / 1] is computed as
    [L_in / 1.0f], and that division is exact for every float, the
    infinities and not-a-number included. *)
Theorem weight_of_one_sample_binary32 (L_in : Binary32.float) :
  valid_binary Binary32.prec Binary32.emax L_in = true ->
  Binary32.sample_weight L_in 1 = L_in.
Proof.
  intro Hv. unfold Binary32.sample_weight.
  change (Binary32.of_int 1) with (S754_finite false 8388608 (-23)).
  destruct L_in as [s|s| |s m e]; try (destruct s; reflexivity); try reflexivity.
  cbn [valid_binary] in Hv.
  unfold Binary32.fdiv, SFdiv, SFdiv_core_binary.
  change (Zdigits2 (Z.pos 8388608)) with 24.
  change (Zdigits2 (Z.pos m)) with (Z.pos (digits2_pos m)).
  rewrite xorb_false_r.
  pose proof Hv as Hb. unfold bounded, canonical_mantissa in Hb.
  apply andb_prop in Hb. destruct Hb as [Hc _]. apply Z.eqb_eq in Hc.
  unfold fexp, emin, Binary32.prec, Binary32.emax in Hc.
  set (d := Z.pos (digits2_pos m)) in *.
  assert (Hd : 0 < d) by (unfold d; lia).
  destruct (Z.eq_dec e (-149)) as [E|E].
  - (* the exponent is the smallest: the quotient is the mantissa *)
    assert (He' : Z.min (fexp Binary32.prec Binary32.emax (d + e - (24 + -23)))
                    (e - -23) = -149).
    { unfold fexp, emin, Binary32.prec, Binary32.emax. lia. }
    rewrite He'. subst e.
    change (-149 - -23 - -149) with 23.
    rewrite Z.shiftl_mul_pow2 by lia. change (2 ^ 23) with 8388608.
    rewrite div_eucl_exact by lia.
    change (new_location 8388608 0) with loc_Exact.
    apply round_exact. exact Hv.
  - assert (He' : Z.min (fexp Binary32.prec Binary32.emax (d + e - (24 + -23)))
                    (e - -23) = e - 1).
    { unfold fexp, emin, Binary32.prec, Binary32.emax. lia. }
    rewrite He'.
    replace (e - -23 - (e - 1)) with 24 by lia.
    rewrite Z.shiftl_mul_pow2 by lia.
    replace (Z.pos m * 2 ^ 24) with (Z.pos m~0 * 8388608) by (change (2 ^ 24) with 16777216; lia).
    rewrite div_eucl_exact by lia.
    change (new_location 8388608 0) with loc_Exact.
    apply round_exact_shift1. exact Hv.
Qed.

Lemma weight_of_one_sample_binary32_witness :
  valid_binary Binary32.prec Binary32.emax (S754_finite true 10737418 (-31))
    = true /\
  Binary32.sample_weight (S754_finite true 10737418 (-31)) 1
    = S754_finite true 10737418 (-31).
Proof.
  split; [reflexivity|].
  apply (weight_of_one_sample_binary32 (S754_finite true 10737418 (-31))).
  reflexivity.
Defined.

(** ** The random fraction *)

Lemma new_location_excess (nb r : Z) :
  Binary32.loc_excess (new_location nb r) = if r =? 0 then 0 else 1.
Proof.
  unfold new_location, new_location_even, new_location_odd.
  destruct (Z.even nb); destruct (r =? 0); reflexivity.
Qed.

(** A quotient of a float that is at most 2^31 by 2^31 is at most one. *)
Lemma fdiv_rand_max_le (m : positive) (e : Z) :
  Binary32.value_le (S754_finite false m e) 8388608 8 ->
  Binary32.at_most_one
    (Binary32.fdiv (S754_finite false m e) (S754_finite false 8388608 8)).
Proof.
  cbn [Binary32.value_le]. intros [He Hm].
  unfold Binary32.fdiv, SFdiv, SFdiv_core_binary. cbn [xorb].
  change (Zdigits2 (Z.pos 8388608)) with 24.
  set (d := Zdigits2 (Z.pos m)).
  set (e' := Z.min (fexp Binary32.prec Binary32.emax (d + e - (24 + 8))) (e - 8)).
  set (s := e - 8 - e').
  assert (Hm1 : Z.pos m <= 2 ^ (31 - e)).
  { replace (31 - e) with (23 + (8 - e)) by lia. rewrite Z.pow_add_r by lia.
    exact Hm. }
  assert (Hd : d <= 32 - e).
  { apply Zdigits2_le; [lia|lia|].
    replace (32 - e) with (31 - e + 1) by lia. rewrite Z.pow_add_r by lia.
    assert (0 < 2 ^ (31 - e)) by (apply Z.pow_pos_nonneg; lia).
    change (2 ^ 1) with 2. lia. }
  assert (He' : e' <= -23).
  { assert (fexp Binary32.prec Binary32.emax (d + e - (24 + 8)) <= -24).
    { unfold fexp, emin, Binary32.prec, Binary32.emax. lia. }
    unfold e'. lia. }
  assert (Hs : 0 <= s) by (unfold s, e'; lia).
  set (m' := match s with
             | 0 => Z.pos m
             | Z.pos _ => Z.shiftl (Z.pos m) s
             | Z.neg _ => 0
             end).
  assert (Hm' : m' = Z.pos m * 2 ^ s).
  { unfold m'. destruct s as [|p|p] eqn:Es; [simpl; lia| |lia].
    rewrite Z.shiftl_mul_pow2 by lia. reflexivity. }
  clearbody m'.
  pose proof (Z.div_eucl_eq m' 8388608 ltac:(lia)) as Heq.
  pose proof (Z.mod_pos_bound m' 8388608 ltac:(lia)) as Hr.
  unfold Z.modulo in Hr.
  destruct (Z.div_eucl m' 8388608) as [q r].
  assert (H2s : 0 < 2 ^ s) by (apply Z.pow_pos_nonneg; lia).
  set (T := 2 ^ (- e')).
  assert (HT : 0 < T) by (apply Z.pow_pos_nonneg; lia).
  assert (Hbound : m' <= 8388608 * T).
  { rewrite Hm'. unfold T.
    replace (- e') with (31 - e + s - 23) by (unfold s; lia).
    assert (E : 2 ^ (31 - e + s) = 8388608 * 2 ^ (31 - e + s - 23)).
    { change 8388608 with (2 ^ 23). rewrite <- Z.pow_add_r by lia.
      f_equal. lia. }
    rewrite <- E. rewrite Z.pow_add_r by lia. nia. }
  unfold Binary32.at_most_one.
  apply binary_round_aux_le; [reflexivity|nia|exact He'|].
  replace (Z.pos 8388608 * 2 ^ (-23 - e')) with T.
  2:{ unfold T. replace (- e') with (23 + (-23 - e')) by lia.
      rewrite Z.pow_add_r by lia. reflexivity. }
  rewrite new_location_excess.
  destruct (Z.eqb_spec r 0) as [Er|Er]; nia.
Qed.

(** [rand() / (float)RAND_MAX] is a number of [0, 1] for every value
    [rand()] can return: the conversions round both operands, [RAND_MAX]
    up to 2^31, and the quotient is rounded again, yet it is never above
    one, never below zero and never not-a-number; it is 1 at [RAND_MAX] and
    0 at 0. *)
Theorem unit_rand_binary32 (r : Z) :
  0 <= r <= Render.RAND_MAX ->
  Binary32.flt (Binary32.of_int 1) (Binary32.unit_rand r) = false /\
  Binary32.flt (Binary32.unit_rand r) (Binary32.of_int 0) = false /\
  Binary32.unit_rand r <> S754_nan /\
  Binary32.unit_rand Render.RAND_MAX = Binary32.of_int 1 /\
  Binary32.unit_rand 0 = Binary32.of_int 0.
Proof.
  intros [Hlo Hhi]. unfold Render.RAND_MAX in Hhi.
  assert (Hone : Binary32.at_most_one (Binary32.unit_rand r)).
  { unfold Binary32.unit_rand.
    change (Binary32.of_int 2147483647) with (S754_finite false 8388608 8).
    destruct r as [|p|p]; [exact I| |lia].
    assert (Hv : Binary32.value_le (Binary32.of_int (Z.pos p)) 8388608 8).
    { unfold Binary32.of_int. cbn [binary_normalize].
      apply binary_round_le; [reflexivity|lia|].
      change (2 ^ (8 - 0)) with 256. lia. }
    destruct (Binary32.of_int (Z.pos p)) as [s|s| |s m e];
      cbn [Binary32.value_le] in Hv; try contradiction.
    - exact I.
    - destruct s; [contradiction|]. apply fdiv_rand_max_le. exact Hv. }
  split; [apply at_most_one_flt; exact Hone|].
  split.
  - unfold Binary32.at_most_one in Hone.
    destruct (Binary32.unit_rand r) as [s|s| |s m e];
      cbn [Binary32.value_le] in Hone; try contradiction.
    + destruct s; reflexivity.
    + destruct s; [contradiction|reflexivity].
  - split.
    + intro E. rewrite E in Hone. exact Hone.
    + split; vm_compute; reflexivity.
Qed.

Lemma unit_rand_binary32_witness :
  (0 <= 1073741824 <= Render.RAND_MAX) /\
  Binary32.flt (Binary32.of_int 1) (Binary32.unit_rand 1073741824) = false /\
  Binary32.unit_rand 1073741824 = S754_finite false 8388608 (-24).
Proof.
  split; [unfold Render.RAND_MAX; lia|].
  split; [|vm_compute; reflexivity].
  apply (unit_rand_binary32 1073741824). unfold Render.RAND_MAX. lia.
Defined.

End Binary32Rounding.

(** * Further properties of the renderer *)

(** ** The wavelength grid *)

Lemma inject_Z_succ (z : Z) : inject_Z (z + 1) == inject_Z z + 1.
Proof. rewrite inject_Z_plus. reflexivity. Qed.

Lemma inject_Z_pos_lt (z : Z) : (0 < z)%Z -> 0 < inject_Z z.
Proof. intro H. change 0 with (inject_Z 0). rewrite <- Zlt_Qlt. exact H. Qed.

Lemma inject_Z_nonzero (z : Z) : (z <> 0)%Z -> ~ inject_Z z == 0.
Proof.
  intros H E. apply H. unfold Qeq in E. simpl in E. lia.
Qed.

(** The wavelength bins (lines 122-126, 151-154): with two bins or more the
    first is at [lambda_from] = 440, the last at [lambda_to] = 660, they are
    evenly spaced and stay in the range; a single bin is at 550.  The twelve
    bins of the program are 20 apart. *)
Theorem wavelength_bins (n ll : Z) :
  Render.lambda_of ll = Render.lambda_bin Render.num_lambdas ll /\
  Render.lambda_of ll == 440 + 20 * inject_Z ll /\
  Render.lambda_bin 1 ll = 550 /\
  ((2 <= n)%Z ->
   Render.lambda_bin n 0 == Render.lambda_from /\
   Render.lambda_bin n (n - 1) == Render.lambda_to /\
   Render.lambda_bin n (ll + 1) - Render.lambda_bin n ll
     == (Render.lambda_to - Render.lambda_from) / inject_Z (n - 1) /\
   ((0 <= ll <= n - 1)%Z ->
    Render.lambda_from <= Render.lambda_bin n ll <= Render.lambda_to)).
Proof.
  split; [reflexivity|]. split.
  { unfold Render.lambda_of, Render.num_lambdas, Render.lambda_from,
      Render.lambda_to. simpl Z.eqb. cbv iota.
    change (inject_Z (12 - 1)) with (11 # 1). field. }
  split; [reflexivity|]. intro Hn.
  unfold Render.lambda_bin.
  destruct (Z.eqb_spec n 1) as [E|_]; [lia|].
  assert (Hd : 0 < inject_Z (n - 1)) by (apply inject_Z_pos_lt; lia).
  assert (Hd' : ~ inject_Z (n - 1) == 0) by (intro E; rewrite E in Hd; lqa).
  unfold Render.lambda_from, Render.lambda_to.
  split; [change (inject_Z 0) with 0; field; exact Hd'|].
  split; [field; exact Hd'|].
  split; [rewrite inject_Z_succ; field; exact Hd'|].
  intros [Hlo Hhi].
  assert (H0 : 0 <= inject_Z ll) by (change 0 with (inject_Z 0); rewrite <- Zle_Qle; exact Hlo).
  assert (H1 : inject_Z ll <= inject_Z (n - 1)) by (rewrite <- Zle_Qle; exact Hhi).
  assert (Hq : 0 <= inject_Z ll / inject_Z (n - 1) <= 1).
  { split.
    - apply Qle_shift_div_l; [exact Hd|]. lqa.
    - apply Qle_shift_div_r; [exact Hd|]. lqa. }
  split; lqa.
Qed.

(** ** Pixel footprints in the world plane *)

Lemma unit_rand_range (r : Z) :
  (0 <= r <= Render.RAND_MAX)%Z -> 0 <= Render.unit_rand r <= 1.
Proof.
  intros [Hlo Hhi]. unfold Render.unit_rand.
  assert (Hm : 0 < inject_Z Render.RAND_MAX) by reflexivity.
  assert (H0 : 0 <= inject_Z r)
    by (change 0 with (inject_Z 0); rewrite <- Zle_Qle; exact Hlo).
  assert (H1 : inject_Z r <= inject_Z Render.RAND_MAX)
    by (rewrite <- Zle_Qle; exact Hhi).
  split.
  - apply Qle_shift_div_l; [exact Hm|]. lqa.
  - apply Qle_shift_div_r; [exact Hm|]. lqa.
Qed.

(** Columns are one [pixel_size] apart in the world plane, and the jitter of
    line 201 spreads a column's samples over exactly one [pixel_size] around
    its [x_world]: the footprint of column [i] ends where that of column
    [i + 1] begins. *)
Theorem pixel_footprints_tile (i width : Z) (magnification : Q) (r : Z) :
  (width <> 0)%Z -> ~ magnification == 0 ->
  let pixel_size := Render.pixel_size width magnification in
  let x := Geometry.x_world i width Render.sensor_width magnification in
  let x' := Geometry.x_world (i + 1) width Render.sensor_width magnification in
  x' - x == pixel_size /\
  Render.jittered x pixel_size 0 == x - pixel_size / 2 /\
  Render.jittered x pixel_size Render.RAND_MAX == x + pixel_size / 2 /\
  Render.jittered x pixel_size Render.RAND_MAX
    == Render.jittered x' pixel_size 0 /\
  ((0 <= r <= Render.RAND_MAX)%Z ->
   (0 <= pixel_size ->
    x - pixel_size / 2 <= Render.jittered x pixel_size r
                       <= x + pixel_size / 2) /\
   (pixel_size <= 0 ->
    x + pixel_size / 2 <= Render.jittered x pixel_size r
                       <= x - pixel_size / 2)).
Proof.
  intros Hw Hm. cbv zeta.
  pose proof (inject_Z_nonzero width Hw) as Hw'.
  assert (Hpitch :
    Geometry.x_world (i + 1) width Render.sensor_width magnification
    - Geometry.x_world i width Render.sensor_width magnification
    == Render.pixel_size width magnification).
  { unfold Geometry.x_world, Geometry.x_sensor, Render.pixel_size.
    rewrite inject_Z_succ. field. repeat split; assumption. }
  assert (H0 : forall x p, Render.jittered x p 0 == x - p / 2).
  { intros x p. unfold Render.jittered, Render.unit_rand.
    change (inject_Z 0) with 0.
    change (inject_Z Render.RAND_MAX) with (2147483647 # 1).
    field; discriminate. }
  assert (H1 : forall x p, Render.jittered x p Render.RAND_MAX == x + p / 2).
  { intros x p. unfold Render.jittered, Render.unit_rand.
    change (inject_Z Render.RAND_MAX) with (2147483647 # 1).
    field; discriminate. }
  split; [exact Hpitch|]. split; [apply H0|]. split; [apply H1|]. split.
  - rewrite H0, H1.
    set (a := Geometry.x_world i width Render.sensor_width magnification) in *.
    set (b := Geometry.x_world (i + 1) width Render.sensor_width magnification)
      in *.
    set (p := Render.pixel_size width magnification) in *.
    unfold Qdiv. change (/ 2) with (1 # 2). lqa.
  - intro Hr. pose proof (unit_rand_range r Hr) as [Hu0 Hu1].
    unfold Render.jittered.
    set (u := Render.unit_rand r) in *.
    set (p := Render.pixel_size width magnification).
    set (a := Geometry.x_world i width Render.sensor_width magnification).
    unfold Qdiv. change (/ 2) with (1 # 2).
    split; intro Hp.
    + assert (Hpu : 0 <= p * u <= p) by (split; nqa).
      destruct Hpu. split; lqa.
    + assert (Hpu : p <= p * u <= 0) by (split; nqa).
      destruct Hpu. split; lqa.
Qed.

Lemma pixel_footprints_tile_witness :
  (1920 <> 0)%Z /\ ~ - (1 # 40) == 0 /\
  let pixel_size := Render.pixel_size 1920 (- (1 # 40)) in
  let x := Geometry.x_world 7 1920 Render.sensor_width (- (1 # 40)) in
  let x' := Geometry.x_world (7 + 1) 1920 Render.sensor_width (- (1 # 40)) in
  x' - x == pixel_size /\
  Render.jittered x pixel_size 0 == x - pixel_size / 2 /\
  Render.jittered x pixel_size Render.RAND_MAX == x + pixel_size / 2 /\
  Render.jittered x pixel_size Render.RAND_MAX
    == Render.jittered x' pixel_size 0 /\
  ((0 <= 5 <= Render.RAND_MAX)%Z ->
   (0 <= pixel_size ->
    x - pixel_size / 2 <= Render.jittered x pixel_size 5
                       <= x + pixel_size / 2) /\
   (pixel_size <= 0 ->
    x + pixel_size / 2 <= Render.jittered x pixel_size 5
                       <= x - pixel_size / 2)).
Proof.
  split; [lia|]. split; [discriminate|].
  apply (pixel_footprints_tile 7 1920 (- (1 # 40)) 5); [lia|discriminate].
Defined.

(** [pixel_body] runs its samples at [Geometry.x_world]. *)
Lemma pixel_body_x_world (rng : nat -> Z) (width : Z)
  (img_in : Z -> Z -> Z -> Q) (spectrum_p_to_rgb : Q -> Q -> Q * Q * Q)
  (spectrum_rgb_to_p : Q -> Q * Q * Q -> Q) (magnification : Q)
  (lambert : Q -> Q) (fuel : nat) (ll : Z) (system_y : Poly.TruncPolySystem)
  (j i n : Z) (st : Render.state) :
  let L_in :=
    spectrum_rgb_to_p (Render.lambda_of ll)
      (img_in i j 0%Z, img_in i j 1%Z, img_in i j 2%Z) in
  Sampling.num_samples L_in Sampling.sample_mul = Some n ->
  Render.pixel_body rng width img_in spectrum_p_to_rgb spectrum_rgb_to_p
    magnification lambert fuel ll system_y j i st =
  Render.for_range n
    (fun _ =>
       Render.sample_body rng width spectrum_p_to_rgb magnification lambert
         fuel ll system_y
         (Geometry.x_world i width Render.sensor_width magnification)
         (Sampling.sample_weight L_in n)) st.
Proof.
  cbv zeta. intro E. unfold Render.pixel_body. rewrite E. reflexivity.
Qed.

(** ** From sensor coordinates to output pixels *)

(** The output mapping of lines 208-209 undoes the pixel-to-sensor mapping
    of lines 165 and 173 up to the ratio of the two image widths: column [i]
    of an input [width] wide lands on output column [i * 1920 / width], row
    [j] on [(j - height/2) * 1920 / width + 540]; for an input of the
    sensor's own resolution each pixel lands on itself. *)
Theorem sensor_pixel_round_trip (i j width height : Z) :
  (width <> 0)%Z ->
  Render.to_pixel_x (Geometry.x_sensor i width Render.sensor_width)
    == inject_Z i * (inject_Z Render.sensor_xres / inject_Z width) /\
  Render.to_pixel_y (Geometry.y_sensor j height width Render.sensor_width)
    == inject_Z (j - height ÷ 2) * (inject_Z Render.sensor_xres / inject_Z width)
       + inject_Z (Render.sensor_yres ÷ 2) /\
  Render.to_pixel_x
    (Geometry.x_sensor i Render.sensor_xres Render.sensor_width) == inject_Z i /\
  Render.to_pixel_y
    (Geometry.y_sensor j Render.sensor_yres Render.sensor_xres
       Render.sensor_width) == inject_Z j.
Proof.
  intro Hw. pose proof (inject_Z_nonzero width Hw) as Hw'.
  unfold Render.to_pixel_x, Render.to_pixel_y, Geometry.x_sensor,
    Geometry.y_sensor, Render.sensor_scaling, Render.sensor_width,
    Render.sensor_xres, Render.sensor_yres.
  change (inject_Z (1920 ÷ 2)) with (960 # 1).
  change (inject_Z (1080 ÷ 2)) with (540 # 1).
  change (inject_Z 1920) with (1920 # 1).
  change (inject_Z 1080) with (1080 # 1).
  change (1080 ÷ 2)%Z with 540%Z.
  split; [field; exact Hw'|]. split; [field; exact Hw'|].
  split; [field|].
  unfold Z.sub. rewrite inject_Z_plus, inject_Z_opp.
  change (inject_Z 540) with (540 # 1). field.
Qed.

Lemma sensor_pixel_round_trip_witness :
  (960 <> 0)%Z /\
  Render.to_pixel_x (Geometry.x_sensor 3 960 Render.sensor_width)
    == inject_Z 3 * (inject_Z Render.sensor_xres / inject_Z 960) /\
  Render.to_pixel_y (Geometry.y_sensor 4 540 960 Render.sensor_width)
    == inject_Z (4 - 540 ÷ 2) * (inject_Z Render.sensor_xres / inject_Z 960)
       + inject_Z (Render.sensor_yres ÷ 2) /\
  Render.to_pixel_x
    (Geometry.x_sensor 3 Render.sensor_xres Render.sensor_width) == inject_Z 3 /\
  Render.to_pixel_y
    (Geometry.y_sensor 4 Render.sensor_yres Render.sensor_xres
       Render.sensor_width) == inject_Z 4.
Proof.
  split; [lia|]. apply (sensor_pixel_round_trip 3 4 960 540). lia.
Defined.

(** ** The random numbers of one sample *)

Lemma accepted_at_shift (rng : nat -> Z) (r : Q) (pos k : nat) :
  Render.accepted_at rng r (S (S pos)) k <-> Render.accepted_at rng r pos (S k).
Proof.
  unfold Render.accepted_at.
  replace (pos + 2 * S k)%nat with (S (S pos) + 2 * k)%nat by lia.
  tauto.
Qed.

Lemma sample_aperture_first (rng : nat -> Z) (r : Q) (fuel : nat) :
  forall (pos : nat) (x y : Q) (pos' : nat),
  Render.sample_aperture fuel rng r pos = Render.Done (x, y, pos') ->
  exists k : nat,
    (k < fuel)%nat /\ pos' = (pos + 2 * k + 2)%nat /\
    x = Render.aperture_coord r (rng (pos + 2 * k)%nat) /\
    y = Render.aperture_coord r (rng (S (pos + 2 * k))) /\
    Render.accepted_at rng r pos k /\
    (forall k', (k' < k)%nat -> ~ Render.accepted_at rng r pos k').
Proof.
  induction fuel as [|fuel IH]; intros pos x y pos' H; [discriminate H|].
  cbn [Render.sample_aperture] in H. cbv zeta in H.
  destruct (Render.rejected r _ _) eqn:E.
  - destruct (IH _ _ _ _ H) as (k & Hk & Hp & Hx & Hy & Ha & Hn).
    exists (S k).
    replace (pos + 2 * S k)%nat with (S (S pos) + 2 * k)%nat by lia.
    split; [lia|]. split; [lia|]. split; [exact Hx|]. split; [exact Hy|].
    split; [exact (proj1 (accepted_at_shift rng r pos k) Ha)|].
    intros k' Hk' Hacc. destruct k' as [|k'].
    + unfold Render.accepted_at in Hacc.
      replace (pos + 2 * 0)%nat with pos in Hacc by lia. congruence.
    + apply (Hn k'); [lia|].
      exact (proj2 (accepted_at_shift rng r pos k') Hacc).
  - injection H as <- <- <-. exists 0%nat.
    replace (pos + 2 * 0)%nat with pos by lia.
    split; [lia|]. split; [lia|]. split; [reflexivity|]. split; [reflexivity|].
    split.
    + unfold Render.accepted_at. replace (pos + 2 * 0)%nat with pos by lia.
      exact E.
    + intros k' Hk'. lia.
Qed.

Section SampleDraws.

Variable rng : nat -> Z.
Variable width : Z.
Variable spectrum_p_to_rgb : Q -> Q -> Q * Q * Q.
Variable magnification : Q.
Variable lambert : Q -> Q.

Local Abbreviation sample_body :=
  (Render.sample_body rng width spectrum_p_to_rgb magnification lambert).

(** One pass of the sample loop (lines 189-221) that completes has met
    [k] rejected candidate pairs and then an accepted one, and has drawn
    [2 * k + 3] random numbers: the accepted pair is the aperture point, the
    number after it the jitter.  The sample it splats is the row transform
    evaluated at (jittered world x, aperture x, aperture y), mapped to
    pixels. *)
Theorem sample_draws (fuel : nat) (ll : Z) (system_y : Poly.TruncPolySystem)
  (x_world w : Q) (st st' : Render.state) :
  sample_body fuel ll system_y x_world w st = Render.Done st' ->
  exists k : nat,
    let pos := (Render.rng_pos st + 2 * k)%nat in
    let x_ap := Render.aperture_coord Render.r_pupil (rng pos) in
    let y_ap := Render.aperture_coord Render.r_pupil (rng (S pos)) in
    let out :=
      Poly.evaluate system_y
        [Render.jittered x_world (Render.pixel_size width magnification)
           (rng (S (S pos))); x_ap; y_ap] in
    let s :=
      Render.mkSample x_ap y_ap w (lambert (nth 2 out 0))
        (spectrum_p_to_rgb (Render.lambda_of ll) 1)
        (Render.to_pixel_x (nth 0 out 0)) (Render.to_pixel_y (nth 1 out 0)) in
    (k < fuel)%nat /\
    (forall k', (k' < k)%nat ->
       ~ Render.accepted_at rng Render.r_pupil (Render.rng_pos st) k') /\
    Render.accepted_at rng Render.r_pupil (Render.rng_pos st) k /\
    st' = Render.mkState (S (S (S pos))) (Render.splat s (Render.img_out st))
            (s :: Render.history st).
Proof.
  unfold Render.sample_body. intro H.
  destruct (Render.sample_aperture fuel rng Render.r_pupil (Render.rng_pos st))
    as [[[x y] pos']| |] eqn:E; cbn [Render.bind] in H; try discriminate H.
  destruct (sample_aperture_first _ _ _ _ _ _ _ E)
    as (k & Hk & Hp & Hx & Hy & Ha & Hn).
  exists k. cbv zeta.
  split; [exact Hk|]. split; [exact Hn|]. split; [exact Ha|].
  injection H as <-.
  assert (Hp' : pos' = S (S (Render.rng_pos st + 2 * k))) by lia.
  rewrite Hp', Hx, Hy. reflexivity.
Qed.

End SampleDraws.

Lemma sample_draws_witness :
  exists st' : Render.state,
    Render.sample_body example_rng_centre 1 example_p_to_rgb 1 example_lambert
      1 0 example_system 0 (1 # 1000) Render.initial_state = Render.Done st' /\
    exists k : nat,
      let pos := (Render.rng_pos Render.initial_state + 2 * k)%nat in
      let x_ap :=
        Render.aperture_coord Render.r_pupil (example_rng_centre pos) in
      let y_ap :=
        Render.aperture_coord Render.r_pupil (example_rng_centre (S pos)) in
      let out :=
        Poly.evaluate example_system
          [Render.jittered 0 (Render.pixel_size 1 1)
             (example_rng_centre (S (S pos))); x_ap; y_ap] in
      let s :=
        Render.mkSample x_ap y_ap (1 # 1000) (example_lambert (nth 2 out 0))
          (example_p_to_rgb (Render.lambda_of 0) 1)
          (Render.to_pixel_x (nth 0 out 0))
          (Render.to_pixel_y (nth 1 out 0)) in
      (k < 1)%nat /\
      (forall k', (k' < k)%nat ->
         ~ Render.accepted_at example_rng_centre Render.r_pupil
             (Render.rng_pos Render.initial_state) k') /\
      Render.accepted_at example_rng_centre Render.r_pupil
        (Render.rng_pos Render.initial_state) k /\
      st' = Render.mkState (S (S (S pos)))
              (Render.splat s (Render.img_out Render.initial_state))
              (s :: Render.history Render.initial_state).
Proof.
  assert (H : Render.is_done
                (Render.sample_body example_rng_centre 1 example_p_to_rgb 1
                   example_lambert 1 0 example_system 0 (1 # 1000)
                   Render.initial_state) = true)
    by (vm_compute; reflexivity).
  destruct (Render.sample_body example_rng_centre 1 example_p_to_rgb 1
              example_lambert 1 0 example_system 0 (1 # 1000)
              Render.initial_state) as [st'| |] eqn:E; try discriminate H.
  exists st'. split; [reflexivity|].
  exact (sample_draws example_rng_centre 1 example_p_to_rgb 1 example_lambert
           1 0 example_system 0 (1 # 1000) Render.initial_state st' E).
Defined.

(** ** Black and empty input images *)

Lemma for_loop_preserves_range {S : Type} (I : S -> Prop)
  (body : Z -> S -> Render.outcome S) :
  forall (n : nat) (i : Z),
  (forall k, (i <= k < i + Z.of_nat n)%Z -> Render.preserves I (body k)) ->
  Render.preserves I (Render.for_loop n i body).
Proof.
  induction n as [|n IH]; intros i H s s' Hs Hrun; cbn [Render.for_loop] in Hrun.
  - injection Hrun as <-. exact Hs.
  - destruct (body i s) as [s1| |] eqn:E; cbn [Render.bind] in Hrun;
      try discriminate Hrun.
    apply (IH (i + 1)%Z) with (s := s1).
    + intros k Hk. apply H. lia.
    + apply (H i ltac:(lia) s s1 Hs E).
    + exact Hrun.
Qed.

Lemma for_range_preserves_range {S : Type} (I : S -> Prop)
  (body : Z -> S -> Render.outcome S) (count : Z) :
  (forall k, (0 <= k < count)%Z -> Render.preserves I (body k)) ->
  Render.preserves I (Render.for_range count body).
Proof.
  intro H. apply for_loop_preserves_range. intros k Hk. apply H. lia.
Qed.

Lemma for_loop_skips {S : Type} (body : Z -> S -> Render.outcome S) :
  (forall i s, body i s = Render.Done s) ->
  forall n i s, Render.for_loop n i body s = Render.Done s.
Proof.
  intros H n. induction n as [|n IH]; intros i s; cbn [Render.for_loop].
  - reflexivity.
  - rewrite H. cbn [Render.bind]. apply IH.
Qed.

Lemma for_range_empty {S : Type} (body : Z -> S -> Render.outcome S)
  (count : Z) (s : S) :
  (count <= 0)%Z -> Render.for_range count body s = Render.Done s.
Proof.
  intro H. unfold Render.for_range.
  replace (Z.to_nat count) with 0%nat by lia. reflexivity.
Qed.

Lemma iterate_invariant {S : Type} (P : S -> Prop) (body : Z -> S -> S) :
  (forall i s, P s -> P (body i s)) ->
  forall n i s, P s -> P (Image.iterate n i body s).
Proof.
  intros H n. induction n as [|n IH]; intros i s Hs; cbn [Image.iterate].
  - exact Hs.
  - apply IH. apply H. exact Hs.
Qed.

(** The gamut pass keeps the dimensions of the image. *)
Lemma gamut_pass_shape (xres yres : Z) (img : Image.CImg) :
  Image.width (Image.gamut_pass xres yres img) = Image.width img /\
  Image.height (Image.gamut_pass xres yres img) = Image.height img /\
  Image.spectrum (Image.gamut_pass xres yres img) = Image.spectrum img.
Proof.
  unfold Image.gamut_pass.
  apply (iterate_invariant
           (fun im => Image.width im = Image.width img /\
                      Image.height im = Image.height img /\
                      Image.spectrum im = Image.spectrum img));
    [|repeat split].
  intros j im Him.
  apply (iterate_invariant
           (fun im => Image.width im = Image.width img /\
                      Image.height im = Image.height img /\
                      Image.spectrum im = Image.spectrum img));
    [|exact Him].
  intros i im' Him'. exact Him'.
Qed.

Lemma fmax_zero (a b : Q) : a == 0 -> b == 0 -> fmax a b == 0.
Proof. intros Ha Hb. unfold fmax. destruct (Qltb a b); assumption. Qed.

(** The gamut pass keeps an image that is zero everywhere. *)
Lemma gamut_pass_zero (xres yres : Z) (img : Image.CImg) :
  (forall x y c, Image.data img x y c == 0) ->
  forall x y c, Image.data (Image.gamut_pass xres yres img) x y c == 0.
Proof.
  intros Hz x y c. unfold Image.gamut_pass. rewrite gamut_rows.
  destruct (_ && _ && _ && _); [|apply Hz].
  assert (Hm : Image.gamut_floor
               * Image.max_channel (Image.channels img x y) == 0).
  { unfold Image.channels, Image.max_channel.
    rewrite (fmax_zero _ _ (Hz x y 0%Z)
               (fmax_zero _ _ (Hz x y 1%Z) (Hz x y 2%Z))). ring. }
  pose proof (gamut_pixel_channels img x y) as Hc.
  set (after := Image.gamut_pixel img x y) in *.
  assert (H0 : Image.data after x y 0%Z
               = fst (fst (Image.gamut_channels (Image.channels img x y))))
    by (rewrite <- Hc; reflexivity).
  assert (H1 : Image.data after x y 1%Z
               = snd (fst (Image.gamut_channels (Image.channels img x y))))
    by (rewrite <- Hc; reflexivity).
  assert (H2 : Image.data after x y 2%Z
               = snd (Image.gamut_channels (Image.channels img x y)))
    by (rewrite <- Hc; reflexivity).
  destruct (Z.eq_dec c 0) as [->|N0];
    [rewrite H0; apply fmax_zero; [apply Hz|exact Hm]|].
  destruct (Z.eq_dec c 1) as [->|N1];
    [rewrite H1; apply fmax_zero; [apply Hz|exact Hm]|].
  destruct (Z.eq_dec c 2) as [->|N2];
    [rewrite H2; apply fmax_zero; [apply Hz|exact Hm]|].
  unfold after.
  unfold Image.gamut_pixel. rewrite !data_store.
  rewrite !same_cell_other_channel by assumption. apply Hz.
Qed.

Section RenderEdges.

Variable rng : nat -> Z.
Variable width height : Z.
Variable img_in : Z -> Z -> Z -> Q.
Variable spectrum_p_to_rgb : Q -> Q -> Q * Q * Q.
Variable spectrum_rgb_to_p : Q -> Q * Q * Q -> Q.
Variable magnification : Q.
Variable system_lambert_cos2 : Poly.TruncPolySystem.
Variable lambert : Q -> Q.

Local Abbreviation sample_body :=
  (Render.sample_body rng width spectrum_p_to_rgb magnification lambert).
Local Abbreviation pixel_body :=
  (Render.pixel_body rng width img_in spectrum_p_to_rgb spectrum_rgb_to_p
     magnification lambert).
Local Abbreviation row_body :=
  (Render.row_body rng width height img_in spectrum_p_to_rgb spectrum_rgb_to_p
     magnification lambert).
Local Abbreviation bin_body :=
  (Render.bin_body rng width height img_in spectrum_p_to_rgb spectrum_rgb_to_p
     magnification system_lambert_cos2 lambert).
Local Abbreviation monte_carlo :=
  (Render.monte_carlo rng width height img_in spectrum_p_to_rgb
     spectrum_rgb_to_p magnification system_lambert_cos2 lambert).
Local Abbreviation render :=
  (Render.render rng width height img_in spectrum_p_to_rgb
     spectrum_rgb_to_p magnification system_lambert_cos2 lambert).

(** A sample of weight zero leaves a zero image zero. *)
Lemma sample_body_zero (fuel : nat) (ll : Z) (system_y : Poly.TruncPolySystem)
  (x_world w : Q) :
  w == 0 ->
  Render.preserves
    (fun st => forall x y c, Image.data (Render.img_out st) x y c == 0)
    (sample_body fuel ll system_y x_world w).
Proof.
  intros Hw st st' Hz Hrun.
  destruct (sample_body_done _ _ _ _ _ _ _ _ _ _ _ _ Hrun)
    as (s & _ & Himg & Hsw & _).
  intros x y c. rewrite Himg, splat_added, Hz.
  unfold Render.contribution. destruct (Image.inside _ x y c); [|ring].
  unfold Render.channel_value. destruct (Render.s_rgb s) as [[r g] b].
  rewrite Hsw, Hw. ring.
Qed.

(** An input image without power at any wavelength bin renders to an
    output image that is zero everywhere. *)
Theorem black_image_renders_black (fuel : nat) (img : Image.CImg) :
  (forall ll i j,
     (0 <= ll < Render.num_lambdas)%Z ->
     (0 <= j < height)%Z -> (0 <= i < width)%Z ->
     spectrum_rgb_to_p (Render.lambda_of ll)
       (img_in i j 0%Z, img_in i j 1%Z, img_in i j 2%Z) == 0) ->
  render fuel = Render.Done img ->
  forall x y c, Image.data img x y c == 0.
Proof.
  intros Hblack Hrun. unfold Render.render in Hrun.
  destruct (monte_carlo fuel) as [st| |] eqn:Emc; cbn [Render.bind] in Hrun;
    [|discriminate Hrun|discriminate Hrun].
  assert (E : img = Image.gamut_pass Render.sensor_xres Render.sensor_yres
                      (Render.img_out st)) by congruence.
  rewrite E. apply gamut_pass_zero.
  revert Emc. unfold Render.monte_carlo.
  apply (for_range_preserves_range
           (fun st => forall x y c, Image.data (Render.img_out st) x y c == 0));
    [|intros; reflexivity].
  intros ll Hll. unfold Render.bin_body.
  apply for_range_preserves_range. intros j Hj. unfold Render.row_body.
  apply for_range_preserves_range. intros i Hi. unfold Render.pixel_body.
  specialize (Hblack ll i j Hll Hj Hi).
  destruct (Sampling.num_samples _ _) as [n|].
  - apply for_range_preserves. intros _. apply sample_body_zero.
    unfold Sampling.sample_weight. rewrite Hblack. unfold Qdiv. ring.
  - intros s s' _ H. discriminate H.
Qed.

(** An input image without pixels is rendered without a single random
    number, whatever the fuel: the output is the zero image. *)
Theorem empty_image_renders_black (fuel : nat) :
  (width <= 0)%Z \/ (height <= 0)%Z ->
  monte_carlo fuel = Render.Done Render.initial_state /\
  exists img : Image.CImg,
    render fuel = Render.Done img /\
    Image.width img = Render.sensor_xres /\
    Image.height img = Render.sensor_yres /\
    forall x y c, Image.data img x y c == 0.
Proof.
  intro Hempty.
  assert (Hmc : monte_carlo fuel = Render.Done Render.initial_state).
  { unfold Render.monte_carlo, Render.for_range. apply for_loop_skips.
    intros ll st. unfold Render.bin_body.
    destruct (Z.le_gt_cases height 0) as [Hh|Hh];
      [apply for_range_empty; exact Hh|].
    unfold Render.for_range. apply for_loop_skips.
    intros j st1. unfold Render.row_body. apply for_range_empty. lia. }
  split; [exact Hmc|].
  unfold Render.render. rewrite Hmc. cbn [Render.bind].
  eexists. split; [reflexivity|].
  destruct (gamut_pass_shape Render.sensor_xres Render.sensor_yres
              (Render.img_out Render.initial_state)) as (Hw & Hh & _).
  split; [exact Hw|]. split; [exact Hh|].
  apply gamut_pass_zero. intros; reflexivity.
Qed.

End RenderEdges.

Lemma black_image_renders_black_witness :
  (forall ll i j,
     (0 <= ll < Render.num_lambdas)%Z -> (0 <= j < 1)%Z -> (0 <= i < 1)%Z ->
     example_rgb_to_p (Render.lambda_of ll)
       (example_img_in 0 i j 0%Z, example_img_in 0 i j 1%Z,
        example_img_in 0 i j 2%Z) == 0) /\
  exists img : Image.CImg,
    example_render example_rng_centre 0 1 = Render.Done img /\
    forall x y c, Image.data img x y c == 0.
Proof.
  assert (Hblack : forall ll i j,
            (0 <= ll < Render.num_lambdas)%Z -> (0 <= j < 1)%Z ->
            (0 <= i < 1)%Z ->
            example_rgb_to_p (Render.lambda_of ll)
              (example_img_in 0 i j 0%Z, example_img_in 0 i j 1%Z,
               example_img_in 0 i j 2%Z) == 0)
    by (intros; reflexivity).
  split; [exact Hblack|].
  assert (H : Render.is_done (example_monte_carlo example_rng_centre 0 1)
              = true) by (vm_compute; reflexivity).
  destruct (example_monte_carlo example_rng_centre 0 1) as [st| |] eqn:E;
    [|discriminate H|discriminate H].
  assert (Hrun : example_render example_rng_centre 0 1
                 = Render.Done
                     (Image.gamut_pass Render.sensor_xres Render.sensor_yres
                        (Render.img_out st)))
    by (unfold Render.render; rewrite E; reflexivity).
  eexists. split; [exact Hrun|].
  exact (black_image_renders_black example_rng_centre 1 1 (example_img_in 0)
           example_p_to_rgb example_rgb_to_p 1 example_system example_lambert
           1 _ Hblack Hrun).
Defined.

Lemma empty_image_renders_black_witness :
  ((0 <= 0)%Z \/ (5 <= 0)%Z) /\
  Render.monte_carlo example_rng_zero 0 5 (example_img_in 1) example_p_to_rgb
    example_rgb_to_p 1 example_system example_lambert 0
    = Render.Done Render.initial_state /\
  exists img : Image.CImg,
    Render.render example_rng_zero 0 5 (example_img_in 1) example_p_to_rgb
      example_rgb_to_p 1 example_system example_lambert 0 = Render.Done img /\
    Image.width img = Render.sensor_xres /\
    Image.height img = Render.sensor_yres /\
    forall x y c, Image.data img x y c == 0.
Proof.
  split; [left; lia|].
  apply (empty_image_renders_black example_rng_zero 0 5 (example_img_in 1)
           example_p_to_rgb example_rgb_to_p 1 example_system example_lambert 0).
  left. lia.
Defined.
